(** * Structuring core of the decompiler

    A shallow embedding of [angr/analyses/decompiler/structuring/structurer_base.py]
    (class [StructurerBase]): the structured-node tree, the statements the
    structurer inspects, and the rewriting passes over them, followed by the
    properties established about each pass. *)

From Stdlib Require Import ZArith String Lia Permutation.
From stdpp Require Import base option list gmap.

Local Open Scope Z_scope.

(** ** AIL expressions and statements

    Only what the structurer looks at is kept: whether a jump target is a
    constant and which, the condition of a conditional jump, and the
    [ins_addr] tag.  [**stmt.tags] is carried as that one tag. *)

Inductive expr : Type :=
| Const (idx : option Z) (value : Z)
| UnaryOp (idx : option Z) (op : string) (operand : expr)
| MultiStatementExpression (idx : option Z) (ins_addr : Z)
| OtherExpr (idx : option Z) (tag : Z).

Definition expr_idx (e : expr) : option Z :=
  match e with
  | Const i _ | UnaryOp i _ _ | MultiStatementExpression i _ | OtherExpr i _ => i
  end.

Inductive stmt : Type :=
| Jump (idx : option Z) (target : expr) (target_idx : option Z) (ins_addr : Z)
| ConditionalJump (idx : option Z) (condition : expr)
    (true_target false_target : option expr)
    (true_target_idx false_target_idx : option Z) (ins_addr : Z)
| OtherStmt (idx : option Z) (ins_addr : Z).

Definition stmt_ins_addr (s : stmt) : Z :=
  match s with
  | Jump _ _ _ a | ConditionalJump _ _ _ _ _ _ a | OtherStmt _ a => a
  end.

(** [isinstance(stmt, ailment.Stmt.Jump)] and
    [isinstance(stmt, (ailment.Stmt.Jump, ailment.Stmt.ConditionalJump))]. *)
Definition is_Jump (s : stmt) : bool :=
  match s with Jump _ _ _ _ => true | _ => false end.

Definition is_ConditionalJump (s : stmt) : bool :=
  match s with ConditionalJump _ _ _ _ _ _ _ => true | _ => false end.

Definition is_jump_stmt (s : stmt) : bool := is_Jump s || is_ConditionalJump s.

(** [isinstance(e, ailment.Expr.Const) and e.value == a], where [a] is a
    node address that may be [None]. *)
Definition const_is (e : expr) (a : option Z) : bool :=
  match e with
  | Const _ v => bool_decide (a = Some v)
  | _ => false
  end.

Definition opt_const_is (e : option expr) (a : option Z) : bool :=
  match e with Some e' => const_is e' a | None => false end.

(** ** Conditions

    Boolean ASTs as [claripy.Not], [claripy.And] and [claripy.Or] build them.
    A condition stored in a node is either such an AST or an AIL expression
    that [claripy_ast_from_ail_condition] still has to convert. *)

Inductive cond : Type :=
| BoolS (name : Z)
| BoolV (b : bool)
| claripy_Not (c : cond)
| claripy_And (a b : cond)
| claripy_Or (a b : cond).

Inductive condition : Type :=
| AilCond (e : expr)
| ClaripyCond (c : cond).

(** ** Structured nodes

    The variants the passes below dispatch on.  A [LoopNode] is kept with its
    sort, condition and body; the placeholder [IncompleteSwitchCaseNode] of
    the multi-pass switch structuring does not occur in the trees these
    passes are given and is left out. *)

Inductive loop_sort : Type := SortWhile | SortDoWhile | SortFor.

Inductive case_key : Type :=
| KeyInt (k : Z)
| KeyTuple (ks : list Z).

#[warnings="-register-all"]
Inductive node : Type :=
| Block (addr : Z) (original_size : Z) (statements : list stmt) (idx : option Z)
| MultiNode (nodes : list node) (addr : option Z) (idx : option Z)
| SequenceNode (addr : option Z) (nodes : list node)
| CodeNode (inner : node) (reaching_condition : option cond)
| ConditionNode (addr : option Z) (reaching_condition : option cond)
    (condition : condition) (true_node false_node : option node)
| CascadingConditionNode (addr : option Z)
    (condition_and_nodes : list (condition * node)) (else_node : option node)
| LoopNode (sort : loop_sort) (condition : option condition)
    (sequence_node : node) (addr : option Z)
| SwitchCaseNode (switch_expr : expr) (cases : list (case_key * node))
    (default_node : option node) (addr : option Z)
| BreakNode (addr : Z) (target : Z)
| ConditionalBreakNode (addr : Z) (condition : cond) (target : Z)
| ContinueNode (addr : Z) (target : option Z).

(** The [addr] attribute every node carries. *)
Fixpoint node_addr (n : node) : option Z :=
  match n with
  | Block a _ _ _ => Some a
  | MultiNode _ a _ => a
  | SequenceNode a _ => a
  | CodeNode inner _ => node_addr inner
  | ConditionNode a _ _ _ _ => a
  | CascadingConditionNode a _ _ => a
  | LoopNode _ _ _ a => a
  | SwitchCaseNode _ _ _ a => a
  | BreakNode a _ => Some a
  | ConditionalBreakNode a _ _ => Some a
  | ContinueNode a _ => Some a
  end.

Definition is_ContinueNode (n : node) : bool :=
  match n with ContinueNode _ _ => true | _ => false end.

Definition is_LoopNode (n : node) : bool :=
  match n with LoopNode _ _ _ _ => true | _ => false end.

Definition is_SwitchCaseNode (n : node) : bool :=
  match n with SwitchCaseNode _ _ _ _ => true | _ => false end.

(** ** Exceptions

    Code that can raise returns a [result]; [AngrDecompilationError] is the
    structuring error of the decompiler, the others are Python's own. *)

Inductive exn : Type :=
| AngrDecompilationError (msg : string)
| AttributeError
| TypeError
| KeyError
| AssertionError.

Inductive result (A : Type) : Type :=
| Ok (a : A)
| Raise (e : exn).

Arguments Ok {A} a.
Arguments Raise {A} e.

Definition bind {A B : Type} (r : result A) (k : A -> result B) : result B :=
  match r with
  | Ok a => k a
  | Raise e => Raise e
  end.

Notation "x <~ r ;; k" := (bind r (fun x => k))
  (at level 100, r at next level, right associativity).

(** [e.value]: only a [Const] has the attribute. *)
Definition value_of (e : expr) : result Z :=
  match e with
  | Const _ v => Ok v
  | _ => Raise AttributeError
  end.

(** [None if e is None else e.value]. *)
Definition opt_value_of (e : option expr) : result (option Z) :=
  match e with
  | None => Ok None
  | Some e' => v <~ value_of e' ;; Ok (Some v)
  end.

(** [v is not None and v in addrs]. *)
Definition some_in (v : option Z) (addrs : gset Z) : bool :=
  match v with
  | Some a => bool_decide (a ∈ addrs)
  | None => false
  end.

Section BreakNodes.

(** [self.cond_proc.claripy_ast_from_ail_condition] *)
Variable claripy_ast_from_ail_condition : condition -> cond.

(** [StructurerBase._loop_create_break_node] *)
Definition loop_create_break_node (last_stmt : stmt) (loop_successor_addrs : gset Z)
  : result (option node) :=
  match last_stmt with
  | Jump _ target _ ins_addr =>
      v <~ value_of target ;;
      Ok (Some (BreakNode ins_addr v))
  | ConditionalJump _ condition true_target false_target _ _ ins_addr =>
      true_target_value <~ opt_value_of true_target ;;
      false_target_value <~ opt_value_of false_target ;;
      if some_in true_target_value loop_successor_addrs
         && negb (some_in false_target_value loop_successor_addrs)
      then
        match true_target_value with
        | Some target =>
            Ok (Some (ConditionalBreakNode ins_addr
                        (claripy_ast_from_ail_condition (AilCond condition)) target))
        | None => Raise AttributeError
        end
      else if some_in false_target_value loop_successor_addrs
              && negb (some_in true_target_value loop_successor_addrs)
      then
        match false_target_value with
        | Some target =>
            let cond := UnaryOp (expr_idx condition) "Not" condition in
            Ok (Some (ConditionalBreakNode ins_addr
                        (claripy_ast_from_ail_condition (AilCond cond)) target))
        | None => Raise AttributeError
        end
      else if some_in false_target_value loop_successor_addrs
              && some_in true_target_value loop_successor_addrs
      then
        match false_target_value with
        | Some target => Ok (Some (BreakNode ins_addr target))
        | None => Raise AttributeError
        end
      else
        Raise (AngrDecompilationError
                 "Unexpected: None of the branches is jumping to outside of the loop")
  | OtherStmt _ _ => Ok None
  end.

End BreakNodes.

(** ** Helpers from [decompiler/utils.py] *)

(** Modelled from the spec: [extract_jump_targets] of decompiler/utils.py is
    the query "to which target address(es) does this jump statement go"
    (none, one or two): the constant targets of a jump or of a conditional
    jump, true target first. *)
Definition extract_jump_targets (s : stmt) : list Z :=
  match s with
  | Jump _ (Const _ v) _ _ => [v]
  | Jump _ _ _ _ => []
  | ConditionalJump _ _ true_target false_target _ _ _ =>
      match true_target with Some (Const _ v) => [v] | _ => [] end
      ++ match false_target with Some (Const _ v) => [v] | _ => [] end
  | OtherStmt _ _ => []
  end.

(** ** The sequence walker *)

(** Modelled from the spec: sequence_walker.py is not part of the sources at
    hand.  [SequenceWalker]'s default handlers recurse into the children of
    each variant in their natural order.  The handlers registered by the
    passes below mutate the tree in place, so a walk is written as the
    function from the tree before to the tree after; [walk_children f] is the
    default handler of a node whose children are handled by [f]. *)
Definition walk_children (f : node -> node) (n : node) : node :=
  match n with
  | Block _ _ _ _ | BreakNode _ _ | ConditionalBreakNode _ _ _ | ContinueNode _ _ => n
  | MultiNode ns a i => MultiNode (map f ns) a i
  | SequenceNode a ns => SequenceNode a (map f ns)
  | CodeNode inner rc => CodeNode (f inner) rc
  | ConditionNode a rc c t e => ConditionNode a rc c (option_map f t) (option_map f e)
  | CascadingConditionNode a cns e =>
      CascadingConditionNode a (map (fun cn => (fst cn, f (snd cn))) cns) (option_map f e)
  | LoopNode s c body a => LoopNode s c (f body) a
  | SwitchCaseNode e cs d a =>
      SwitchCaseNode e (map (fun kc => (fst kc, f (snd kc))) cs) (option_map f d) a
  end.

(** Modelled from the spec: the blocks a walk with only a [Block] handler
    visits, every other variant being left to the default handlers. *)
Fixpoint walked_blocks (n : node) : list node :=
  match n with
  | Block _ _ _ _ => [n]
  | BreakNode _ _ | ConditionalBreakNode _ _ _ | ContinueNode _ _ => []
  | MultiNode ns _ _ => flat_map walked_blocks ns
  | SequenceNode _ ns => flat_map walked_blocks ns
  | CodeNode inner _ => walked_blocks inner
  | ConditionNode _ _ _ t e =>
      match t with Some t' => walked_blocks t' | None => [] end
      ++ match e with Some e' => walked_blocks e' | None => [] end
  | CascadingConditionNode _ cns e =>
      flat_map (fun cn => walked_blocks (snd cn)) cns
      ++ match e with Some e' => walked_blocks e' | None => [] end
  | LoopNode _ _ body _ => walked_blocks body
  | SwitchCaseNode _ cs d _ =>
      flat_map (fun kc => walked_blocks (snd kc)) cs
      ++ match d with Some d' => walked_blocks d' | None => [] end
  end.

(** ** Switch-end address: [StructurerBase._switch_find_switch_end_addr] *)

(** [goto_addrs = defaultdict(int)]: keys in insertion order. *)
Fixpoint defaultdict_incr (t : Z) (d : list (Z * nat)) : list (Z * nat) :=
  match d with
  | [] => [(t, 1%nat)]
  | (k, c) :: rest =>
      if bool_decide (k = t) then (k, S c) :: rest else (k, c) :: defaultdict_incr t rest
  end.

(** [t in cases]: [cases] is a dict and [in] tests its keys. *)
Definition in_keys {V : Type} (t : Z) (cases : list (Z * V)) : bool :=
  bool_decide (t ∈ map fst cases).

(** [t in cases or (default is not None and t == default.addr)] *)
Definition within_switch (cases : list (Z * node)) (default : option node) (t : Z) : bool :=
  in_keys t cases
  || match default with
     | Some d => bool_decide (node_addr d = Some t)
     | None => false
     end.

(** The handler [_find_gotos], threading [goto_addrs]. *)
Definition find_gotos (cases : list (Z * node)) (default : option node)
    (goto_addrs : list (Z * nat)) (block : node) : list (Z * nat) :=
  match block with
  | Block _ _ statements _ =>
      match last statements with
      | Some stmt =>
          if is_Jump stmt then
            fold_left
              (fun acc t => if within_switch cases default t then acc else defaultdict_incr t acc)
              (extract_jump_targets stmt) goto_addrs
          else goto_addrs
      | None => goto_addrs
      end
  | _ => goto_addrs
  end.

(** [sorted(items, key=lambda x: x[1], reverse=True)]: a stable sort, larger
    counts first, equal counts in their original order.  [insert_by_count x l]
    puts [x], an item that stood before the items of the sorted list [l],
    before the first item of [l] whose count is not larger than its own. *)
Fixpoint insert_by_count (x : Z * nat) (l : list (Z * nat)) : list (Z * nat) :=
  match l with
  | [] => [x]
  | y :: rest =>
      if (snd y <=? snd x)%nat then x :: y :: rest else y :: insert_by_count x rest
  end.

Definition sorted_by_count_desc (l : list (Z * nat)) : list (Z * nat) :=
  fold_right insert_by_count [] l.

Definition switch_find_switch_end_addr (cases : list (Z * node)) (default : option node)
    (region_node_addrs : gset Z) : option Z :=
  let walk_on acc root := fold_left (find_gotos cases default) (walked_blocks root) acc in
  let goto_addrs := fold_left walk_on (map snd cases) [] in
  let goto_addrs :=
    match default with Some d => walk_on goto_addrs d | None => goto_addrs end in
  match goto_addrs with
  | [] => None
  | _ =>
      let goto_addrs :=
        if (1 <? length goto_addrs)%nat
           && existsb (fun at_ => bool_decide (fst at_ ∈ region_node_addrs)) goto_addrs
        then filter (fun at_ => fst at_ ∈ region_node_addrs) goto_addrs
        else goto_addrs in
      match sorted_by_count_desc goto_addrs with
      | (a, _) :: _ => Some a
      | [] => None
      end
  end.

(** [insert_node] of decompiler/utils.py is not among the sources.  For a
    parent that is a [SequenceNode] or a [MultiNode] the spec describes it,
    and [insert_node] below follows that description.  For a child that
    fills a slot of a parent that is not a container (a branch of a
    condition, a case of a switch-case, the inner node of a code node) the
    spec is silent; the source only notes that "insert_node() handles it for
    us" and that "parent.cases[index] is a SequenceNode now".

    The walks of the two loop passes are written in splice form: a handler
    gives the nodes that stand in the place of its block afterwards, the
    block followed by what it inserted.  In a container these nodes take the
    place of the block among the children, which is what insertion at the
    index of the block comes to ([InPlace.rewrite_jumps_walk] and
    [rewrite_jumps_walk_in_place] below).  In a slot of a parent that is no
    container the splice form keeps them together, in a [SequenceNode] when
    there is more than the block: [in_slot child now].  Where the inserted
    nodes really come to stand there is decided by [insert_node]; of such
    parents only properties that hold wherever the inserted nodes stand are
    stated in splice form. *)
Definition in_slot (child : node) (now : list node) : node :=
  match now with
  | [n] => n
  | _ => SequenceNode (node_addr child) now
  end.

(** ** Jumps to continues: [StructurerBase._rewrite_jumps_to_continues] *)

Section Continues.

Variable claripy_ast_from_ail_condition : condition -> cond.
Variable continue_node_addr : option Z.

(** The handler [_rewrite_jump_to_continue] in splice form: the block
    afterwards, followed by the nodes it inserts, in the order in which they
    stand after the block once inserted at [index] and at [index + 1].
    [InPlace.rewrite_jump_to_continue] is the handler with its parent, index
    and label. *)
Definition rewrite_jump_to_continue (this : node) : list node :=
  match this with
  | Block a sz statements idx =>
      match last statements with
      | None => [this]
      | Some (Jump _ _ _ ins_addr as stmt) =>
          if existsb (fun target => bool_decide (Some target = continue_node_addr))
               (extract_jump_targets stmt)
          then [Block a sz (removelast statements) idx;
                ContinueNode ins_addr continue_node_addr]
          else [this]
      | Some (ConditionalJump sidx condition true_target false_target _ _ ins_addr) =>
          let found :=
            if opt_const_is true_target continue_node_addr
            then Some (claripy_ast_from_ail_condition (AilCond condition), false_target)
            else if opt_const_is false_target continue_node_addr
            then Some (claripy_Not (claripy_ast_from_ail_condition (AilCond condition)),
                       true_target)
            else None in
          match found with
          | None => [this]
          | Some (cond, other_target) =>
              let continue_node := ContinueNode ins_addr continue_node_addr in
              Block a sz (removelast statements) idx ::
              match other_target with
              | Some target =>
                  let other_cond := claripy_Not cond in
                  let jumpout_stmt := Jump sidx target None ins_addr in
                  let jumpout_block := Block ins_addr 0 [jumpout_stmt] None in
                  [ConditionNode (Some ins_addr) None (ClaripyCond other_cond)
                     (Some jumpout_block) None;
                   continue_node]
              | None =>
                  [ConditionNode (Some ins_addr) None (ClaripyCond cond)
                     (Some continue_node) None]
              end
          end
      | Some (OtherStmt _ _) => [this]
      end
  | _ => [this]
  end.

(** The walk with handlers [{Block: _rewrite_jump_to_continue, LoopNode: _dummy}]
    in splice form: what the place of [n] in its parent holds afterwards. *)
Fixpoint rewrite_jumps_walk (n : node) : list node :=
  match n with
  | Block _ _ _ _ => rewrite_jump_to_continue n
  | LoopNode _ _ _ _ => [n]
  | BreakNode _ _ | ConditionalBreakNode _ _ _ | ContinueNode _ _ => [n]
  | SequenceNode a ns => [SequenceNode a (flat_map rewrite_jumps_walk ns)]
  | MultiNode ns a i => [MultiNode (flat_map rewrite_jumps_walk ns) a i]
  | CodeNode inner rc => [CodeNode (in_slot inner (rewrite_jumps_walk inner)) rc]
  | ConditionNode a rc c t e =>
      [ConditionNode a rc c
         (option_map (fun x => in_slot x (rewrite_jumps_walk x)) t)
         (option_map (fun x => in_slot x (rewrite_jumps_walk x)) e)]
  | CascadingConditionNode a cns e =>
      [CascadingConditionNode a
         (map (fun cn => (fst cn, in_slot (snd cn) (rewrite_jumps_walk (snd cn)))) cns)
         (option_map (fun x => in_slot x (rewrite_jumps_walk x)) e)]
  | SwitchCaseNode se cs d a =>
      [SwitchCaseNode se
         (map (fun kc => (fst kc, in_slot (snd kc) (rewrite_jumps_walk (snd kc)))) cs)
         (option_map (fun x => in_slot x (rewrite_jumps_walk x)) d) a]
  end.

End Continues.

(** [StructurerBase._remove_continue_node_at_loop_body_ends]: handlers for
    [SequenceNode] and [MultiNode], [_dummy] for [LoopNode] and
    [SwitchCaseNode], the default handlers elsewhere. *)
Fixpoint remove_continue_node_at_loop_body_ends (n : node) : node :=
  match n with
  | SequenceNode a ns =>
      SequenceNode a
        ((fix at_end (ns : list node) : list node :=
            match ns with
            | [] => []
            | [x] => if is_ContinueNode x then []
                     else [remove_continue_node_at_loop_body_ends x]
            | x :: rest => x :: at_end rest
            end) ns)
  | MultiNode ns a i =>
      MultiNode
        ((fix at_end (ns : list node) : list node :=
            match ns with
            | [] => []
            | [x] => if is_ContinueNode x then []
                     else [remove_continue_node_at_loop_body_ends x]
            | x :: rest => x :: at_end rest
            end) ns) a i
  | LoopNode _ _ _ _ | SwitchCaseNode _ _ _ _ => n
  | _ => walk_children remove_continue_node_at_loop_body_ends n
  end.

(** [continue_node_addr]: the address of the body, or for a do-while loop
    with a multi-statement condition the [ins_addr] of that condition. *)
Definition continue_addr_of (loop_seq_addr : option Z) (loop_node : option node) : option Z :=
  match loop_node with
  | Some (LoopNode SortDoWhile (Some (AilCond (MultiStatementExpression _ ins_addr))) _ _) =>
      Some ins_addr
  | _ => loop_seq_addr
  end.

Section RewriteContinues.

Variable claripy_ast_from_ail_condition : condition -> cond.

(** The walk over the body [SequenceNode addr nodes], before the trailing
    continue nodes are removed. *)
Definition rewrite_jumps_to_continues_walk (addr : option Z) (nodes : list node)
    (loop_node : option node) : node :=
  SequenceNode addr
    (flat_map
       (rewrite_jumps_walk claripy_ast_from_ail_condition (continue_addr_of addr loop_node))
       nodes).

(** [_rewrite_jumps_to_continues(loop_seq, loop_node)] on
    [loop_seq = SequenceNode addr nodes]. *)
Definition rewrite_jumps_to_continues (addr : option Z) (nodes : list node)
    (loop_node : option node) : node :=
  remove_continue_node_at_loop_body_ends
    (rewrite_jumps_to_continues_walk addr nodes loop_node).

End RewriteContinues.

(** ** Jumps to continues, with the parent mutated in place *)

(** The [insert_location] of [insert_node]: "before" or "after". *)
Inductive insert_location : Type := InsertBefore | InsertAfter.

(** Modelled from the spec: [insert_node(parent, insert_location, node,
    node_idx, label)] of decompiler/utils.py, "for container variants,
    in-place child list mutation (insert-before/insert-after at an index)".
    In a [SequenceNode] or a [MultiNode] the node joins the children, before
    the child at [node_idx] or after it; past the end [list.insert] appends.
    What becomes of a parent that is no container the spec does not say:
    [None] stands for that, an outcome that is not described, and nothing is
    concluded from it. *)
Definition insert_node (parent : node) (loc : insert_location) (n : node)
    (node_idx : nat) (label : option string) : option node :=
  let at_ := match loc with InsertBefore => node_idx | InsertAfter => S node_idx end in
  match parent with
  | SequenceNode a ns => Some (SequenceNode a (take at_ ns ++ n :: drop at_ ns))
  | MultiNode ns a i => Some (MultiNode (take at_ ns ++ n :: drop at_ ns) a i)
  | _ => None
  end.

(** A handler changes the node it is given in place, and the parent holds
    that very node: [set_child parent index child] is the container [parent]
    once its child at [index] has become [child]. *)
Definition set_child (parent : node) (index : nat) (child : node) : node :=
  match parent with
  | SequenceNode a ns => SequenceNode a (<[index := child]> ns)
  | MultiNode ns a i => MultiNode (<[index := child]> ns) a i
  | _ => parent
  end.

(** Modelled from the spec: the default handler of a container hands every
    child to its handler with "its (parent, index, label) context" and "must
    tolerate a handler shrinking/growing the sibling list mid-iteration",
    with "no implicit re-visit of newly spliced nodes".  The handlers below
    insert after the index they are given, so the children are taken from
    the last to the first: a child that is still to be visited then stands
    at the index it had, and a node that was inserted is not visited.  The
    handlers look at their own block only, so the order in which the
    children are taken shows in the indices alone.
    [handle parent index x] is the parent after the child [x] at [index] was
    handled. *)
Fixpoint handle_children (handle : node -> nat -> node -> option node)
    (todo : list node) (index : nat) (parent : node) : option node :=
  match todo with
  | [] => Some parent
  | x :: rest =>
      parent ← handle_children handle rest (S index) parent;
      handle parent index x
  end.

(** Modelled from the spec: the default handler of a
    [CascadingConditionNode] or a [SwitchCaseNode] hands the children to
    their handlers one after the other, each in its slot. *)
Fixpoint handle_pairs {C : Type} (handle : nat -> node -> option node)
    (index : nat) (pairs : list (C * node)) : option (list (C * node)) :=
  match pairs with
  | [] => Some []
  | (c, x) :: rest =>
      x' ← handle index x;
      rest' ← handle_pairs handle (S index) rest;
      Some ((c, x') :: rest')
  end.

Module InPlace.

Section Continues.

Variable claripy_ast_from_ail_condition : condition -> cond.
Variable continue_node_addr : option Z.

(** The handler [_rewrite_jump_to_continue(node, parent, index, label)]:
    the parent and the block afterwards, or [None] where [insert_node] is
    not described. *)
Definition rewrite_jump_to_continue (parent : node) (index : nat) (label : option string)
    (this : node) : option (node * node) :=
  match this with
  | Block a sz statements idx =>
      match last statements with
      | None => Some (parent, this)
      | Some (Jump _ _ _ ins_addr as stmt) =>
          if existsb (fun target => bool_decide (Some target = continue_node_addr))
               (extract_jump_targets stmt)
          then
            let continue_node := ContinueNode ins_addr continue_node_addr in
            parent ← insert_node parent InsertAfter continue_node index label;
            Some (parent, Block a sz (removelast statements) idx)
          else Some (parent, this)
      | Some (ConditionalJump sidx condition true_target false_target _ _ ins_addr) =>
          let found :=
            if opt_const_is true_target continue_node_addr
            then Some (claripy_ast_from_ail_condition (AilCond condition), false_target)
            else if opt_const_is false_target continue_node_addr
            then Some (claripy_Not (claripy_ast_from_ail_condition (AilCond condition)),
                       true_target)
            else None in
          match found with
          | None => Some (parent, this)
          | Some (cond, other_target) =>
              '(parent, index, skip_continue_condition) ←
                match other_target with
                | Some target =>
                    let other_cond := claripy_Not cond in
                    let jumpout_stmt := Jump sidx target None ins_addr in
                    let jumpout_block := Block ins_addr 0 [jumpout_stmt] None in
                    let jumpout_node :=
                      ConditionNode (Some ins_addr) None (ClaripyCond other_cond)
                        (Some jumpout_block) None in
                    parent ← insert_node parent InsertAfter jumpout_node index label;
                    Some (parent, S index, true)
                | None => Some (parent, index, false)
                end;
              let continue_node := ContinueNode ins_addr continue_node_addr in
              let cond_node :=
                if skip_continue_condition : bool then continue_node
                else ConditionNode (Some ins_addr) None (ClaripyCond cond)
                       (Some continue_node) None in
              parent ← insert_node parent InsertAfter cond_node index label;
              Some (parent, Block a sz (removelast statements) idx)
          end
      | Some (OtherStmt _ _) => Some (parent, this)
      end
  | _ => Some (parent, this)
  end.

(** Modelled from the spec: [walker._handle(node, parent=parent,
    index=index, label=label)] dispatches on the variant of the node, here
    with the handlers [{Block: _rewrite_jump_to_continue, LoopNode: _dummy}].
    The result is the parent and the node afterwards, [walk] being the walk
    of a node that is no block. *)
Definition handle (walk : node -> option node) (parent : node) (index : nat)
    (label : option string) (x : node) : option (node * node) :=
  match x with
  | Block _ _ _ _ => rewrite_jump_to_continue parent index label x
  | _ => x' ← walk x; Some (parent, x')
  end.

(** A child of a container, and a child in a slot of a parent that is no
    container, where nothing can have been inserted when there is a result. *)
Definition handle_child (walk : node -> option node) (parent : node) (index : nat)
    (x : node) : option node :=
  '(parent, x') ← handle walk parent index None x;
  Some (set_child parent index x').

Definition handle_slot (walk : node -> option node) (parent : node) (index : nat)
    (label : option string) (x : node) : option node :=
  '(_, x') ← handle walk parent index label x;
  Some x'.

Definition handle_opt_slot (walk : node -> option node) (parent : node) (index : nat)
    (label : option string) (x : option node) : option (option node) :=
  match x with
  | Some x => x' ← handle_slot walk parent index label x; Some (Some x')
  | None => Some None
  end.

(** Modelled from the spec: the walk from a node [n] that is no block, the
    result being the node afterwards.  The default handlers take the
    children in their slots, with the labels the spec names ("true"/"false"
    inside a condition, "case"/"default" inside a switch-case); in a parent
    that is no container index and label only reach [insert_node].  A block
    is handled with its parent and index, which are required arguments of
    [_rewrite_jump_to_continue]: a walk that starts at a block has no
    result. *)
Fixpoint rewrite_jumps_walk (n : node) : option node :=
  match n with
  | Block _ _ _ _ => None
  | LoopNode _ _ _ _ => Some n
  | BreakNode _ _ | ConditionalBreakNode _ _ _ | ContinueNode _ _ => Some n
  | SequenceNode _ ns => handle_children (handle_child rewrite_jumps_walk) ns 0 n
  | MultiNode ns _ _ => handle_children (handle_child rewrite_jumps_walk) ns 0 n
  | CodeNode inner rc =>
      inner' ← handle_slot rewrite_jumps_walk n 0 None inner;
      Some (CodeNode inner' rc)
  | ConditionNode a rc c t e =>
      t' ← handle_opt_slot rewrite_jumps_walk n 0 (Some "true"%string) t;
      e' ← handle_opt_slot rewrite_jumps_walk n 1 (Some "false"%string) e;
      Some (ConditionNode a rc c t' e')
  | CascadingConditionNode a cns e =>
      cns' ← handle_pairs (fun index => handle_slot rewrite_jumps_walk n index None) 0 cns;
      e' ← handle_opt_slot rewrite_jumps_walk n (length cns) None e;
      Some (CascadingConditionNode a cns' e')
  | SwitchCaseNode se cs d a =>
      cs' ← handle_pairs
              (fun index => handle_slot rewrite_jumps_walk n index (Some "case"%string)) 0 cs;
      d' ← handle_opt_slot rewrite_jumps_walk n 0 (Some "default"%string) d;
      Some (SwitchCaseNode se cs' d' a)
  end.

End Continues.

(** [_rewrite_jumps_to_continues(loop_seq, loop_node)] on
    [loop_seq = SequenceNode addr nodes]: the walk, then the removal of the
    continue nodes at the ends. *)
Definition rewrite_jumps_to_continues (claripy_ast_from_ail_condition : condition -> cond)
    (addr : option Z) (nodes : list node) (loop_node : option node) : option node :=
  walked ← rewrite_jumps_walk claripy_ast_from_ail_condition
              (continue_addr_of addr loop_node) (SequenceNode addr nodes);
  Some (remove_continue_node_at_loop_body_ends walked).

End InPlace.

(** ** Jumps to breaks: [StructurerBase._rewrite_conditional_jumps_to_breaks] *)

Section Breaks.

Variable claripy_ast_from_ail_condition : condition -> cond.
Variable successor_addrs : gset Z.

(** "skip if this is a jump that jumps directly to its successor within
    the same SequenceNode": [next] is the address of the next sibling when
    the parent is a [SequenceNode] and there is one. *)
Definition jumps_to_next_sibling (next : option (option Z)) (s : stmt) : bool :=
  match s, next with
  | Jump _ target _ _, Some next_addr => const_is target next_addr
  | _, _ => false
  end.

(** [Block(stmts[0].ins_addr, end_ - stmts[0].ins_addr, statements=stmts, idx=idx)] *)
Definition sub_block (stmts : list stmt) (end_ : Z) (idx : option Z) : list node :=
  match stmts with
  | s0 :: _ => [Block (stmt_ins_addr s0) (end_ - stmt_ins_addr s0) stmts idx]
  | [] => []
  end.

(** The loop over [enumerate(node.statements)], from [stmt_idx] on, with
    its two variables [new_nodes] and [last_nonjump_stmt_idx]. *)
Fixpoint scan_statements (statements : list stmt) (idx : option Z)
    (next : option (option Z)) (todo : list stmt) (stmt_idx : nat)
    (new_nodes : list node) (last_nonjump_stmt_idx : nat)
  : result (list node * nat) :=
  match todo with
  | [] => Ok (new_nodes, last_nonjump_stmt_idx)
  | stmt :: rest =>
      if negb (is_jump_stmt stmt) || jumps_to_next_sibling next stmt
      then scan_statements statements idx next rest (S stmt_idx)
             new_nodes last_nonjump_stmt_idx
      else if existsb (fun target => bool_decide (target ∈ successor_addrs))
                (extract_jump_targets stmt)
      then
        break_node <~ loop_create_break_node claripy_ast_from_ail_condition
                        stmt successor_addrs ;;
        let new_nodes :=
          if (last_nonjump_stmt_idx <? stmt_idx)%nat
          then new_nodes
               ++ sub_block
                    (take (stmt_idx - last_nonjump_stmt_idx)
                       (drop last_nonjump_stmt_idx statements))
                    (stmt_ins_addr stmt) idx
          else new_nodes in
        scan_statements statements idx next rest (S stmt_idx)
          (new_nodes ++ match break_node with Some b => [b] | None => [] end)
          (S stmt_idx)
      else scan_statements statements idx next rest (S stmt_idx)
             new_nodes last_nonjump_stmt_idx
  end.

(** The handler [_rewrite_conditional_jump_to_break]: the block afterwards,
    followed by the nodes that replace it. *)
Definition rewrite_conditional_jump_to_break (next : option (option Z)) (this : node)
  : result (list node) :=
  match this with
  | Block a sz statements idx =>
      scanned <~ scan_statements statements idx next statements 0 [] 0 ;;
      let '(new_nodes, last_nonjump_stmt_idx) := scanned in
      match new_nodes with
      | [] => Ok [this]
      | _ =>
          let new_nodes :=
            if (last_nonjump_stmt_idx <? length statements - 1)%nat
            then new_nodes
                 ++ sub_block (drop last_nonjump_stmt_idx statements) (a + sz) idx
            else new_nodes in
          Ok (Block a sz [] idx :: new_nodes)
      end
  | _ => Ok [this]
  end.

Definition next_sibling_addr (rest : list node) : option (option Z) :=
  match rest with
  | y :: _ => Some (node_addr y)
  | [] => None
  end.

Definition slot_result (child : node) (r : result (list node)) : result node :=
  now <~ r ;; Ok (in_slot child now).

Definition opt_slot_result (walk : node -> result (list node)) (child : option node)
  : result (option node) :=
  match child with
  | Some c => c' <~ slot_result c (walk c) ;; Ok (Some c')
  | None => Ok None
  end.

(** The walk with handlers
    [{Block: _rewrite_conditional_jump_to_break, LoopNode: _dummy, SwitchCaseNode: _dummy}]. *)
Fixpoint rewrite_breaks_walk (next : option (option Z)) (n : node) : result (list node) :=
  match n with
  | Block _ _ _ _ => rewrite_conditional_jump_to_break next n
  | LoopNode _ _ _ _ | SwitchCaseNode _ _ _ _ => Ok [n]
  | BreakNode _ _ | ConditionalBreakNode _ _ _ | ContinueNode _ _ => Ok [n]
  | SequenceNode a ns =>
      ns' <~ (fix children (ns : list node) : result (list node) :=
                match ns with
                | [] => Ok []
                | x :: rest =>
                    r <~ rewrite_breaks_walk (next_sibling_addr rest) x ;;
                    rs <~ children rest ;;
                    Ok (r ++ rs)
                end) ns ;;
      Ok [SequenceNode a ns']
  | MultiNode ns a i =>
      ns' <~ (fix children (ns : list node) : result (list node) :=
                match ns with
                | [] => Ok []
                | x :: rest =>
                    r <~ rewrite_breaks_walk None x ;;
                    rs <~ children rest ;;
                    Ok (r ++ rs)
                end) ns ;;
      Ok [MultiNode ns' a i]
  | CodeNode inner rc =>
      inner' <~ slot_result inner (rewrite_breaks_walk None inner) ;;
      Ok [CodeNode inner' rc]
  | ConditionNode a rc c t e =>
      t' <~ opt_slot_result (rewrite_breaks_walk None) t ;;
      e' <~ opt_slot_result (rewrite_breaks_walk None) e ;;
      Ok [ConditionNode a rc c t' e']
  | CascadingConditionNode a cns e =>
      cns' <~ (fix pairs (cns : list (condition * node)) : result (list (condition * node)) :=
                 match cns with
                 | [] => Ok []
                 | (c, x) :: rest =>
                     x' <~ slot_result x (rewrite_breaks_walk None x) ;;
                     rest' <~ pairs rest ;;
                     Ok ((c, x') :: rest')
                 end) cns ;;
      e' <~ opt_slot_result (rewrite_breaks_walk None) e ;;
      Ok [CascadingConditionNode a cns' e']
  end.

(** [_rewrite_conditional_jumps_to_breaks(loop_node, successor_addrs)] on
    the body [loop_node].  The block handler takes [parent] and [index] as
    required keyword arguments, which a walk that starts at a block does
    not supply. *)
Definition rewrite_conditional_jumps_to_breaks (loop_node : node) : result node :=
  match loop_node with
  | Block _ _ _ _ => Raise TypeError
  | _ => slot_result loop_node (rewrite_breaks_walk None loop_node)
  end.

End Breaks.

(** ** Redundant jumps: [StructurerBase._remove_redundant_jumps] *)

(** What the loop of [_handle_Sequence] does to the statements of
    [this_node] when they end in a jump or conditional jump [jump_stmt],
    [next_addr] being [node.nodes[i + 1].addr]. *)
Definition drop_jump_to_next_Sequence (next_addr : option Z) (statements : list stmt)
  : list stmt :=
  match last statements with
  | Some (Jump _ target _ _) =>
      if const_is target next_addr
      then removelast statements
      else statements
  | Some (ConditionalJump idx condition true_target false_target
            true_target_idx false_target_idx ins_addr) =>
      if opt_const_is true_target next_addr
      then removelast statements
           ++ [ConditionalJump idx (UnaryOp None "Not" condition) false_target None
                 false_target_idx None ins_addr]
      else if opt_const_is false_target next_addr
      then removelast statements
           ++ [ConditionalJump idx condition true_target None
                 true_target_idx None ins_addr]
      else statements
  | _ => statements
  end.

(** The same loop in [_handle_MultiNode]. *)
Definition drop_jump_to_next_MultiNode (next_addr : option Z) (statements : list stmt)
  : list stmt :=
  match last statements with
  | Some (Jump _ target _ _) =>
      if const_is target next_addr
      then removelast statements
      else statements
  | Some (ConditionalJump idx condition true_target false_target
            true_target_idx false_target_idx ins_addr) =>
      if opt_const_is true_target next_addr
      then removelast statements
           ++ [ConditionalJump idx (UnaryOp None "Not" condition) false_target None
                 false_target_idx None ins_addr]
      else if opt_const_is false_target next_addr
      then removelast statements
           ++ [ConditionalJump idx condition true_target None
                 false_target_idx None ins_addr]
      else statements
  | _ => statements
  end.

(** Which block carries [jump_stmt]: [this_node] itself when it is a block,
    the last node of [this_node] when that is a [MultiNode] ending in a
    block.  [on_statements] is what is done to the statements of that block.
    A block without statements, or whose last statement is no jump, is left
    alone by [on_statements] itself. *)
Definition on_jump_block (on_statements : list stmt -> list stmt) (this_node : node) : node :=
  match this_node with
  | Block a sz statements idx => Block a sz (on_statements statements) idx
  | MultiNode ns ma mi =>
      match last ns with
      | Some (Block a sz statements idx) =>
          MultiNode (removelast ns ++ [Block a sz (on_statements statements) idx]) ma mi
      | _ => this_node
      end
  | _ => this_node
  end.

(** [for i in range(len(node.nodes) - 1)]: every node but the last, against
    the address of the node after it. *)
Fixpoint each_but_last (on_statements : option Z -> list stmt -> list stmt)
    (nodes : list node) : list node :=
  match nodes with
  | this_node :: (next_node :: _) as rest =>
      on_jump_block (on_statements (node_addr next_node)) this_node
      :: each_but_last on_statements rest
  | _ => nodes
  end.

(** The walk with handlers [{SequenceNode: _handle_Sequence, MultiNode:
    _handle_MultiNode}].  Each handler first rewrites statements of its
    children and then hands the node to the walker's default handler, which
    walks the children; [fuel] bounds the depth of the walk. *)
Fixpoint remove_redundant_jumps_walk (fuel : nat) (n : node) : node :=
  match fuel with
  | O => n
  | S fuel' =>
      match n with
      | SequenceNode a ns =>
          SequenceNode a
            (map (remove_redundant_jumps_walk fuel')
               (each_but_last drop_jump_to_next_Sequence ns))
      | MultiNode ns a i =>
          MultiNode
            (map (remove_redundant_jumps_walk fuel')
               (each_but_last drop_jump_to_next_MultiNode ns)) a i
      | _ => walk_children (remove_redundant_jumps_walk fuel') n
      end
  end.

(** The depth of a tree, the number of nodes on its longest branch. *)
Fixpoint height (n : node) : nat :=
  match n with
  | Block _ _ _ _ | BreakNode _ _ | ConditionalBreakNode _ _ _ | ContinueNode _ _ => 1
  | MultiNode ns _ _ => S (fold_right (fun x m => Nat.max (height x) m) 0%nat ns)
  | SequenceNode _ ns => S (fold_right (fun x m => Nat.max (height x) m) 0%nat ns)
  | CodeNode inner _ => S (height inner)
  | ConditionNode _ _ _ t e =>
      S (Nat.max (match t with Some x => height x | None => 0 end)
                 (match e with Some x => height x | None => 0 end))
  | CascadingConditionNode _ cns e =>
      S (Nat.max (fold_right (fun cn m => Nat.max (height (snd cn)) m) 0%nat cns)
                 (match e with Some x => height x | None => 0 end))
  | LoopNode _ _ body _ => S (height body)
  | SwitchCaseNode _ cs d _ =>
      S (Nat.max (fold_right (fun kc m => Nat.max (height (snd kc)) m) 0%nat cs)
                 (match d with Some x => height x | None => 0 end))
  end.

(** [_remove_redundant_jumps(seq)] *)
Definition remove_redundant_jumps (seq : node) : node :=
  remove_redundant_jumps_walk (height seq) seq.

(** ** Merging passes *)

(** [_Holder.merged] is raised by a handler anywhere in the tree; a walk
    returns it next to the tree.  [walk_children_flag f] is the walker's
    default handler of a node whose children are handled by [f]. *)
Definition walk_children_flag (f : node -> bool * node) (n : node) : bool * node :=
  match n with
  | Block _ _ _ _ | BreakNode _ _ | ConditionalBreakNode _ _ _ | ContinueNode _ _ => (false, n)
  | MultiNode ns a i =>
      let rs := map f ns in (existsb fst rs, MultiNode (map snd rs) a i)
  | SequenceNode a ns =>
      let rs := map f ns in (existsb fst rs, SequenceNode a (map snd rs))
  | CodeNode inner rc => let r := f inner in (fst r, CodeNode (snd r) rc)
  | ConditionNode a rc c t e =>
      let rt := option_map f t in
      let re := option_map f e in
      (from_option fst false rt || from_option fst false re,
       ConditionNode a rc c (option_map snd rt) (option_map snd re))
  | CascadingConditionNode a cns e =>
      let rs := map (fun cn => (fst cn, f (snd cn))) cns in
      let re := option_map f e in
      (existsb (fun r => fst (snd r)) rs || from_option fst false re,
       CascadingConditionNode a (map (fun r => (fst r, snd (snd r))) rs) (option_map snd re))
  | LoopNode s c body a => let r := f body in (fst r, LoopNode s c (snd r) a)
  | SwitchCaseNode se cs d a =>
      let rs := map (fun kc => (fst kc, f (snd kc))) cs in
      let rd := option_map f d in
      (existsb (fun r => fst (snd r)) rs || from_option fst false rd,
       SwitchCaseNode se (map (fun r => (fst r, snd (snd r))) rs) (option_map snd rd) a)
  end.

(** [node.node if type(node) is CodeNode else node] *)
Definition unwrap_code (n : node) : node :=
  match n with
  | CodeNode inner _ => inner
  | _ => n
  end.

(** A child that was unwrapped and then changed in place, seen again
    through its wrapper. *)
Definition rewrap_code (old_node now : node) : node :=
  match old_node with
  | CodeNode _ rc => CodeNode now rc
  | _ => now
  end.

Section MergeConditionalBreaks.

(** [ConditionProcessor.simplify_condition] *)
Variable simplify_condition : cond -> cond.

Section Handler.

(** [walker._handle] on a child *)
Variable handle : node -> bool * node.

(** The loop of [_handle_SequenceNode] over [seq_node.nodes], with
    [new_nodes] and [_Holder.merged]. *)
Fixpoint merge_breaks_loop (nodes new_nodes : list node) (merged : bool)
  : bool * list node :=
  match nodes with
  | [] => (merged, new_nodes)
  | old_node :: rest =>
      match unwrap_code old_node, last new_nodes with
      | ConditionalBreakNode addr condition target, Some prev_node =>
          match unwrap_code prev_node with
          | ConditionalBreakNode _ prev_condition _ =>
              let merged_condition :=
                simplify_condition (claripy_Or condition prev_condition) in
              merge_breaks_loop rest
                (removelast new_nodes
                 ++ [ConditionalBreakNode addr merged_condition target])
                true
          | _ => merge_breaks_loop rest (new_nodes ++ [old_node]) merged
          end
      | _, _ =>
          let r := handle (unwrap_code old_node) in
          merge_breaks_loop rest (new_nodes ++ [rewrap_code old_node (snd r)])
            (merged || fst r)
      end
  end.

End Handler.

(** The walk with handlers [{SequenceNode: _handle_SequenceNode}]. *)
Fixpoint merge_conditional_breaks_walk (n : node) : bool * node :=
  match n with
  | SequenceNode a ns =>
      let r := merge_breaks_loop merge_conditional_breaks_walk ns [] false in
      (fst r, SequenceNode a (snd r))
  | _ => walk_children_flag merge_conditional_breaks_walk n
  end.

(** [_merge_conditional_breaks(seq)], returning [(_Holder.merged, seq)]. *)
Definition merge_conditional_breaks (seq : node) : bool * node :=
  merge_conditional_breaks_walk seq.

End MergeConditionalBreaks.

Section MergeNestingConditionals.

Variable simplify_condition : cond -> cond.
Variable claripy_ast_from_ail_condition : condition -> cond.

(** [_condnode_truenode_only]: address, condition and true node of a
    condition node that has a true node and no false node. *)
Definition condnode_truenode_only (n : node) : option (option Z * condition * node) :=
  match unwrap_code n with
  | ConditionNode a _ c (Some t) None => Some (a, c, t)
  | _ => None
  end.

(** [_condbreaknode]: address, condition and target of a conditional
    break, looked for through one code node and through sequences of a
    single node. *)
Fixpoint condbreaknode (n : node) : option (Z * cond * Z) :=
  match n with
  | CodeNode (SequenceNode _ [x]) _ => condbreaknode x
  | CodeNode (ConditionalBreakNode a c t) _ => Some (a, c, t)
  | SequenceNode _ [x] => condbreaknode x
  | ConditionalBreakNode a c t => Some (a, c, t)
  | _ => None
  end.

Section Handler.

Variable handle : node -> bool * node.

(** One turn of the loop of [_handle_SequenceNode]: whether
    [_Holder.merged] is raised, and [seq_node.nodes[i]] afterwards. *)
Definition merge_nesting_at (this : node) : bool * node :=
  match condnode_truenode_only this with
  | Some (addr, condition, true_node) =>
      match condnode_truenode_only true_node with
      | Some (_, condition_inner, true_node_inner) =>
          let merged_cond :=
            simplify_condition
              (claripy_And (claripy_ast_from_ail_condition condition)
                           (claripy_ast_from_ail_condition condition_inner)) in
          (true, ConditionNode addr None (ClaripyCond merged_cond)
                   (Some true_node_inner) None)
      | None =>
          match condbreaknode true_node with
          | Some (addr_break, condition_break, target) =>
              let merged_cond :=
                simplify_condition
                  (claripy_And (claripy_ast_from_ail_condition condition)
                               (claripy_ast_from_ail_condition
                                  (ClaripyCond condition_break))) in
              (true, ConditionalBreakNode addr_break merged_cond target)
          | None => handle this
          end
      end
  | None => handle this
  end.

End Handler.

(** The walk with handlers [{SequenceNode: _handle_SequenceNode}]. *)
Fixpoint merge_nesting_conditionals_walk (n : node) : bool * node :=
  match n with
  | SequenceNode a ns =>
      let rs := map (merge_nesting_at merge_nesting_conditionals_walk) ns in
      (existsb fst rs, SequenceNode a (map snd rs))
  | _ => walk_children_flag merge_nesting_conditionals_walk n
  end.

(** [_merge_nesting_conditionals(seq)], returning [(_Holder.merged, seq)]. *)
Definition merge_nesting_conditionals (seq : node) : bool * node :=
  merge_nesting_conditionals_walk seq.

End MergeNestingConditionals.

(** ** Reordering switch cases: [StructurerBase._reorganize_switch_cases] *)

(** Case nodes are objects: the mapping holds references to them and the
    pass changes some of them in place.  A reference is an object identity,
    the heap gives the node behind each. *)
Definition ref : Type := nat.
Definition heap : Type := ref -> node.

Definition heap_set (h : heap) (r : ref) (n : node) : heap :=
  fun r' => if bool_decide (r' = r) then n else h r'.

Section Dicts.

Context {K V : Type} `{EqDecision K}.

(** [d[k] = v] on a dict or [OrderedDict]: a known key keeps its place. *)
Fixpoint dict_set (k : K) (v : V) (d : list (K * V)) : list (K * V) :=
  match d with
  | [] => [(k, v)]
  | (k', v') :: rest =>
      if bool_decide (k' = k) then (k', v) :: rest else (k', v') :: dict_set k v rest
  end.

(** [d.get(k)] *)
Fixpoint dict_get (k : K) (d : list (K * V)) : option V :=
  match d with
  | [] => None
  | (k', v') :: rest => if bool_decide (k' = k) then Some v' else dict_get k rest
  end.

End Dicts.

(** [addr2caseids[addr].append(idx)] on a [defaultdict(list)]. *)
Fixpoint defaultdict_append {K : Type} (addr : Z) (idx : K) (d : list (Z * list K))
  : list (Z * list K) :=
  match d with
  | [] => [(addr, [idx])]
  | (a, ids) :: rest =>
      if bool_decide (a = addr) then (a, ids ++ [idx]) :: rest
      else (a, ids) :: defaultdict_append addr idx rest
  end.

(** *** The part of [networkx.DiGraph] that is used

    Nodes and edges in the order they were added. *)
Section DiGraph.

Context {K : Type} `{EqDecision K}.

Record DiGraph : Type := mkDiGraph { g_nodes : list K; g_edges : list (K * K) }.

Definition empty_graph : DiGraph := mkDiGraph [] [].

(** [k in graph] *)
Definition has_node (g : DiGraph) (k : K) : bool := bool_decide (k ∈ g_nodes g).

Definition successors (g : DiGraph) (k : K) : list K :=
  map snd (filter (fun e => fst e = k) (g_edges g)).

Definition predecessors (g : DiGraph) (k : K) : list K :=
  map fst (filter (fun e => snd e = k) (g_edges g)).

Definition out_degree (g : DiGraph) (k : K) : nat := length (successors g k).
Definition in_degree (g : DiGraph) (k : K) : nat := length (predecessors g k).

Definition add_node (k : K) (ns : list K) : list K :=
  if bool_decide (k ∈ ns) then ns else ns ++ [k].

Definition add_edge (g : DiGraph) (u v : K) : DiGraph :=
  mkDiGraph (add_node v (add_node u (g_nodes g)))
    (if bool_decide ((u, v) ∈ g_edges g) then g_edges g else g_edges g ++ [(u, v)]).

Definition remove_edge (g : DiGraph) (u v : K) : DiGraph :=
  mkDiGraph (g_nodes g) (filter (fun e => e <> (u, v)) (g_edges g)).

(** [networkx.find_cycle(graph)] walks the edges depth first from each
    node in turn and stops at the first edge whose head is on the path
    walked so far; the cycle it returns starts at that head.  The graphs
    it is given here have at most one edge out of each node, so the walk
    from a node follows the one edge out of each node it reaches.
    [walk_to_cycle] is that walk, [active] the nodes of the path, and its
    result the node where the cycle starts. *)
Fixpoint walk_to_cycle (g : DiGraph) (fuel : nat) (cur : K) (active : list K) : option K :=
  match fuel with
  | O => None
  | S fuel' =>
      match successors g cur with
      | [] => None
      | head :: _ =>
          if bool_decide (head ∈ active) then Some head
          else walk_to_cycle g fuel' head (head :: active)
      end
  end.

(** [networkx.find_cycle(graph)[0]], or [None] for [NetworkXNoCycle]. *)
Definition find_cycle (g : DiGraph) : option (K * K) :=
  let start_of_cycle :=
    list_find (fun start => is_Some (walk_to_cycle g (length (g_nodes g)) start [start]))
      (g_nodes g) in
  match start_of_cycle with
  | Some (_, start) =>
      match walk_to_cycle g (length (g_nodes g)) start [start] with
      | Some final_node =>
          match successors g final_node with
          | head :: _ => Some (final_node, head)
          | [] => None
          end
      | None => None
      end
  | None => None
  end.

(** "just in case, we break loops": [while True] until [NetworkXNoCycle].
    [None] stands for a loop still running when [fuel] is used up. *)
Fixpoint break_loops (fuel : nat) (g : DiGraph) : option DiGraph :=
  match fuel with
  | O => None
  | S fuel' =>
      match find_cycle g with
      | None => Some g
      | Some (u, v) => break_loops fuel' (remove_edge g u v)
      end
  end.

(** [succs = networkx.dfs_successors(graph, idx)] followed by
    [while idx_ in succs: idx_ = succs[idx_][0]]: the nodes reached from
    [idx_] along the depth-first tree, which holds an edge only when its
    head was not visited before.  [None] when [fuel] is used up. *)
Fixpoint follow_successors (g : DiGraph) (fuel : nat) (idx_ : K) (visited : list K)
  : option (list K) :=
  match fuel with
  | O => None
  | S fuel' =>
      match successors g idx_ with
      | [] => Some []
      | head :: _ =>
          if bool_decide (head ∈ visited) then Some []
          else
            match follow_successors g fuel' head (head :: visited) with
            | Some chain => Some (head :: chain)
            | None => None
            end
      end
  end.

End DiGraph.

Arguments DiGraph K : clear implicits.

Section ReorganizeSwitchCases.

(** Case ids: [int | tuple[int, ...]]. *)
Context {K : Type} `{EqDecision K}.

(** [self.cond_proc.get_last_statement] and
    [ConditionProcessor.get_last_statements], [None] for [EmptyBlockNotice];
    [remove_last_statement] of decompiler/utils.py, as the node it leaves;
    the labels a [LabelCollector] finds in a node. *)
Variable get_last_statement : node -> option stmt.
Variable get_last_statements : node -> option (list stmt).
Variable remove_last_statement : node -> node.
Variable collect_labels : node -> list (Z * option Z).

(** [StructurerBase._remove_last_statement_if_jump_to_addr], as the node
    it leaves. *)
Definition remove_last_statement_if_jump_to_addr (n : node)
    (addr_and_ids : list (Z * option Z)) : node :=
  match get_last_statements n with
  | Some [last_stmt] =>
      let jump_targets :=
        match last_stmt with
        | Jump _ (Const _ v) target_idx _ => [(v, target_idx)]
        | Jump _ _ _ _ => []
        | ConditionalJump _ _ true_target false_target true_target_idx false_target_idx _ =>
            match true_target with Some (Const _ v) => [(v, true_target_idx)] | _ => [] end
            ++ match false_target with Some (Const _ v) => [(v, false_target_idx)] | _ => [] end
        | OtherStmt _ _ => []
        end in
      if existsb (fun tpl => bool_decide (tpl ∈ addr_and_ids)) jump_targets
      then remove_last_statement n
      else n
  | _ => n
  end.

(** "collect goto locations" *)
Fixpoint collect_gotos (h : heap) (cases : list (K * ref))
    (addr2caseids : list (Z * list K)) (caseid2gotoaddrs : list (K * Z))
  : result (list (Z * list K) * list (K * Z)) :=
  match cases with
  | [] => Ok (addr2caseids, caseid2gotoaddrs)
  | (idx, case_node) :: rest =>
      match node_addr (h case_node) with
      | None => Raise AssertionError
      | Some addr =>
          collect_gotos h rest
            (defaultdict_append addr idx addr2caseids)
            match get_last_statement (h case_node) with
            | Some (Jump _ (Const _ v) _ _) => dict_set idx v caseid2gotoaddrs
            | _ => caseid2gotoaddrs
            end
      end
  end.

(** One turn of the loop that builds the graph: "ensure each node has at
    most one successor and one predecessor". *)
Definition link_case (addr2caseids : list (Z * list K)) (graph : DiGraph K)
    (entry : K * Z) : DiGraph K :=
  match dict_get (snd entry) addr2caseids with
  | Some [successor_case_id] =>
      if (negb (has_node graph (fst entry)) || (out_degree graph (fst entry) =? 0)%nat)
         && (negb (has_node graph successor_case_id)
             || (in_degree graph successor_case_id =? 0)%nat)
      then add_edge graph (fst entry) successor_case_id
      else graph
  | _ => graph
  end.

Definition fallthrough_graph (addr2caseids : list (Z * list K))
    (caseid2gotoaddrs : list (K * Z)) : DiGraph K :=
  fold_left (link_case addr2caseids) caseid2gotoaddrs empty_graph.

(** "reshuffle case nodes", first loop: the cases outside the graph go to
    [new_cases], the cases without predecessor to [starting_case_ids]. *)
Fixpoint unlinked_and_starting (graph : DiGraph K) (cases new_cases : list (K * ref))
    (starting_case_ids : list K) : list (K * ref) * list K :=
  match cases with
  | [] => (new_cases, starting_case_ids)
  | (idx, case_node) :: rest =>
      if negb (has_node graph idx)
      then unlinked_and_starting graph rest (dict_set idx case_node new_cases)
             starting_case_ids
      else if (in_degree graph idx =? 0)%nat
      then unlinked_and_starting graph rest new_cases (starting_case_ids ++ [idx])
      else unlinked_and_starting graph rest new_cases starting_case_ids
  end.

(** [new_cases[idx_] = cases[idx_]] for each [idx_] of a chain. *)
Fixpoint add_chain (cases : list (K * ref)) (chain : list K) (new_cases : list (K * ref))
  : result (list (K * ref)) :=
  match chain with
  | [] => Ok new_cases
  | idx_ :: rest =>
      match dict_get idx_ cases with
      | Some case_node => add_chain cases rest (dict_set idx_ case_node new_cases)
      | None => Raise KeyError
      end
  end.

(** Second loop, over [starting_case_ids]. *)
Fixpoint emit_chains (graph : DiGraph K) (cases : list (K * ref))
    (case_label_addrs : list (Z * option Z)) (starting_case_ids : list K)
    (new_cases : list (K * ref)) (h : heap) : option (result (list (K * ref) * heap)) :=
  match starting_case_ids with
  | [] => Some (Ok (new_cases, h))
  | idx :: rest =>
      match dict_get idx cases with
      | None => Some (Raise KeyError)
      | Some case_node =>
          let new_cases := dict_set idx case_node new_cases in
          let h :=
            heap_set h case_node
              (remove_last_statement_if_jump_to_addr (h case_node) case_label_addrs) in
          match follow_successors graph (length (g_nodes graph)) idx [idx] with
          | None => None
          | Some chain =>
              match add_chain cases chain new_cases with
              | Ok new_cases => emit_chains graph cases case_label_addrs rest new_cases h
              | Raise e => Some (Raise e)
              end
          end
      end
  end.

(** [_reorganize_switch_cases(cases)]: the new mapping and the heap
    afterwards; [None] would be a run that does not end. *)
Definition reorganize_switch_cases (h : heap) (cases : list (K * ref))
  : option (result (list (K * ref) * heap)) :=
  match collect_gotos h cases [] [] with
  | Raise e => Some (Raise e)
  | Ok (addr2caseids, caseid2gotoaddrs) =>
      let graph := fallthrough_graph addr2caseids caseid2gotoaddrs in
      match g_nodes graph with
      | [] => Some (Ok (cases, h))
      | _ =>
          match break_loops (S (length (g_edges graph))) graph with
          | None => None
          | Some graph =>
              let '(new_cases, starting_case_ids) :=
                unlinked_and_starting graph cases [] [] in
              let case_label_addrs :=
                flat_map (fun kc => collect_labels (h (snd kc))) cases in
              match emit_chains graph cases case_label_addrs starting_case_ids
                      new_cases h with
              | Some (Ok (new_cases, h')) =>
                  if (length new_cases =? length cases)%nat
                  then Some (Ok (new_cases, h'))
                  else Some (Raise AssertionError)
              | other => other
              end
          end
      end
  end.

(** The graph of inferred fallthrough edges, before loops are broken. *)
Definition inferred_graph (h : heap) (cases : list (K * ref)) : DiGraph K :=
  match collect_gotos h cases [] [] with
  | Ok (addr2caseids, caseid2gotoaddrs) => fallthrough_graph addr2caseids caseid2gotoaddrs
  | Raise _ => empty_graph
  end.

End ReorganizeSwitchCases.

(** ** Removing jumps: [_remove_conditional_jumps] and [_remove_all_jumps] *)

(** [StructurerBase._remove_conditional_jumps_from_block] *)
Definition remove_conditional_jumps_from_block (block : node) : node :=
  match block with
  | Block a sz statements idx =>
      Block a sz (filter (fun stmt => is_ConditionalJump stmt = false) statements) idx
  | _ => block
  end.

(** The walk with handlers [{SequenceNode: _handle_Sequence, Block:
    _remove_conditional_jumps_from_block}] below the root: without
    [follow_seq] the handler of a sequence that is not [seq] returns at
    once. *)
Fixpoint remove_conditional_jumps_walk (follow_seq : bool) (n : node) : node :=
  match n with
  | Block _ _ _ _ => remove_conditional_jumps_from_block n
  | SequenceNode _ _ =>
      if follow_seq then walk_children (remove_conditional_jumps_walk follow_seq) n else n
  | _ => walk_children (remove_conditional_jumps_walk follow_seq) n
  end.

(** [_remove_conditional_jumps(seq, follow_seq)]; [node is not seq] fails
    for the root only. *)
Definition remove_conditional_jumps (seq : node) (follow_seq : bool) : node :=
  match seq with
  | SequenceNode _ _ => walk_children (remove_conditional_jumps_walk follow_seq) seq
  | _ => remove_conditional_jumps_walk follow_seq seq
  end.

(** The handler [_handle_Block] of [_remove_all_jumps]. *)
Definition remove_all_jumps_handle_Block (n : node) : node :=
  match n with
  | Block a sz statements idx =>
      match last statements with
      | Some (Jump _ (Const _ _) _ _) => Block a sz (removelast statements) idx
      | _ => n
      end
  | _ => n
  end.

(** [_remove_all_jumps(seq)]: the walk with handlers [{Block: _handle_Block}]. *)
Fixpoint remove_all_jumps (seq : node) : node :=
  match seq with
  | Block _ _ _ _ => remove_all_jumps_handle_Block seq
  | _ => walk_children remove_all_jumps seq
  end.

(** ** Merging two nodes: [StructurerBase._merge_nodes] *)

(** "fix the last block of node_0 and remove useless goto statements":
    what is done to the statements of [last_node], [next_addr] being
    [node_1.addr]. *)
Definition merge_nodes_fix_statements (next_addr : option Z) (statements : list stmt)
  : list stmt :=
  match last statements with
  | Some (Jump _ _ _ _) => removelast statements
  | Some (ConditionalJump idx condition true_target false_target
            true_target_idx false_target_idx ins_addr) =>
      if opt_const_is true_target next_addr
      then removelast statements
           ++ [ConditionalJump idx (UnaryOp None "Not" condition) false_target None
                 false_target_idx None ins_addr]
      else if opt_const_is false_target next_addr
      then removelast statements
           ++ [ConditionalJump idx condition true_target None
                 true_target_idx None ins_addr]
      else statements
  | _ => statements
  end.

(** [node_0] once its [last_node] is fixed: the last node of a sequence or
    of a [MultiNode], or [node_0] itself, when that is a block. *)
Definition merge_nodes_fix_last (next_addr : option Z) (node_0 : node) : node :=
  match node_0 with
  | SequenceNode a ns =>
      match last ns with
      | Some (Block ba sz statements idx) =>
          SequenceNode a
            (removelast ns ++ [Block ba sz (merge_nodes_fix_statements next_addr statements) idx])
      | _ => node_0
      end
  | MultiNode ns a i =>
      match last ns with
      | Some (Block ba sz statements idx) =>
          MultiNode
            (removelast ns ++ [Block ba sz (merge_nodes_fix_statements next_addr statements) idx])
            a i
      | _ => node_0
      end
  | Block a sz statements idx =>
      Block a sz (merge_nodes_fix_statements next_addr statements) idx
  | _ => node_0
  end.

(** [_merge_nodes(node_0, node_1)] *)
Definition merge_nodes (node_0 node_1 : node) : node :=
  let addr :=
    match node_addr node_0 with
    | Some a => Some a
    | None => node_addr node_1
    end in
  match merge_nodes_fix_last (node_addr node_1) node_0, node_1 with
  | SequenceNode _ nodes_0, SequenceNode _ nodes_1 => SequenceNode addr (nodes_0 ++ nodes_1)
  | SequenceNode _ nodes_0, _ => SequenceNode addr (nodes_0 ++ [node_1])
  | node_0', SequenceNode _ nodes_1 => SequenceNode addr (node_0' :: nodes_1)
  | node_0', _ => SequenceNode addr [node_0'; node_1]
  end.

(** ** Jump targets: [StructurerBase.is_a_jump_target] *)

Definition is_a_jump_target (stmt : stmt) (addr : Z) : bool :=
  match stmt with
  | ConditionalJump _ _ true_target false_target _ _ _ =>
      opt_const_is true_target (Some addr) || opt_const_is false_target (Some addr)
  | Jump _ target _ _ => const_is target (Some addr)
  | OtherStmt _ _ => false
  end.

(** ** Bookkeeping of sequences: [StructurerBase._update_new_sequences] *)

Section NewSequences.

(** Sequences are kept in a list, a set and a dict as objects; [S] is
    what tells one sequence object from another. *)
Context {S : Type} `{EqDecision S}.

(** A value of [replaced_sequences]: a [SequenceNode] or something else. *)
Inductive replacement : Type :=
| ReplacedBySequence (replaced : S)
| ReplacedByOther.

(** [_update_new_sequences(removed_sequences, replaced_sequences)], from
    [self._new_sequences] before to [self._new_sequences] after. *)
Definition update_new_sequences (new_sequences : list S) (removed_sequences : list S)
    (replaced_sequences : list (S * replacement)) : list S :=
  fold_left
    (fun new_sequences' new_seq_ =>
       if bool_decide (new_seq_ ∈ removed_sequences) then new_sequences'
       else
         match dict_get new_seq_ replaced_sequences with
         | Some (ReplacedBySequence replaced) => new_sequences' ++ [replaced]
         | Some ReplacedByOther => new_sequences'
         | None => new_sequences' ++ [new_seq_]
         end)
    new_sequences [].

End NewSequences.

Arguments replacement S : clear implicits.

(** ** Replacing a child: [StructurerBase.replace_node_in_node] *)

(** The children of [parent_node] are compared with [old_node] by identity
    ([is]), so a parent is given here by the references to its children:
    those of a sequence, the two branches of a condition node, the
    branches of a cascading condition node; any other parent is
    [OtherParent]. *)
Inductive parent_refs : Type :=
| SequenceParent (nodes : list ref)
| ConditionParent (true_node false_node : option ref)
| CascadingConditionParent (condition_and_nodes : list (condition * ref))
| OtherParent.

(** [for i in range(len(nodes)): if nodes[i] is old_node: nodes[i] = new_node; return] *)
Fixpoint replace_first (old_node new_node : ref) (nodes : list ref) : list ref :=
  match nodes with
  | [] => []
  | x :: rest =>
      if bool_decide (x = old_node) then new_node :: rest
      else x :: replace_first old_node new_node rest
  end.

Fixpoint replace_first_branch (old_node new_node : ref)
    (condition_and_nodes : list (condition * ref)) : list (condition * ref) :=
  match condition_and_nodes with
  | [] => []
  | (c, x) :: rest =>
      if bool_decide (x = old_node) then (c, new_node) :: rest
      else (c, x) :: replace_first_branch old_node new_node rest
  end.

Definition replace_node_in_node (parent_node : parent_refs) (old_node new_node : ref)
  : result parent_refs :=
  match parent_node with
  | SequenceParent nodes => Ok (SequenceParent (replace_first old_node new_node nodes))
  | ConditionParent true_node false_node =>
      if bool_decide (true_node = Some old_node)
      then Ok (ConditionParent (Some new_node) false_node)
      else if bool_decide (false_node = Some old_node)
      then Ok (ConditionParent true_node (Some new_node))
      else Ok parent_node
  | CascadingConditionParent condition_and_nodes =>
      Ok (CascadingConditionParent (replace_first_branch old_node new_node condition_and_nodes))
  | OtherParent => Raise TypeError
  end.

(** ** Replacing nodes of a region graph: [StructurerBase.replace_nodes] *)

Section ReplaceNodes.

(** [K] tells one node object from another; [D] are the attribute dicts
    of the edges, [empty_data] the dict [{}] and [update_data d attr] the
    dict [d] after [d.update(attr)]. *)
Context {K : Type} `{EqDecision K}.
Variable D : Type.
Variable empty_data : D.
Variable update_data : D -> D -> D.

(** The part of [networkx.DiGraph] that is used here: nodes and edges with
    their data, in the order they were added. *)
Record DataGraph : Type := mkDataGraph { dg_nodes : list K; dg_edges : list (K * K * D) }.

(** [list(graph.in_edges(n, data=True))] and [list(graph.out_edges(n, data=True))] *)
Definition dg_in_edges (g : DataGraph) (n : K) : list (K * K * D) :=
  filter (fun e => snd (fst e) = n) (dg_edges g).

Definition dg_out_edges (g : DataGraph) (n : K) : list (K * K * D) :=
  filter (fun e => fst (fst e) = n) (dg_edges g).

(** [graph.remove_node(n)]: the node and the edges at it. *)
Definition dg_remove_node (g : DataGraph) (n : K) : DataGraph :=
  mkDataGraph (filter (fun x => x <> n) (dg_nodes g))
    (filter (fun e => fst (fst e) <> n /\ snd (fst e) <> n) (dg_edges g)).

Definition dg_add_node (g : DataGraph) (n : K) : DataGraph :=
  mkDataGraph (add_node n (dg_nodes g)) (dg_edges g).

(** [graph.add_edge(u, v, **data)]: an edge that is there keeps its place
    and has its data updated. *)
Fixpoint add_or_update (u v : K) (data : D) (edges : list (K * K * D)) : list (K * K * D) :=
  match edges with
  | [] => [(u, v, update_data empty_data data)]
  | (u', v', d) :: rest =>
      if bool_decide (u' = u /\ v' = v) then (u', v', update_data d data) :: rest
      else (u', v', d) :: add_or_update u v data rest
  end.

Definition dg_add_edge (g : DataGraph) (u v : K) (data : D) : DataGraph :=
  mkDataGraph (add_node v (add_node u (dg_nodes g))) (add_or_update u v data (dg_edges g)).

(** [src is not old_node_0 and src is not old_node_1] *)
Definition is_neither (x old_node_0 : K) (old_node_1 : option K) : bool :=
  bool_decide (x <> old_node_0) && bool_decide (Some x <> old_node_1).

(** One turn of [for src, dst, data in in_edges]. *)
Definition relink_in_edge (old_node_0 new_node : K) (old_node_1 : option K) (self_loop : bool)
    (g : DataGraph) (e : K * K * D) : DataGraph :=
  let '(src, dst, data) := e in
  if is_neither src old_node_0 old_node_1 then dg_add_edge g src new_node data
  else if bool_decide (Some src = old_node_1) && bool_decide (dst = old_node_0) && self_loop
  then dg_add_edge g new_node new_node data
  else g.

(** One turn of [for src, dst, data in out_edges]. *)
Definition relink_out_edge (old_node_0 new_node : K) (old_node_1 : option K) (self_loop : bool)
    (g : DataGraph) (e : K * K * D) : DataGraph :=
  let '(src, dst, data) := e in
  if is_neither dst old_node_0 old_node_1 then dg_add_edge g new_node dst data
  else if bool_decide (Some src = old_node_1) && bool_decide (dst = old_node_0) && self_loop
  then dg_add_edge g new_node new_node data
  else g.

(** [replace_nodes(graph, old_node_0, new_node, old_node_1, self_loop)],
    from the graph before to the graph after; [None] when networkx raises
    [NetworkXError] because a node to look at or to remove is not in the
    graph. *)
Definition replace_nodes (graph : DataGraph) (old_node_0 new_node : K)
    (old_node_1 : option K) (self_loop : bool) : option DataGraph :=
  if bool_decide (old_node_0 ∈ dg_nodes graph) then
    let in_edges := dg_in_edges graph old_node_0 in
    let out_edges_0 := dg_out_edges graph old_node_0 in
    match old_node_1 with
    | Some n1 =>
        if bool_decide (n1 ∈ dg_nodes graph) then
          let out_edges := out_edges_0 ++ dg_out_edges graph n1 in
          let graph := dg_remove_node graph old_node_0 in
          if bool_decide (n1 ∈ dg_nodes graph) then
            let graph := dg_add_node (dg_remove_node graph n1) new_node in
            let graph :=
              fold_left (relink_in_edge old_node_0 new_node old_node_1 self_loop)
                in_edges graph in
            Some (fold_left (relink_out_edge old_node_0 new_node old_node_1 self_loop)
                    out_edges graph)
          else None
        else None
    | None =>
        let graph := dg_add_node (dg_remove_node graph old_node_0) new_node in
        let graph :=
          fold_left (relink_in_edge old_node_0 new_node old_node_1 self_loop)
            in_edges graph in
        Some (fold_left (relink_out_edge old_node_0 new_node old_node_1 self_loop)
                out_edges_0 graph)
    end
  else None.

End ReplaceNodes.

Arguments DataGraph K D : clear implicits.
Arguments mkDataGraph {K D} dg_nodes dg_edges.
Arguments dg_nodes {K D} _.
Arguments dg_edges {K D} _.

(** ** Copies without the last jump:
    [StructurerBase._copy_and_remove_last_statement_if_jump] *)

(** The copy that is returned; the node that is given stays as it is.  A
    node that is no sequence, no [MultiNode] and no block fails the
    [assert isinstance(node, ailment.Block)]. *)
Fixpoint copy_and_remove_last_statement_if_jump (n : node) : result node :=
  match n with
  | SequenceNode a ns =>
      match last ns with
      | Some (ConditionNode _ _ _ _ _) => Ok (SequenceNode a (removelast ns))
      | _ => Ok n
      end
  | MultiNode ns a i =>
      nodes <~ (fix with_last_block (ns : list node) : result (list node) :=
                  match ns with
                  | [] => Ok []
                  | [x] =>
                      last_block <~ copy_and_remove_last_statement_if_jump x ;;
                      Ok [last_block]
                  | x :: rest =>
                      rest' <~ with_last_block rest ;;
                      Ok (x :: rest')
                  end) ns ;;
      Ok (MultiNode nodes a i)
  | Block a sz statements idx =>
      match last statements with
      | Some s =>
          if is_jump_stmt s then Ok (Block a sz (removelast statements) idx) else Ok n
      | None => Ok n
      end
  | _ => Raise AssertionError
  end.

(** * Properties *)

(** A conversion and a simplifier to run the passes on concrete trees: the
    conversion names an AIL expression by a symbol, the simplifier folds
    double negations.  They are samples and stand for no part of the program:
    [ConditionProcessor] and claripy are outside the sources, and the theorems
    below hold for every conversion and every simplifier. *)
Definition sample_conversion (c : condition) : cond :=
  match c with
  | ClaripyCond c' => c'
  | AilCond (UnaryOp _ _ (OtherExpr _ tag)) => claripy_Not (BoolS tag)
  | AilCond (OtherExpr _ tag) => BoolS tag
  | AilCond _ => BoolS 0
  end.

Fixpoint fold_double_negations (c : cond) : cond :=
  match c with
  | claripy_Not (claripy_Not c') => fold_double_negations c'
  | claripy_Not c' => claripy_Not (fold_double_negations c')
  | claripy_And a b => claripy_And (fold_double_negations a) (fold_double_negations b)
  | claripy_Or a b => claripy_Or (fold_double_negations a) (fold_double_negations b)
  | _ => c
  end.

(** ** Break nodes *)

(** "The target lies in the loop-successor set": it is a constant whose
    value is in the set. *)
Definition target_in (t : option expr) (addrs : gset Z) : Prop :=
  match t with
  | Some (Const _ v) => v ∈ addrs
  | _ => False
  end.

(** A target that is absent or a constant address. *)
Definition absent_or_constant (t : option expr) : Prop :=
  match t with
  | None | Some (Const _ _) => True
  | _ => False
  end.

Lemma some_in_true v (addrs : gset Z) : v ∈ addrs -> some_in (Some v) addrs = true.
Proof. intros Hin. unfold some_in. by apply bool_decide_eq_true_2. Qed.

Lemma some_in_false v (addrs : gset Z) : v ∉ addrs -> some_in (Some v) addrs = false.
Proof. intros Hin. unfold some_in. by apply bool_decide_eq_false_2. Qed.

(** C1: a conditional jump with two constant targets becomes a conditional
    break on the condition and the true target when only the true target
    leaves the loop, a conditional break on the negated condition and the
    false target when only the false target leaves it, and a plain break to
    the false target when both leave it. *)
Theorem loop_create_break_node_two_constant_targets :
  forall (conv : condition -> cond) (succs : gset Z) idx c i1 v1 i2 v2 ti1 ti2 ins_addr,
    let stmt := ConditionalJump idx c (Some (Const i1 v1)) (Some (Const i2 v2))
                  ti1 ti2 ins_addr in
    (v1 ∈ succs -> v2 ∉ succs ->
     loop_create_break_node conv stmt succs
     = Ok (Some (ConditionalBreakNode ins_addr (conv (AilCond c)) v1)))
    /\ (v2 ∈ succs -> v1 ∉ succs ->
        loop_create_break_node conv stmt succs
        = Ok (Some (ConditionalBreakNode ins_addr
                      (conv (AilCond (UnaryOp (expr_idx c) "Not" c))) v2)))
    /\ (v1 ∈ succs -> v2 ∈ succs ->
        loop_create_break_node conv stmt succs = Ok (Some (BreakNode ins_addr v2))).
Proof.
  intros conv succs idx c i1 v1 i2 v2 ti1 ti2 ins_addr stmt.
  unfold stmt, loop_create_break_node; cbn [bind opt_value_of value_of].
  repeat split; intros H1 H2.
  - by rewrite (some_in_true _ _ H1), (some_in_false _ _ H2).
  - by rewrite (some_in_true _ _ H1), (some_in_false _ _ H2).
  - by rewrite (some_in_true _ _ H1), (some_in_true _ _ H2).
Qed.

Lemma loop_create_break_node_two_constant_targets_witness :
  loop_create_break_node sample_conversion
    (ConditionalJump None (OtherExpr (Some 3) 7) (Some (Const None 100))
       (Some (Const None 200)) None None 64) {[ 100 ]}
  = Ok (Some (ConditionalBreakNode 64 (BoolS 7) 100))
  /\ loop_create_break_node sample_conversion
       (ConditionalJump None (OtherExpr (Some 3) 7) (Some (Const None 100))
          (Some (Const None 200)) None None 64) {[ 200 ]}
     = Ok (Some (ConditionalBreakNode 64 (claripy_Not (BoolS 7)) 200))
  /\ loop_create_break_node sample_conversion
       (ConditionalJump None (OtherExpr (Some 3) 7) (Some (Const None 100))
          (Some (Const None 200)) None None 64) {[ 100; 200 ]}
     = Ok (Some (BreakNode 64 200)).
Proof.
  split; [|split].
  - apply (loop_create_break_node_two_constant_targets sample_conversion {[ 100 ]}
             None (OtherExpr (Some 3) 7) None 100 None 200 None None 64);
      [ apply (bool_decide_unpack _); vm_compute; exact I
      | apply (bool_decide_eq_false_1 _); vm_compute; reflexivity ].
  - apply (loop_create_break_node_two_constant_targets sample_conversion {[ 200 ]}
             None (OtherExpr (Some 3) 7) None 100 None 200 None None 64);
      [ apply (bool_decide_unpack _); vm_compute; exact I
      | apply (bool_decide_eq_false_1 _); vm_compute; reflexivity ].
  - apply (loop_create_break_node_two_constant_targets sample_conversion {[ 100; 200 ]}
             None (OtherExpr (Some 3) 7) None 100 None 200 None None 64);
      apply (bool_decide_unpack _); vm_compute; exact I.
Defined.

(** C2, as amended: a conditional jump whose targets are each absent or a
    constant address, neither of them in the loop-successor set, makes the
    operation raise the structuring error. *)
Theorem loop_create_break_node_no_exit_raises :
  forall (conv : condition -> cond) (succs : gset Z) idx c t1 t2 ti1 ti2 ins_addr,
    absent_or_constant t1 -> absent_or_constant t2 ->
    ~ target_in t1 succs -> ~ target_in t2 succs ->
    loop_create_break_node conv (ConditionalJump idx c t1 t2 ti1 ti2 ins_addr) succs
    = Raise (AngrDecompilationError
               "Unexpected: None of the branches is jumping to outside of the loop").
Proof.
  intros conv succs idx c t1 t2 ti1 ti2 ins_addr A1 A2 N1 N2.
  unfold loop_create_break_node.
  destruct t1 as [[i1 v1| | |]|], t2 as [[i2 v2| | |]|];
    cbn [absent_or_constant target_in] in *; try contradiction;
    cbn [bind opt_value_of value_of];
    rewrite ?(some_in_false _ _ N1), ?(some_in_false _ _ N2); reflexivity.
Qed.

Lemma loop_create_break_node_no_exit_raises_witness :
  loop_create_break_node sample_conversion
    (ConditionalJump None (OtherExpr None 7) (Some (Const None 100)) None None None 64)
    {[ 300 ]}
  = Raise (AngrDecompilationError
             "Unexpected: None of the branches is jumping to outside of the loop").
Proof.
  apply loop_create_break_node_no_exit_raises; simpl; try exact I.
  - apply (bool_decide_eq_false_1 _); vm_compute; reflexivity.
  - intros [].
Defined.

(** C2, as stated, fails: a conditional jump whose true target is no
    constant has neither target in the loop-successor set, and reading the
    value of that target raises [AttributeError], not the structuring error. *)
Lemma loop_create_break_node_no_exit_counterexample :
  ~ target_in (Some (OtherExpr None 8)) ∅
  /\ ~ target_in None ∅
  /\ loop_create_break_node sample_conversion
       (ConditionalJump None (OtherExpr None 7) (Some (OtherExpr None 8)) None
          None None 64) ∅
     = Raise AttributeError
  /\ forall msg,
       loop_create_break_node sample_conversion
         (ConditionalJump None (OtherExpr None 7) (Some (OtherExpr None 8)) None
            None None 64) ∅
       <> Raise (AngrDecompilationError msg).
Proof.
  split; [intros [] | split; [intros [] | split]].
  - reflexivity.
  - intros msg Habs. discriminate Habs.
Qed.

(** ** Switch-end address *)

(** The targets a block contributes: those of its last statement when that
    is a jump. *)
Definition trailing_goto_targets (b : node) : list Z :=
  match b with
  | Block _ _ statements _ =>
      match last statements with
      | Some stmt => if is_Jump stmt then extract_jump_targets stmt else []
      | None => []
      end
  | _ => []
  end.

(** The case bodies, then the default body. *)
Definition switch_bodies (cases : list (Z * node)) (default : option node) : list node :=
  map snd cases ++ match default with Some d => [d] | None => [] end.

(** The goto targets of the bodies that lie outside the switch, one entry
    for each goto. *)
Definition candidate_gotos (cases : list (Z * node)) (default : option node) : list Z :=
  filter (fun t => within_switch cases default t = false)
    (flat_map trailing_goto_targets (flat_map walked_blocks (switch_bodies cases default))).

(** How often [t] occurs in [l]. *)
Definition times (t : Z) (l : list Z) : nat := length (filter (fun x => x = t) l).

Definition tally (l : list Z) (d : list (Z * nat)) : list (Z * nat) :=
  fold_left (fun acc t => defaultdict_incr t acc) l d.

Fixpoint count_of (t : Z) (d : list (Z * nat)) : nat :=
  match d with
  | [] => 0
  | (k, c) :: rest => if bool_decide (k = t) then c else count_of t rest
  end.

Lemma count_of_incr_same t d : count_of t (defaultdict_incr t d) = S (count_of t d).
Proof.
  induction d as [|[k c] d IH]; simpl.
  - by rewrite bool_decide_eq_true_2.
  - destruct (bool_decide (k = t)) eqn:E; simpl; rewrite E.
    + done.
    + apply IH.
Qed.

Lemma count_of_incr_other t k d : k <> t -> count_of k (defaultdict_incr t d) = count_of k d.
Proof.
  intros Hne. induction d as [|[k' c] d IH]; simpl.
  - by rewrite bool_decide_eq_false_2.
  - destruct (bool_decide (k' = t)) eqn:E; simpl.
    + apply bool_decide_eq_true_1 in E. subst k'.
      by rewrite bool_decide_eq_false_2 by (intros ->; done).
    + by rewrite IH.
Qed.

Lemma keys_incr t d k :
  k ∈ map fst (defaultdict_incr t d) <-> k = t \/ k ∈ map fst d.
Proof.
  induction d as [|[k' c] d IH]; simpl.
  - rewrite list_elem_of_singleton. set_solver.
  - destruct (bool_decide (k' = t)) eqn:E; simpl.
    + apply bool_decide_eq_true_1 in E. subst. set_solver.
    + set_solver.
Qed.

Lemma NoDup_keys_incr t d :
  NoDup (map fst d) -> NoDup (map fst (defaultdict_incr t d)).
Proof.
  induction d as [|[k c] d IH]; simpl; intros Hnd.
  - apply NoDup_singleton.
  - destruct (bool_decide (k = t)) eqn:E; simpl; [done|].
    apply bool_decide_eq_false_1 in E.
    inversion Hnd as [|? ? Hnotin Hnd']; subst.
    constructor; [|by apply IH].
    rewrite keys_incr. intros [->|Hin]; [done | by apply Hnotin].
Qed.

Lemma count_of_entry d k c :
  NoDup (map fst d) -> (k, c) ∈ d -> count_of k d = c.
Proof.
  induction d as [|[k' c'] d IH]; simpl; intros Hnd Hin.
  - by apply elem_of_nil in Hin.
  - inversion Hnd as [|? ? Hnotin Hnd']; subst.
    apply elem_of_cons in Hin as [Heq|Hin].
    + inversion Heq; subst. by rewrite bool_decide_eq_true_2.
    + rewrite bool_decide_eq_false_2; [by apply IH|].
      intros ->. apply Hnotin. apply list_elem_of_fmap. by exists (k, c).
Qed.

Lemma times_snoc_same t l : times t (l ++ [t]) = S (times t l).
Proof.
  unfold times. rewrite filter_app, length_app. simpl.
  rewrite filter_cons_True by done. simpl. lia.
Qed.

Lemma times_snoc_other t k l : k <> t -> times k (l ++ [t]) = times k l.
Proof.
  intros Hne. unfold times. rewrite filter_app, length_app.
  rewrite filter_cons_False by (intros ->; done). simpl. lia.
Qed.

Lemma times_pos t l : t ∈ l -> (0 < times t l)%nat.
Proof.
  intros Hin. unfold times.
  assert (Hf : t ∈ filter (fun x => x = t) l) by (by apply list_elem_of_filter).
  destruct (filter (fun x => x = t) l); [by apply elem_of_nil in Hf | simpl; lia].
Qed.

(** What the dictionary holds after the gotos of [l] were counted. *)
Lemma tally_spec l :
  NoDup (map fst (tally l []))
  /\ (forall k, k ∈ map fst (tally l []) <-> k ∈ l)
  /\ (forall k, count_of k (tally l []) = times k l).
Proof.
  induction l as [|t l IH] using rev_ind.
  - repeat split; [apply NoDup_nil_2 | ..]; simpl; try done.
  - destruct IH as (Hnd & Hkeys & Hcount).
    unfold tally in *. rewrite fold_left_app. simpl.
    repeat split.
    + by apply NoDup_keys_incr.
    + intros Hin. apply keys_incr in Hin. rewrite elem_of_app, list_elem_of_singleton.
      destruct Hin as [->|Hin]; [by right | left; by apply Hkeys].
    + intros Hin. apply keys_incr. apply elem_of_app in Hin as [Hin|Hin].
      * right. by apply Hkeys.
      * left. by apply list_elem_of_singleton in Hin.
    + intros k. destruct (decide (k = t)) as [->|Hne].
      * by rewrite count_of_incr_same, times_snoc_same, Hcount.
      * by rewrite count_of_incr_other, times_snoc_other, Hcount.
Qed.

Lemma fold_left_keep_if {A B : Type} (keep : B -> bool) (step : A -> B -> A) l (acc : A) :
  fold_left (fun acc t => if keep t then acc else step acc t) l acc
  = fold_left step (filter (fun t => keep t = false) l) acc.
Proof.
  revert acc. induction l as [|t l IH]; intros acc; simpl; [done|].
  destruct (keep t) eqn:E.
  - rewrite filter_cons_False by (rewrite E; done). apply IH.
  - rewrite filter_cons_True by done. simpl. apply IH.
Qed.

Lemma find_gotos_tally cases default d b :
  find_gotos cases default d b
  = tally (filter (fun t => within_switch cases default t = false)
             (trailing_goto_targets b)) d.
Proof.
  unfold find_gotos, trailing_goto_targets, tally.
  destruct b; try done.
  destruct (last statements) as [stmt|]; [|done].
  destruct (is_Jump stmt); [|done].
  apply (fold_left_keep_if (within_switch cases default)
           (fun acc t => defaultdict_incr t acc)).
Qed.

Lemma fold_find_gotos_tally cases default blocks d :
  fold_left (find_gotos cases default) blocks d
  = tally (filter (fun t => within_switch cases default t = false)
             (flat_map trailing_goto_targets blocks)) d.
Proof.
  revert d. induction blocks as [|b blocks IH]; intros d; simpl; [done|].
  rewrite IH, find_gotos_tally, filter_app. unfold tally. by rewrite fold_left_app.
Qed.

Lemma fold_walks_tally cases default roots d :
  fold_left (fun acc root => fold_left (find_gotos cases default) (walked_blocks root) acc)
    roots d
  = tally (filter (fun t => within_switch cases default t = false)
             (flat_map trailing_goto_targets (flat_map walked_blocks roots))) d.
Proof.
  revert d. induction roots as [|r roots IH]; intros d; simpl; [done|].
  rewrite IH, fold_find_gotos_tally, flat_map_app, filter_app.
  unfold tally. by rewrite fold_left_app.
Qed.

(** The dictionary [goto_addrs] once all bodies were walked. *)
Definition goto_addrs_of (cases : list (Z * node)) (default : option node) : list (Z * nat) :=
  tally (candidate_gotos cases default) [].

Lemma switch_find_switch_end_addr_unfold cases default region_node_addrs :
  switch_find_switch_end_addr cases default region_node_addrs
  = match goto_addrs_of cases default with
    | [] => None
    | _ =>
        match sorted_by_count_desc
                (if (1 <? length (goto_addrs_of cases default))%nat
                    && existsb (fun at_ => bool_decide (fst at_ ∈ region_node_addrs))
                         (goto_addrs_of cases default)
                 then filter (fun at_ => fst at_ ∈ region_node_addrs)
                        (goto_addrs_of cases default)
                 else goto_addrs_of cases default) with
        | (a, _) :: _ => Some a
        | [] => None
        end
    end.
Proof.
  unfold switch_find_switch_end_addr, goto_addrs_of, candidate_gotos, switch_bodies.
  assert (Heq :
    match default with
    | Some d =>
        fold_left (find_gotos cases default) (walked_blocks d)
          (fold_left
             (fun acc root => fold_left (find_gotos cases default) (walked_blocks root) acc)
             (map snd cases) [])
    | None =>
        fold_left
          (fun acc root => fold_left (find_gotos cases default) (walked_blocks root) acc)
          (map snd cases) []
    end
    = tally (filter (fun t => within_switch cases default t = false)
               (flat_map trailing_goto_targets
                  (flat_map walked_blocks
                     (map snd cases ++ match default with Some d => [d] | None => [] end))))
        []).
  { destruct default as [d|].
    - rewrite fold_walks_tally, fold_find_gotos_tally.
      rewrite !flat_map_app, !filter_app. simpl. rewrite app_nil_r.
      unfold tally. by rewrite fold_left_app.
    - rewrite fold_walks_tally. by rewrite app_nil_r. }
  cbv zeta. rewrite Heq. reflexivity.
Qed.

(** The head of the sorted items is the first of the items with the largest
    count: the items before it have a smaller count, the items after it a
    count that is not larger. *)
Lemma sorted_by_count_desc_head (l : list (Z * nat)) :
  l <> [] ->
  exists a c rest before later,
    sorted_by_count_desc l = (a, c) :: rest
    /\ l = before ++ (a, c) :: later
    /\ (forall x, x ∈ before -> (snd x < c)%nat)
    /\ (forall x, x ∈ later -> (snd x <= c)%nat).
Proof.
  induction l as [|[x cx] l IH]; [done|]. intros _.
  destruct l as [|y l'].
  - exists x, cx, [], [], []. simpl. split; [done|]. split; [done|].
    split; intros z Hz; by apply elem_of_nil in Hz.
  - destruct IH as (a & c & rest & before & later & Hs & Hl & Hbefore & Hlater); [done|].
    change (sorted_by_count_desc ((x, cx) :: y :: l'))
      with (insert_by_count (x, cx) (sorted_by_count_desc (y :: l'))).
    rewrite Hs. simpl.
    destruct (c <=? cx)%nat eqn:E.
    + apply Nat.leb_le in E. exists x, cx, ((a, c) :: rest), [], (y :: l').
      split; [done|]. split; [done|]. split.
      * intros z Hz. by apply elem_of_nil in Hz.
      * intros z Hz. rewrite Hl in Hz.
        apply elem_of_app in Hz as [Hz|Hz].
        -- specialize (Hbefore z Hz). lia.
        -- apply elem_of_cons in Hz as [->|Hz]; [simpl; lia|].
           specialize (Hlater z Hz). lia.
    + apply Nat.leb_gt in E.
      exists a, c, (insert_by_count (x, cx) rest), ((x, cx) :: before), later.
      split; [done|]. split; [by rewrite Hl|]. split; [|done].
      intros z Hz. apply elem_of_cons in Hz as [->|Hz]; [simpl; lia|].
      by apply Hbefore.
Qed.

(** "More than one candidate target exists and at least one candidate is
    the address of a node of the region." *)
Definition restricted_to_region (cands : list Z) (region_node_addrs : gset Z) : Prop :=
  (exists t1 t2, t1 ∈ cands /\ t2 ∈ cands /\ t1 <> t2)
  /\ (exists t, t ∈ cands /\ t ∈ region_node_addrs).

Lemma key_has_entry (d : list (Z * nat)) k :
  NoDup (map fst d) -> k ∈ map fst d -> (k, count_of k d) ∈ d.
Proof.
  intros Hnd Hin. apply list_elem_of_fmap in Hin as ([k' c] & -> & Hin). simpl.
  by rewrite (count_of_entry d k' c Hnd Hin).
Qed.

Lemma restricting_test cands region_node_addrs :
  (1 <? length (tally cands []))%nat
  && existsb (fun at_ => bool_decide (fst at_ ∈ region_node_addrs)) (tally cands []) = true
  <-> restricted_to_region cands region_node_addrs.
Proof.
  destruct (tally_spec cands) as (Hnd & Hkeys & Hcount).
  rewrite andb_true_iff, Nat.ltb_lt, existsb_exists. unfold restricted_to_region.
  split; intros [H1 H2]; split.
  - destruct (tally cands []) as [|[k1 c1] [|[k2 c2] d]] eqn:E; simpl in H1; try lia.
    exists k1, k2. repeat split.
    + apply Hkeys. simpl. set_solver.
    + apply Hkeys. simpl. set_solver.
    + simpl in Hnd. inversion Hnd as [|? ? Hnotin _]; subst.
      intros ->. apply Hnotin. set_solver.
  - destruct H2 as ([k c] & Hin & Hreg). exists k. split.
    + apply Hkeys. apply list_elem_of_fmap. exists (k, c). split; [done|].
      by apply list_elem_of_In.
    + by apply bool_decide_eq_true_1 in Hreg.
  - destruct H1 as (t1 & t2 & Hin1 & Hin2 & Hne).
    apply Hkeys in Hin1, Hin2.
    destruct (tally cands []) as [|[k1 c1] [|[k2 c2] d]]; simpl in *.
    + by apply elem_of_nil in Hin1.
    + apply list_elem_of_singleton in Hin1, Hin2. congruence.
    + lia.
  - destruct H2 as (t & Hin & Hreg). apply Hkeys in Hin.
    exists (t, count_of t (tally cands [])). split.
    + apply list_elem_of_In. by apply key_has_entry.
    + by apply bool_decide_eq_true_2.
Qed.

(** A goto to a target met for the first time adds its key at the end of
    the dictionary; the keys that are there keep their places. *)
Lemma keys_incr_order t d :
  map fst (defaultdict_incr t d)
  = map fst d ++ (if bool_decide (t ∈ map fst d) then [] else [t]).
Proof.
  induction d as [|[k c] d IH].
  - cbn [defaultdict_incr map fst app].
    rewrite bool_decide_eq_false_2; [done|]. apply not_elem_of_nil.
  - cbn [defaultdict_incr]. destruct (bool_decide (k = t)) eqn:E; cbn [map fst].
    + apply bool_decide_eq_true_1 in E. subst k.
      rewrite bool_decide_eq_true_2 by set_solver. by rewrite app_nil_r.
    + apply bool_decide_eq_false_1 in E. rewrite IH. cbn [app]. f_equal. f_equal.
      rewrite (bool_decide_ext (t ∈ k :: map fst d) (t ∈ map fst d)); [done|].
      rewrite elem_of_cons. split; [|tauto].
      intros [->|Hin]; [done|exact Hin].
Qed.

Lemma keys_tally_prefix l d :
  exists extra, map fst (tally l d) = map fst d ++ extra.
Proof.
  revert d. induction l as [|t l IH]; intros d.
  - exists []. simpl. by rewrite app_nil_r.
  - destruct (IH (defaultdict_incr t d)) as [extra Hx].
    change (tally (t :: l) d) with (tally l (defaultdict_incr t d)).
    rewrite Hx, keys_incr_order, <- app_assoc. by eexists.
Qed.

(** The keys of the dictionary stand in the order in which the targets
    were first met. *)
Lemma keys_tally_first_met met t later :
  t ∉ met ->
  exists extra,
    map fst (tally (met ++ t :: later) []) = map fst (tally met []) ++ t :: extra.
Proof.
  intros Hnotin.
  assert (Hsplit : tally (met ++ t :: later) []
                   = tally later (defaultdict_incr t (tally met []))).
  { unfold tally. by rewrite fold_left_app. }
  destruct (keys_tally_prefix later (defaultdict_incr t (tally met []))) as [extra Hx].
  exists extra. rewrite Hsplit, Hx, keys_incr_order.
  rewrite bool_decide_eq_false_2; [by rewrite <- app_assoc|].
  intros Hin. apply Hnotin. by apply (tally_spec met).
Qed.

Lemma NoDup_split_unique {A : Type} (l1 l2 l1' l2' : list A) x :
  NoDup (l1 ++ x :: l2) -> l1 ++ x :: l2 = l1' ++ x :: l2' -> l1 = l1'.
Proof.
  revert l1'. induction l1 as [|a l1 IH]; intros l1' Hnd Heq.
  - destruct l1' as [|y l1']; [done|]. simpl in *.
    injection Heq as <- ->. inversion Hnd as [|? ? Hnotin _]; subst.
    exfalso. apply Hnotin. set_solver.
  - destruct l1' as [|y l1']; simpl in *.
    + injection Heq as -> _. inversion Hnd as [|? ? Hnotin _]; subst.
      exfalso. apply Hnotin. set_solver.
    + injection Heq as <- Heq. inversion Hnd as [|? ? _ Hnd']; subst.
      f_equal. by apply IH.
Qed.

Lemma filter_split {A : Type} (P : A -> Prop) `{forall x, Decision (P x)}
    (l l1' l2' : list A) x :
  filter P l = l1' ++ x :: l2' ->
  exists l1 l2, l = l1 ++ x :: l2 /\ filter P l1 = l1' /\ filter P l2 = l2'.
Proof.
  revert l1'. induction l as [|a l IH]; intros l1' Heq.
  - by destruct l1'.
  - destruct (decide (P a)) as [Ha|Ha].
    + rewrite filter_cons_True in Heq by done.
      destruct l1' as [|y l1']; simpl in Heq.
      * injection Heq as -> Heq. by exists [], l.
      * injection Heq as -> Heq. destruct (IH _ Heq) as (l1 & l2 & -> & <- & <-).
        exists (y :: l1), l2. split; [done|]. split; [|done].
        by rewrite filter_cons_True.
    + rewrite filter_cons_False in Heq by done.
      destruct (IH _ Heq) as (l1 & l2 & -> & <- & <-).
      exists (a :: l1), l2. split; [done|]. split; [|done].
      by rewrite filter_cons_False.
Qed.

Lemma filter_all {A : Type} (l : list A) : filter (fun _ => True) l = l.
Proof.
  induction l as [|a l IH]; [done|]. rewrite filter_cons_True by done. by rewrite IH.
Qed.

(** The head of the sorted items, among the targets that satisfy [P]: the
    first met of the most frequent ones. *)
Lemma first_most_frequent (cands : list Z) (P : Z -> Prop) `{forall t, Decision (P t)} :
  filter (fun at_ => P (fst at_)) (tally cands []) <> [] ->
  exists a c rest,
    sorted_by_count_desc (filter (fun at_ => P (fst at_)) (tally cands [])) = (a, c) :: rest
    /\ a ∈ cands
    /\ P a
    /\ (forall t', t' ∈ cands -> P t' -> (times t' cands <= times a cands)%nat)
    /\ exists met later,
         cands = met ++ a :: later
         /\ a ∉ met
         /\ forall t', t' ∈ met -> P t' -> (times t' cands < times a cands)%nat.
Proof.
  intros Hf.
  destruct (tally_spec cands) as (Hnd & Hkeys & Hcount).
  destruct (sorted_by_count_desc_head _ Hf)
    as (a & c & rest & before & later & Hs & Hl & Hbefore & Hlater).
  exists a, c, rest. split; [done|].
  assert (Hin : (a, c) ∈ filter (fun at_ => P (fst at_)) (tally cands [])).
  { rewrite Hl. set_solver. }
  apply list_elem_of_filter in Hin as [HP Hin]. simpl in HP.
  assert (Hc : c = times a cands).
  { rewrite <- Hcount. symmetry. by apply count_of_entry. }
  assert (Ha : a ∈ cands).
  { apply Hkeys. apply list_elem_of_fmap. by exists (a, c). }
  split; [done|]. split; [done|]. split.
  - intros t' Hin' HP'.
    apply Hkeys in Hin'. apply (key_has_entry _ _ Hnd) in Hin'. rewrite Hcount in Hin'.
    assert (Hf' : (t', times t' cands) ∈ filter (fun at_ => P (fst at_)) (tally cands [])).
    { apply list_elem_of_filter. by split. }
    rewrite Hl in Hf'. rewrite <- Hc.
    apply elem_of_app in Hf' as [Hf'|Hf'].
    + specialize (Hbefore _ Hf'). simpl in Hbefore. lia.
    + apply elem_of_cons in Hf' as [Heq|Hf'].
      * injection Heq as _ ->. lia.
      * specialize (Hlater _ Hf'). simpl in Hlater. lia.
  - destruct (list_elem_of_split_l cands a Ha) as (met & lat & Hsplit & Hnotin).
    exists met, lat. split; [done|]. split; [done|].
    intros t' Hin' HP'.
    destruct (filter_split _ _ _ _ _ Hl) as (b0 & l0 & Hd & Hfb & Hfl).
    destruct (keys_tally_first_met met a lat Hnotin) as (extra & Hk).
    rewrite <- Hsplit in Hk.
    assert (Hb0 : map fst b0 = map fst (tally met [])).
    { apply (NoDup_split_unique _ (map fst l0) _ extra a).
      - rewrite Hd in Hnd. by rewrite map_app in Hnd.
      - rewrite <- Hk, Hd. by rewrite map_app. }
    assert (Hkey : t' ∈ map fst b0).
    { rewrite Hb0. by apply (tally_spec met). }
    apply list_elem_of_fmap in Hkey as ([k c'] & -> & Hkc). simpl in *.
    assert (Hc' : c' = times k cands).
    { rewrite <- Hcount. symmetry. apply count_of_entry; [done|].
      rewrite Hd. set_solver. }
    assert (Hfk : (k, c') ∈ filter (fun at_ => P (fst at_)) b0).
    { apply list_elem_of_filter. by split. }
    rewrite Hfb in Hfk. specialize (Hbefore _ Hfk). simpl in Hbefore. lia.
Qed.

(** C3: no goto left in any body gives [None]; otherwise the result is a
    candidate with the most gotos, among the candidates that are addresses of
    region nodes when there is more than one candidate and at least one of
    them is such an address, among all candidates otherwise; and of several
    such candidates with the most gotos it is the one whose first goto is
    met first in the walk over the case bodies and the default body. *)
Theorem switch_find_switch_end_addr_most_frequent :
  forall (cases : list (Z * node)) (default : option node) (region_node_addrs : gset Z),
    (candidate_gotos cases default = [] ->
     switch_find_switch_end_addr cases default region_node_addrs = None)
    /\ (candidate_gotos cases default <> [] ->
        exists t,
          switch_find_switch_end_addr cases default region_node_addrs = Some t
          /\ t ∈ candidate_gotos cases default
          /\ (restricted_to_region (candidate_gotos cases default) region_node_addrs ->
              t ∈ region_node_addrs)
          /\ (forall t',
               t' ∈ candidate_gotos cases default ->
               (restricted_to_region (candidate_gotos cases default) region_node_addrs ->
                t' ∈ region_node_addrs) ->
               (times t' (candidate_gotos cases default)
                <= times t (candidate_gotos cases default))%nat)
          /\ exists met later,
               candidate_gotos cases default = met ++ t :: later
               /\ t ∉ met
               /\ forall t',
                    t' ∈ met ->
                    (restricted_to_region (candidate_gotos cases default)
                       region_node_addrs -> t' ∈ region_node_addrs) ->
                    (times t' (candidate_gotos cases default)
                     < times t (candidate_gotos cases default))%nat).
Proof.
  intros cases default region_node_addrs.
  rewrite switch_find_switch_end_addr_unfold. unfold goto_addrs_of.
  set (cands := candidate_gotos cases default).
  destruct (tally_spec cands) as (Hnd & Hkeys & Hcount).
  pose proof (restricting_test cands region_node_addrs) as Htest.
  split.
  - intros ->. reflexivity.
  - intros Hne.
    assert (Hd : tally cands [] <> []).
    { destruct cands as [|t0 l]; [done|].
      assert (Hin : t0 ∈ map fst (tally (t0 :: l) [])) by (apply Hkeys; set_solver).
      intros E. rewrite E in Hin. by apply elem_of_nil in Hin. }
    destruct (tally cands []) as [|e d] eqn:Ed; [done|]. rewrite <- Ed in *.
    destruct ((1 <? length (tally cands []))%nat
              && existsb (fun at_ => bool_decide (fst at_ ∈ region_node_addrs))
                   (tally cands [])) eqn:Eb.
    + assert (Hr : restricted_to_region cands region_node_addrs) by (by apply Htest).
      assert (Hf : filter (fun at_ => fst at_ ∈ region_node_addrs) (tally cands []) <> []).
      { destruct Hr as [_ (t & Hin & Hreg)]. apply Hkeys in Hin.
        apply (key_has_entry _ _ Hnd) in Hin.
        intros E.
        eapply (filter_nil_not_elem_of _ _ _ E); [|exact Hin]. done. }
      destruct (first_most_frequent cands (fun t => t ∈ region_node_addrs) Hf)
        as (a & c & rest & Hs & Ha & Hreg & Hmax & met & later & Hsplit & Hnotin & Hfirst).
      rewrite Hs. exists a.
      split; [done|]. split; [done|]. split; [done|]. split.
      * intros t' Hin' Hreg'. apply Hmax; [done|]. by apply Hreg'.
      * exists met, later. split; [done|]. split; [done|].
        intros t' Hin' Hreg'. apply Hfirst; [done|]. by apply Hreg'.
    + assert (Hr : ~ restricted_to_region cands region_node_addrs).
      { intros Hr. apply Htest in Hr. congruence. }
      assert (Hf : filter (fun at_ : Z * nat => (fun _ : Z => True) (fst at_))
                     (tally cands []) <> []).
      { by rewrite (filter_all (tally cands [])). }
      destruct (first_most_frequent cands (fun _ => True) Hf)
        as (a & c & rest & Hs & Ha & _ & Hmax & met & later & Hsplit & Hnotin & Hfirst).
      rewrite (filter_all (tally cands [])) in Hs.
      rewrite Hs. exists a.
      split; [done|]. split; [done|]. split; [intros Hr'; contradiction|]. split.
      * intros t' Hin' _. by apply Hmax.
      * exists met, later. split; [done|]. split; [done|].
        intros t' Hin' _. by apply Hfirst.
Qed.

(** Three cases and a default that all end in a goto to 0x2000, with no
    other node of the region at 0x2000. *)
Definition goto_block (addr target : Z) : node :=
  Block addr 4 [OtherStmt None addr; Jump None (Const None target) None (addr + 2)] None.

Definition three_cases : list (Z * node) :=
  [(4096, SequenceNode (Some 4096) [goto_block 4096 8192]);
   (4112, SequenceNode (Some 4112) [goto_block 4112 8192]);
   (4128, SequenceNode (Some 4128) [goto_block 4128 8192])].

Example switch_end_of_three_cases :
  switch_find_switch_end_addr three_cases (Some (goto_block 4144 8192)) {[ 4000 ]}
  = Some 8192.
Proof. vm_compute. reflexivity. Qed.

(** Four cases and a default: one goto to 0x2000, two to 0x3000 and two to
    0x4000. *)
Definition five_gotos : list (Z * node) :=
  [(4096, SequenceNode (Some 4096) [goto_block 4096 8192]);
   (4112, SequenceNode (Some 4112) [goto_block 4112 12288]);
   (4128, SequenceNode (Some 4128) [goto_block 4128 12288]);
   (4144, SequenceNode (Some 4144) [goto_block 4144 16384])].

(** With no candidate among the addresses of the region, the more frequent
    targets win over 0x2000, and of the two that are met twice the one met
    first. *)
Example switch_end_first_met_of_the_most_frequent :
  candidate_gotos five_gotos (Some (goto_block 4160 16384))
  = [8192; 12288; 12288; 16384; 16384]
  /\ switch_find_switch_end_addr five_gotos (Some (goto_block 4160 16384)) {[ 4000 ]}
     = Some 12288.
Proof. split; vm_compute; reflexivity. Qed.

(** With 0x2000 and 0x4000 among the addresses of the region, 0x3000 is left
    out and 0x4000 has more gotos than 0x2000. *)
Example switch_end_within_region :
  switch_find_switch_end_addr five_gotos (Some (goto_block 4160 16384))
    {[ 8192; 16384 ]}
  = Some 16384.
Proof. vm_compute. reflexivity. Qed.

(** Two cases with one goto each: the target met first. *)
Example switch_end_of_a_tie :
  switch_find_switch_end_addr
    [(1, goto_block 16 100); (2, goto_block 32 200)] None ∅
  = Some 100.
Proof. vm_compute. reflexivity. Qed.

Lemma switch_find_switch_end_addr_most_frequent_witness :
  exists t,
    switch_find_switch_end_addr five_gotos (Some (goto_block 4160 16384))
      {[ 8192; 16384 ]} = Some t
    /\ t ∈ candidate_gotos five_gotos (Some (goto_block 4160 16384))
    /\ (restricted_to_region (candidate_gotos five_gotos (Some (goto_block 4160 16384)))
          {[ 8192; 16384 ]} -> t ∈ ({[ 8192; 16384 ]} : gset Z))
    /\ (forall t',
         t' ∈ candidate_gotos five_gotos (Some (goto_block 4160 16384)) ->
         (restricted_to_region (candidate_gotos five_gotos (Some (goto_block 4160 16384)))
            {[ 8192; 16384 ]} -> t' ∈ ({[ 8192; 16384 ]} : gset Z)) ->
         (times t' (candidate_gotos five_gotos (Some (goto_block 4160 16384)))
          <= times t (candidate_gotos five_gotos (Some (goto_block 4160 16384))))%nat)
    /\ exists met later,
         candidate_gotos five_gotos (Some (goto_block 4160 16384)) = met ++ t :: later
         /\ t ∉ met
         /\ forall t',
              t' ∈ met ->
              (restricted_to_region
                 (candidate_gotos five_gotos (Some (goto_block 4160 16384)))
                 {[ 8192; 16384 ]} -> t' ∈ ({[ 8192; 16384 ]} : gset Z)) ->
              (times t' (candidate_gotos five_gotos (Some (goto_block 4160 16384)))
               < times t (candidate_gotos five_gotos (Some (goto_block 4160 16384))))%nat.
Proof.
  apply (switch_find_switch_end_addr_most_frequent five_gotos
           (Some (goto_block 4160 16384)) {[ 8192; 16384 ]}).
  vm_compute. discriminate.
Defined.

(** ** Induction over trees *)

Lemma node_ind' (P : node -> Prop)
  (HBlock : forall a sz st i, P (Block a sz st i))
  (HMulti : forall ns a i, Forall P ns -> P (MultiNode ns a i))
  (HSeq : forall a ns, Forall P ns -> P (SequenceNode a ns))
  (HCode : forall inner rc, P inner -> P (CodeNode inner rc))
  (HCond : forall a rc c t e,
      (forall x, t = Some x -> P x) -> (forall x, e = Some x -> P x) ->
      P (ConditionNode a rc c t e))
  (HCasc : forall a cns e,
      Forall (fun cn => P (snd cn)) cns -> (forall x, e = Some x -> P x) ->
      P (CascadingConditionNode a cns e))
  (HLoop : forall s c body a, P body -> P (LoopNode s c body a))
  (HSwitch : forall se cs d a,
      Forall (fun kc => P (snd kc)) cs -> (forall x, d = Some x -> P x) ->
      P (SwitchCaseNode se cs d a))
  (HBreak : forall a t, P (BreakNode a t))
  (HCondBreak : forall a c t, P (ConditionalBreakNode a c t))
  (HContinue : forall a t, P (ContinueNode a t)) :
  forall n, P n.
Proof.
  fix IH 1. intros n. destruct n as
    [a sz st i | ns a i | a ns | inner rc | a rc c t e | a cns e | s c body a
    | se cs d a | a t | a c t | a t].
  - apply HBlock.
  - apply HMulti. induction ns as [|x ns IHns]; constructor; [apply IH | exact IHns].
  - apply HSeq. induction ns as [|x ns IHns]; constructor; [apply IH | exact IHns].
  - apply HCode, IH.
  - apply HCond.
    + destruct t as [t'|]; intros x Hx; [injection Hx as <-; apply IH | discriminate].
    + destruct e as [e'|]; intros x Hx; [injection Hx as <-; apply IH | discriminate].
  - apply HCasc.
    + induction cns as [|[c x] cns IHcns]; constructor; [apply IH | exact IHcns].
    + destruct e as [e'|]; intros x Hx; [injection Hx as <-; apply IH | discriminate].
  - apply HLoop, IH.
  - apply HSwitch.
    + induction cs as [|[k x] cs IHcs]; constructor; [apply IH | exact IHcs].
    + destruct d as [d'|]; intros x Hx; [injection Hx as <-; apply IH | discriminate].
  - apply HBreak.
  - apply HCondBreak.
  - apply HContinue.
Qed.

(** ** Redundant jumps *)

Abbreviation children_height ns :=
  (fold_right (fun x m => Nat.max (height x) m) 0%nat ns).

Lemma height_pos n : (1 <= height n)%nat.
Proof. destruct n; simpl; lia. Qed.

Lemma children_height_le ns h :
  (children_height ns <= h)%nat <-> Forall (fun x => (height x <= h)%nat) ns.
Proof.
  induction ns as [|x ns IH]; simpl.
  - split; [constructor | lia].
  - rewrite Forall_cons, <- IH. lia.
Qed.

Lemma pairs_height_le {A : Type} (cns : list (A * node)) h :
  (fold_right (fun cn m => Nat.max (height (snd cn)) m) 0%nat cns <= h)%nat
  <-> Forall (fun cn => (height (snd cn) <= h)%nat) cns.
Proof.
  induction cns as [|x cns IH]; simpl.
  - split; [constructor | lia].
  - rewrite Forall_cons, <- IH. lia.
Qed.

Lemma children_height_removelast ns :
  (children_height (removelast ns) <= children_height ns)%nat.
Proof.
  induction ns as [|x ns IH]; [simpl; lia|].
  destruct ns as [|y ns]; [simpl; lia|].
  change (removelast (x :: y :: ns)) with (x :: removelast (y :: ns)).
  cbn [fold_right] in *. lia.
Qed.

Lemma children_height_snoc ns x :
  children_height (ns ++ [x]) = Nat.max (children_height ns) (height x).
Proof. induction ns as [|y ns IH]; simpl; [lia | rewrite IH; lia]. Qed.

Lemma height_on_jump_block g y : height (on_jump_block g y) = height y.
Proof.
  destruct y as [| ns ? ? | | | | | | | | |]; simpl; try done.
  destruct (last ns) as [[]|] eqn:El; simpl; try done.
  f_equal.
  apply last_Some in El as [l' ->].
  rewrite removelast_last, !children_height_snoc. simpl. lia.
Qed.

Lemma node_addr_on_jump_block g y : node_addr (on_jump_block g y) = node_addr y.
Proof.
  destruct y as [| ns ? ? | | | | | | | | |]; simpl; try done.
  by destruct (last ns) as [[]|].
Qed.

Lemma each_but_last_Forall_height g ns h :
  Forall (fun x => (height x <= h)%nat) ns ->
  Forall (fun x => (height x <= h)%nat) (each_but_last g ns).
Proof.
  induction ns as [|x [|y ns] IH]; simpl; intros Hall; try done.
  inversion Hall as [|? ? Hx Hrest]; subst.
  constructor; [by rewrite height_on_jump_block | by apply IH].
Qed.

Lemma option_height_le (t : option node) h :
  (match t with Some x => height x | None => 0 end <= h)%nat ->
  forall x, t = Some x -> (height x <= h)%nat.
Proof. intros Hle x ->. exact Hle. Qed.

(** The walk does not depend on its fuel once that covers the height. *)
Lemma remove_redundant_jumps_walk_fuel :
  forall f1 n f2,
    (height n <= f1)%nat -> (height n <= f2)%nat ->
    remove_redundant_jumps_walk f1 n = remove_redundant_jumps_walk f2 n.
Proof.
  induction f1 as [|f1 IH]; intros n f2 H1 H2.
  { pose proof (height_pos n). lia. }
  destruct f2 as [|f2]; [pose proof (height_pos n); lia|].
  destruct n as
    [a sz st i | ns a i | a ns | inner rc | a rc c t e | a cns e | s c body a
    | se cs d a | a t | a c t | a t]; simpl in *; try done.
  - f_equal. apply map_ext_in. intros x Hx.
    assert (Hall : Forall (fun x => (height x <= f1)%nat)
                     (each_but_last drop_jump_to_next_MultiNode ns)).
    { apply each_but_last_Forall_height, children_height_le. lia. }
    assert (Hall2 : Forall (fun x => (height x <= f2)%nat)
                      (each_but_last drop_jump_to_next_MultiNode ns)).
    { apply each_but_last_Forall_height, children_height_le. lia. }
    rewrite Forall_forall in Hall, Hall2. apply list_elem_of_In in Hx.
    apply IH; auto.
  - f_equal. apply map_ext_in. intros x Hx.
    assert (Hall : Forall (fun x => (height x <= f1)%nat)
                     (each_but_last drop_jump_to_next_Sequence ns)).
    { apply each_but_last_Forall_height, children_height_le. lia. }
    assert (Hall2 : Forall (fun x => (height x <= f2)%nat)
                      (each_but_last drop_jump_to_next_Sequence ns)).
    { apply each_but_last_Forall_height, children_height_le. lia. }
    rewrite Forall_forall in Hall, Hall2. apply list_elem_of_In in Hx.
    apply IH; auto.
  - f_equal. apply IH; lia.
  - f_equal.
    + destruct t as [x|]; simpl; [|done]. f_equal. apply IH; lia.
    + destruct e as [x|]; simpl; [|done]. f_equal. apply IH; lia.
  - f_equal.
    + apply map_ext_in. intros [c x] Hx. simpl. f_equal.
      assert (Hall : Forall (fun cn => (height (snd cn) <= Nat.min f1 f2)%nat) cns)
        by (apply pairs_height_le; lia).
      rewrite Forall_forall in Hall. apply list_elem_of_In in Hx.
      specialize (Hall _ Hx). simpl in Hall. apply IH; lia.
    + destruct e as [x|]; simpl; [|done]. f_equal. apply IH; lia.
  - f_equal. apply IH; lia.
  - f_equal.
    + apply map_ext_in. intros [c x] Hx. simpl. f_equal.
      assert (Hall : Forall (fun cn => (height (snd cn) <= Nat.min f1 f2)%nat) cs)
        by (apply pairs_height_le; lia).
      rewrite Forall_forall in Hall. apply list_elem_of_In in Hx.
      specialize (Hall _ Hx). simpl in Hall. apply IH; lia.
    + destruct d as [x|]; simpl; [|done]. f_equal. apply IH; lia.
Qed.

Lemma remove_redundant_jumps_at_fuel n f :
  (height n <= f)%nat -> remove_redundant_jumps_walk f n = remove_redundant_jumps n.
Proof. intros Hle. unfold remove_redundant_jumps. by apply remove_redundant_jumps_walk_fuel. Qed.

(** The pass, handler by handler. *)
Lemma remove_redundant_jumps_Sequence a ns :
  remove_redundant_jumps (SequenceNode a ns)
  = SequenceNode a (map remove_redundant_jumps (each_but_last drop_jump_to_next_Sequence ns)).
Proof.
  unfold remove_redundant_jumps at 1. simpl. f_equal.
  apply map_ext_in. intros x Hx. apply remove_redundant_jumps_at_fuel.
  assert (Hall : Forall (fun x => (height x <= children_height ns)%nat)
                   (each_but_last drop_jump_to_next_Sequence ns)).
  { apply each_but_last_Forall_height, children_height_le. lia. }
  rewrite Forall_forall in Hall. apply Hall. by apply list_elem_of_In.
Qed.

Lemma remove_redundant_jumps_MultiNode ns a i :
  remove_redundant_jumps (MultiNode ns a i)
  = MultiNode (map remove_redundant_jumps (each_but_last drop_jump_to_next_MultiNode ns)) a i.
Proof.
  unfold remove_redundant_jumps at 1. simpl. f_equal.
  apply map_ext_in. intros x Hx. apply remove_redundant_jumps_at_fuel.
  assert (Hall : Forall (fun x => (height x <= children_height ns)%nat)
                   (each_but_last drop_jump_to_next_MultiNode ns)).
  { apply each_but_last_Forall_height, children_height_le. lia. }
  rewrite Forall_forall in Hall. apply Hall. by apply list_elem_of_In.
Qed.

Lemma remove_redundant_jumps_default n :
  match n with SequenceNode _ _ | MultiNode _ _ _ => False | _ => True end ->
  remove_redundant_jumps n = walk_children remove_redundant_jumps n.
Proof.
  intros Hn. unfold remove_redundant_jumps at 1.
  destruct n as
    [a sz st i | ns a i | a ns | inner rc | a rc c t e | a cns e | s c body a
    | se cs d a | a t | a c t | a t]; simpl in *; try done.
  - f_equal.
    + destruct t as [x|]; simpl; [|done]. f_equal.
      apply remove_redundant_jumps_at_fuel. lia.
    + destruct e as [x|]; simpl; [|done]. f_equal.
      apply remove_redundant_jumps_at_fuel. lia.
  - f_equal.
    + apply map_ext_in. intros [c x] Hx. simpl. f_equal.
      apply remove_redundant_jumps_at_fuel.
      assert (Hall : Forall (fun cn => (height (snd cn)
                <= fold_right (fun cn m => Nat.max (height (snd cn)) m) 0%nat cns)%nat) cns)
        by (by apply pairs_height_le).
      rewrite Forall_forall in Hall. apply list_elem_of_In in Hx.
      specialize (Hall _ Hx). simpl in Hall. lia.
    + destruct e as [x|]; simpl; [|done]. f_equal.
      apply remove_redundant_jumps_at_fuel. lia.
  - f_equal.
    + apply map_ext_in. intros [c x] Hx. simpl. f_equal.
      apply remove_redundant_jumps_at_fuel.
      assert (Hall : Forall (fun cn => (height (snd cn)
                <= fold_right (fun cn m => Nat.max (height (snd cn)) m) 0%nat cs)%nat) cs)
        by (by apply pairs_height_le).
      rewrite Forall_forall in Hall. apply list_elem_of_In in Hx.
      specialize (Hall _ Hx). simpl in Hall. lia.
    + destruct d as [x|]; simpl; [|done]. f_equal.
      apply remove_redundant_jumps_at_fuel. lia.
Qed.

(** What the two handlers do to the statements of a block, case by case. *)
Lemma drop_jump_to_next_snoc_Jump next_addr st idx target ti ia :
  const_is target next_addr = true ->
  drop_jump_to_next_Sequence next_addr (st ++ [Jump idx target ti ia]) = st
  /\ drop_jump_to_next_MultiNode next_addr (st ++ [Jump idx target ti ia]) = st.
Proof.
  intros Hc. unfold drop_jump_to_next_Sequence, drop_jump_to_next_MultiNode.
  by rewrite last_snoc, Hc, removelast_last.
Qed.

Lemma drop_jump_to_next_snoc_true_target next_addr st idx c t f ti fi ia :
  opt_const_is t next_addr = true ->
  drop_jump_to_next_Sequence next_addr (st ++ [ConditionalJump idx c t f ti fi ia])
  = st ++ [ConditionalJump idx (UnaryOp None "Not" c) f None fi None ia]
  /\ drop_jump_to_next_MultiNode next_addr (st ++ [ConditionalJump idx c t f ti fi ia])
     = st ++ [ConditionalJump idx (UnaryOp None "Not" c) f None fi None ia].
Proof.
  intros Hc. unfold drop_jump_to_next_Sequence, drop_jump_to_next_MultiNode.
  by rewrite last_snoc, Hc, removelast_last.
Qed.

Lemma drop_jump_to_next_Sequence_snoc_false_target next_addr st idx c t f ti fi ia :
  opt_const_is t next_addr = false ->
  opt_const_is f next_addr = true ->
  drop_jump_to_next_Sequence next_addr (st ++ [ConditionalJump idx c t f ti fi ia])
  = st ++ [ConditionalJump idx c t None ti None ia].
Proof.
  intros Ht Hf. unfold drop_jump_to_next_Sequence.
  by rewrite last_snoc, Ht, Hf, removelast_last.
Qed.

Lemma drop_jump_to_next_MultiNode_snoc_false_target next_addr st idx c t f ti fi ia :
  opt_const_is t next_addr = false ->
  opt_const_is f next_addr = true ->
  drop_jump_to_next_MultiNode next_addr (st ++ [ConditionalJump idx c t f ti fi ia])
  = st ++ [ConditionalJump idx c t None fi None ia].
Proof.
  intros Ht Hf. unfold drop_jump_to_next_MultiNode.
  by rewrite last_snoc, Ht, Hf, removelast_last.
Qed.

(** A block that ends in a conditional jump to 0x30 or else to the next
    sibling at 0x20, the two targets under the indices 7 and 9. *)
Definition block_with_indexed_targets : node :=
  Block 16 16
    [OtherStmt None 16;
     ConditionalJump None (OtherExpr None 1) (Some (Const None 48)) (Some (Const None 32))
       (Some 7) (Some 9) 24]
    None.

(** In a sequence the true target keeps its index. *)
Example remove_redundant_jumps_Sequence_keeps_true_target_idx :
  remove_redundant_jumps
    (SequenceNode (Some 16) [block_with_indexed_targets; Block 32 4 [] None])
  = SequenceNode (Some 16)
      [Block 16 16
         [OtherStmt None 16;
          ConditionalJump None (OtherExpr None 1) (Some (Const None 48)) None
            (Some 7) None 24]
         None;
       Block 32 4 [] None].
Proof. reflexivity. Qed.

Lemma lookup_map {A B} (f : A -> B) (l : list A) (i : nat) :
  map f l !! i = f <$> l !! i.
Proof.
  revert i. induction l as [|x l IH]; intros [|i]; simpl; done.
Qed.

Lemma each_but_last_lookup g pre x next post :
  each_but_last g (pre ++ x :: next :: post) !! length pre
  = Some (on_jump_block (g (node_addr next)) x).
Proof.
  induction pre as [|y pre IH]; [done|].
  destruct pre as [|z pre]; simpl in *; exact IH.
Qed.

(** C5: in a [MultiNode], a block that ends in a conditional jump whose
    false target is the address of the next sibling, and whose true target
    is not, keeps the condition and the true target, but the true target
    gets the index of the false target [fi], not its own index [ti]. *)
Theorem remove_redundant_jumps_MultiNode_takes_false_target_idx
    pre a sz st idx c t f ti fi ia bi next post ma mi :
  opt_const_is t (node_addr next) = false ->
  opt_const_is f (node_addr next) = true ->
  exists nodes',
    remove_redundant_jumps
      (MultiNode
         (pre ++ Block a sz (st ++ [ConditionalJump idx c t f ti fi ia]) bi :: next :: post)
         ma mi)
    = MultiNode nodes' ma mi
    /\ nodes' !! length pre
       = Some (Block a sz (st ++ [ConditionalJump idx c t None fi None ia]) bi).
Proof.
  intros Ht Hf. rewrite remove_redundant_jumps_MultiNode.
  eexists. split; [reflexivity|].
  rewrite lookup_map, each_but_last_lookup. simpl.
  by rewrite drop_jump_to_next_MultiNode_snoc_false_target.
Qed.

(** The same block under a [MultiNode]: the true target 0x30 comes out
    under the index 9 of the false target. *)
Lemma remove_redundant_jumps_MultiNode_takes_false_target_idx_witness :
  exists nodes',
    remove_redundant_jumps
      (MultiNode
         ([] ++ Block 16 16
                  ([OtherStmt None 16]
                   ++ [ConditionalJump None (OtherExpr None 1) (Some (Const None 48))
                         (Some (Const None 32)) (Some 7) (Some 9) 24])
                  None
             :: Block 32 4 [] None :: [])
         (Some 16) None)
    = MultiNode nodes' (Some 16) None
    /\ nodes' !! length (@nil node)
       = Some (Block 16 16
                 ([OtherStmt None 16]
                  ++ [ConditionalJump None (OtherExpr None 1) (Some (Const None 48)) None
                        (Some 9) None 24])
                 None).
Proof.
  apply (remove_redundant_jumps_MultiNode_takes_false_target_idx
           [] 16 16 [OtherStmt None 16] None (OtherExpr None 1)
           (Some (Const None 48)) (Some (Const None 32)) (Some 7) (Some 9) 24 None
           (Block 32 4 [] None) [] (Some 16) None); reflexivity.
Defined.

(** Inside a sequence, as the pass meets it. *)
Example remove_redundant_jumps_MultiNode_example :
  remove_redundant_jumps
    (SequenceNode (Some 16)
       [MultiNode [block_with_indexed_targets; Block 32 4 [] None] (Some 16) None])
  = SequenceNode (Some 16)
      [MultiNode
         [Block 16 16
            [OtherStmt None 16;
             ConditionalJump None (OtherExpr None 1) (Some (Const None 48)) None
               (Some 9) None 24]
            None;
          Block 32 4 [] None]
         (Some 16) None].
Proof. reflexivity. Qed.

(** *** Idempotence *)

(** A last statement that is not a conditional jump with twice the same
    constant target. *)
Definition distinct_targets (s : stmt) : bool :=
  match s with
  | ConditionalJump _ _ (Some (Const _ v1)) (Some (Const _ v2)) _ _ _ => negb (v1 =? v2)
  | _ => true
  end.

(** Statements with no jump or conditional jump before the last one. *)
Definition jump_only_last (statements : list stmt) : bool :=
  forallb (fun s => negb (is_jump_stmt s)) (removelast statements)
  && from_option distinct_targets true (last statements).

(** Every block of the tree has [jump_only_last] statements. *)
Fixpoint jumps_well_placed (n : node) : bool :=
  match n with
  | Block _ _ statements _ => jump_only_last statements
  | BreakNode _ _ | ConditionalBreakNode _ _ _ | ContinueNode _ _ => true
  | MultiNode ns _ _ => forallb jumps_well_placed ns
  | SequenceNode _ ns => forallb jumps_well_placed ns
  | CodeNode inner _ => jumps_well_placed inner
  | ConditionNode _ _ _ t e =>
      from_option jumps_well_placed true t && from_option jumps_well_placed true e
  | CascadingConditionNode _ cns e =>
      forallb (fun cn => jumps_well_placed (snd cn)) cns
      && from_option jumps_well_placed true e
  | LoopNode _ _ body _ => jumps_well_placed body
  | SwitchCaseNode _ cs d _ =>
      forallb (fun kc => jumps_well_placed (snd kc)) cs
      && from_option jumps_well_placed true d
  end.

Lemma jump_only_last_snoc st s :
  jump_only_last (st ++ [s])
  = forallb (fun s => negb (is_jump_stmt s)) st && distinct_targets s.
Proof. unfold jump_only_last. by rewrite removelast_last, last_snoc. Qed.

Lemma no_jump_jump_only_last st :
  forallb (fun s => negb (is_jump_stmt s)) st = true -> jump_only_last st = true.
Proof.
  intros Hall. induction st as [|s st _] using rev_ind; [done|].
  rewrite jump_only_last_snoc.
  rewrite forallb_app in Hall. simpl in Hall.
  apply andb_true_iff in Hall as [H1 H2]. rewrite H1. simpl.
  destruct s; simpl in *; try done.
Qed.

Lemma no_jump_last_not_jump st :
  forallb (fun s => negb (is_jump_stmt s)) st = true ->
  match last st with Some s => is_jump_stmt s = false | None => True end.
Proof.
  intros Hall. induction st as [|s st _] using rev_ind; [done|].
  rewrite last_snoc. rewrite forallb_app in Hall. simpl in Hall.
  apply andb_true_iff in Hall as [_ H2]. by destruct (is_jump_stmt s).
Qed.

Lemma drop_jump_no_jump_Sequence a st :
  forallb (fun s => negb (is_jump_stmt s)) st = true ->
  drop_jump_to_next_Sequence a st = st.
Proof.
  intros Hall. apply no_jump_last_not_jump in Hall.
  unfold drop_jump_to_next_Sequence. by destruct (last st) as [[]|].
Qed.

Lemma drop_jump_no_jump_MultiNode a st :
  forallb (fun s => negb (is_jump_stmt s)) st = true ->
  drop_jump_to_next_MultiNode a st = st.
Proof.
  intros Hall. apply no_jump_last_not_jump in Hall.
  unfold drop_jump_to_next_MultiNode. by destruct (last st) as [[]|].
Qed.

Lemma opt_const_is_both t f a :
  opt_const_is t a = true -> opt_const_is f a = true ->
  distinct_targets (ConditionalJump None (Const None 0) t f None None 0) = false.
Proof.
  destruct t as [[? v1| | |]|], f as [[? v2| | |]|]; simpl; try done.
  intros H1 H2. apply bool_decide_eq_true_1 in H1, H2.
  assert (v1 = v2) by congruence. subst. by rewrite Z.eqb_refl.
Qed.

Lemma distinct_targets_irrel i c t f ti fi ia i' c' ti' fi' ia' :
  distinct_targets (ConditionalJump i c t f ti fi ia)
  = distinct_targets (ConditionalJump i' c' t f ti' fi' ia').
Proof. done. Qed.

Lemma drop_jump_to_next_snoc_keep next_addr st s :
  match s with
  | Jump _ target _ _ => const_is target next_addr = false
  | ConditionalJump _ _ t f _ _ _ =>
      opt_const_is t next_addr = false /\ opt_const_is f next_addr = false
  | OtherStmt _ _ => True
  end ->
  drop_jump_to_next_Sequence next_addr (st ++ [s]) = st ++ [s]
  /\ drop_jump_to_next_MultiNode next_addr (st ++ [s]) = st ++ [s].
Proof.
  intros Hs. unfold drop_jump_to_next_Sequence, drop_jump_to_next_MultiNode.
  rewrite last_snoc. destruct s; [by rewrite Hs | | done].
  destruct Hs as [-> ->]. done.
Qed.

(** Either handler leaves well-placed statements well placed and does
    nothing when run on them again. *)
Lemma drop_jump_to_next_twice a st :
  jump_only_last st = true ->
  (jump_only_last (drop_jump_to_next_Sequence a st) = true
   /\ drop_jump_to_next_Sequence a (drop_jump_to_next_Sequence a st)
      = drop_jump_to_next_Sequence a st)
  /\ (jump_only_last (drop_jump_to_next_MultiNode a st) = true
      /\ drop_jump_to_next_MultiNode a (drop_jump_to_next_MultiNode a st)
         = drop_jump_to_next_MultiNode a st).
Proof.
  induction st as [|s st _] using rev_ind; [done|].
  rewrite jump_only_last_snoc. intros Hwf.
  apply andb_true_iff in Hwf as [Hno Hd].
  destruct s as [i target ti ia | i c t f ti fi ia | i ia].
  - destruct (const_is target a) eqn:E.
    + destruct (drop_jump_to_next_snoc_Jump a st i target ti ia E) as [-> ->].
      rewrite drop_jump_no_jump_Sequence, drop_jump_no_jump_MultiNode by done.
      by rewrite no_jump_jump_only_last.
    + destruct (drop_jump_to_next_snoc_keep a st (Jump i target ti ia) E) as [HS HM].
      rewrite !HS, !HM. by rewrite jump_only_last_snoc, Hno.
  - destruct (opt_const_is t a) eqn:Et; [|destruct (opt_const_is f a) eqn:Ef].
    + assert (Hfa : opt_const_is f a = false).
      { destruct (opt_const_is f a) eqn:Ef; [|done].
        pose proof (opt_const_is_both t f a Et Ef) as Hb.
        rewrite (distinct_targets_irrel _ _ _ _ _ _ _ i c ti fi ia) in Hb. congruence. }
      destruct (drop_jump_to_next_snoc_true_target a st i c t f ti fi ia Et) as [-> ->].
      destruct (drop_jump_to_next_snoc_keep a st
                  (ConditionalJump i (UnaryOp None "Not" c) f None fi None ia))
        as [-> ->]; [by split|].
      rewrite jump_only_last_snoc, Hno. simpl. by destruct f as [[]|].
    + rewrite (drop_jump_to_next_Sequence_snoc_false_target a st i c t f ti fi ia Et Ef).
      rewrite (drop_jump_to_next_MultiNode_snoc_false_target a st i c t f ti fi ia Et Ef).
      destruct (drop_jump_to_next_snoc_keep a st (ConditionalJump i c t None ti None ia))
        as [-> _]; [by split|].
      destruct (drop_jump_to_next_snoc_keep a st (ConditionalJump i c t None fi None ia))
        as [_ ->]; [by split|].
      rewrite !jump_only_last_snoc, Hno. simpl. by destruct t as [[]|].
    + destruct (drop_jump_to_next_snoc_keep a st (ConditionalJump i c t f ti fi ia))
        as [HS HM]; [by split|].
      rewrite !HS, !HM. by rewrite jump_only_last_snoc, Hno, Hd.
  - destruct (drop_jump_to_next_snoc_keep a st (OtherStmt i ia)) as [HS HM]; [done|].
    rewrite !HS, !HM. by rewrite jump_only_last_snoc, Hno.
Qed.

Section EachButLast.

Variable on_statements : option Z -> list stmt -> list stmt.

Hypothesis on_statements_twice :
  forall a st,
    jump_only_last st = true ->
    jump_only_last (on_statements a st) = true
    /\ on_statements a (on_statements a st) = on_statements a st.

Lemma on_jump_block_twice a y :
  jumps_well_placed y = true ->
  jumps_well_placed (on_jump_block (on_statements a) y) = true
  /\ on_jump_block (on_statements a) (on_jump_block (on_statements a) y)
     = on_jump_block (on_statements a) y.
Proof.
  destruct y as [ba sz st i | ns ma mi | | | | | | | | |]; simpl;
    try (intros; split; done).
  - intros Hwf. destruct (on_statements_twice a st Hwf) as [H1 H2]. by rewrite H1, H2.
  - intros Hwf. destruct (last ns) as [[ba sz st i| | | | | | | | | |]|] eqn:El;
      try (simpl; rewrite ?El; split; done).
    apply last_Some in El as [l' ->].
    rewrite forallb_app in Hwf. simpl in Hwf.
    apply andb_true_iff in Hwf as [Hl' Hb]. rewrite andb_true_r in Hb.
    destruct (on_statements_twice a st Hb) as [H1 H2].
    rewrite removelast_last. simpl.
    rewrite forallb_app, Hl'. simpl. rewrite H1. split; [done|].
    by rewrite last_snoc, removelast_last, H2.
Qed.

Lemma each_but_last_twice ns :
  forallb jumps_well_placed ns = true ->
  forallb jumps_well_placed (each_but_last on_statements ns) = true
  /\ each_but_last on_statements (each_but_last on_statements ns)
     = each_but_last on_statements ns.
Proof.
  induction ns as [|x [|y ns] IH]; try done.
  intros Hwf. change (forallb jumps_well_placed (x :: y :: ns))
    with (jumps_well_placed x && forallb jumps_well_placed (y :: ns)) in Hwf.
  apply andb_true_iff in Hwf as [Hx Hrest].
  destruct (IH Hrest) as [IH1 IH2].
  destruct (on_jump_block_twice (node_addr y) x Hx) as [H1 H2].
  change (each_but_last on_statements (x :: y :: ns))
    with (on_jump_block (on_statements (node_addr y)) x
          :: each_but_last on_statements (y :: ns)).
  split.
  - simpl. rewrite H1. exact IH1.
  - remember (each_but_last on_statements (y :: ns)) as rest eqn:Erest.
    assert (Hhead : exists y' rest', rest = y' :: rest' /\ node_addr y' = node_addr y).
    { rewrite Erest. destruct ns as [|z ns]; simpl.
      - by exists y, [].
      - eexists _, _. split; [done|]. apply node_addr_on_jump_block. }
    destruct Hhead as (y' & rest' & -> & Haddr).
    simpl. rewrite Haddr, H2. f_equal. exact IH2.
Qed.

End EachButLast.

Definition is_Block (n : node) : bool :=
  match n with Block _ _ _ _ => true | _ => false end.

Lemma remove_redundant_jumps_Block a sz st i :
  remove_redundant_jumps (Block a sz st i) = Block a sz st i.
Proof. reflexivity. Qed.

Lemma remove_redundant_jumps_is_Block n :
  is_Block (remove_redundant_jumps n) = is_Block n.
Proof.
  destruct n; reflexivity.
Qed.

Lemma remove_redundant_jumps_addr n :
  node_addr (remove_redundant_jumps n) = node_addr n.
Proof.
  induction n using node_ind'; try reflexivity.
  rewrite remove_redundant_jumps_default by done. simpl. exact IHn.
Qed.

Lemma each_but_last_snoc g l x :
  exists l2,
    length l2 = length l
    /\ forall x', node_addr x' = node_addr x -> each_but_last g (l ++ [x']) = l2 ++ [x'].
Proof.
  induction l as [|y l IH].
  - exists []. split; [done|]. by intros x' _.
  - destruct IH as (l2 & Hlen & IH).
    destruct l as [|z l].
    + exists [on_jump_block (g (node_addr x)) y]. split; [done|].
      intros x' Hx'. simpl. by rewrite Hx'.
    + exists (on_jump_block (g (node_addr z)) y :: l2). split; [simpl in *; lia|].
      intros x' Hx'.
      change (each_but_last g ((y :: z :: l) ++ [x']))
        with (on_jump_block (g (node_addr z)) y :: each_but_last g ((z :: l) ++ [x'])).
      by rewrite (IH x' Hx').
Qed.

Lemma last_each_but_last g l : last (each_but_last g l) = last l.
Proof.
  induction l as [|y l _] using rev_ind; [done|].
  destruct (each_but_last_snoc g l y) as (l2 & _ & H2).
  by rewrite (H2 y eq_refl), !last_snoc.
Qed.

(** Rewriting the jump of a child and walking the child commute. *)
Lemma on_jump_block_remove_redundant_jumps g y :
  on_jump_block g (remove_redundant_jumps y) = remove_redundant_jumps (on_jump_block g y).
Proof.
  destruct y as
    [a sz st i | ns ma mi | a ns | inner rc | a rc c t e | a cns e | s c body a
    | se cs d a | a t | a c t | a t]; try reflexivity.
  - rewrite remove_redundant_jumps_MultiNode.
    induction ns as [|x l _] using rev_ind; [done|].
    destruct (each_but_last_snoc drop_jump_to_next_MultiNode l x) as (l2 & _ & H2).
    rewrite (H2 x eq_refl), map_app.
    cbn [map on_jump_block]. rewrite !last_snoc.
    pose proof (remove_redundant_jumps_is_Block x) as Hb.
    destruct x as [ba bsz bst bi | | | | | | | | | |];
      try (cbn [is_Block] in Hb;
           match goal with
           | |- context [remove_redundant_jumps ?n :: _] =>
               destruct (remove_redundant_jumps n) eqn:E; try discriminate Hb;
               cbv iota; rewrite <- E
           end;
           rewrite (remove_redundant_jumps_MultiNode (l ++ [_])), (H2 _ eq_refl), map_app;
           reflexivity).
    rewrite remove_redundant_jumps_Block, !removelast_last.
    rewrite remove_redundant_jumps_MultiNode.
    rewrite (H2 (Block ba bsz (g bst) bi) eq_refl), map_app. reflexivity.
Qed.

Lemma each_but_last_map_remove_redundant_jumps g l :
  each_but_last g (map remove_redundant_jumps l)
  = map remove_redundant_jumps (each_but_last g l).
Proof.
  induction l as [|x [|y l] IH]; try done.
  change (each_but_last g (map remove_redundant_jumps (x :: y :: l)))
    with (on_jump_block (g (node_addr (remove_redundant_jumps y))) (remove_redundant_jumps x)
          :: each_but_last g (map remove_redundant_jumps (y :: l))).
  rewrite IH, remove_redundant_jumps_addr, on_jump_block_remove_redundant_jumps.
  reflexivity.
Qed.

Lemma forallb_elem_of {A : Type} (f : A -> bool) (l : list A) :
  forallb f l = true -> forall x, x ∈ l -> f x = true.
Proof.
  intros H x Hx. rewrite forallb_forall in H. apply H. by apply list_elem_of_In.
Qed.

Lemma idempotent_up_to_height :
  forall h n,
    (height n <= h)%nat ->
    jumps_well_placed n = true ->
    remove_redundant_jumps (remove_redundant_jumps n) = remove_redundant_jumps n.
Proof.
  induction h as [|h IH]; intros n Hh Hwf.
  { pose proof (height_pos n). lia. }
  destruct n as
    [a sz st i | ns ma mi | a ns | inner rc | a rc c t e | a cns e | s c body a
    | se cs d a | a t | a c t | a t]; try reflexivity; simpl in Hh, Hwf.
  - rewrite !remove_redundant_jumps_MultiNode.
    rewrite each_but_last_map_remove_redundant_jumps.
    destruct (each_but_last_twice drop_jump_to_next_MultiNode
                (fun a st H => proj2 (drop_jump_to_next_twice a st H)) ns Hwf) as [Hwf' ->].
    f_equal. rewrite map_map. apply map_ext_in. intros x Hx.
    apply list_elem_of_In in Hx.
    assert (Hhx : Forall (fun x => (height x <= h)%nat)
                    (each_but_last drop_jump_to_next_MultiNode ns)).
    { apply each_but_last_Forall_height, children_height_le. lia. }
    rewrite Forall_forall in Hhx.
    apply IH; [by apply Hhx | by apply (forallb_elem_of _ _ Hwf')].
  - rewrite !remove_redundant_jumps_Sequence.
    rewrite each_but_last_map_remove_redundant_jumps.
    destruct (each_but_last_twice drop_jump_to_next_Sequence
                (fun a st H => proj1 (drop_jump_to_next_twice a st H)) ns Hwf) as [Hwf' ->].
    f_equal. rewrite map_map. apply map_ext_in. intros x Hx.
    apply list_elem_of_In in Hx.
    assert (Hhx : Forall (fun x => (height x <= h)%nat)
                    (each_but_last drop_jump_to_next_Sequence ns)).
    { apply each_but_last_Forall_height, children_height_le. lia. }
    rewrite Forall_forall in Hhx.
    apply IH; [by apply Hhx | by apply (forallb_elem_of _ _ Hwf')].
  - rewrite (remove_redundant_jumps_default (CodeNode inner rc)) by done. simpl.
    rewrite remove_redundant_jumps_default by done. simpl.
    f_equal. apply IH; [lia | done].
  - rewrite (remove_redundant_jumps_default (ConditionNode a rc c t e)) by done. simpl.
    rewrite remove_redundant_jumps_default by done. simpl.
    apply andb_true_iff in Hwf as [Ht He].
    f_equal.
    + destruct t as [x|]; simpl in *; [|done]. f_equal. apply IH; [lia | done].
    + destruct e as [x|]; simpl in *; [|done]. f_equal. apply IH; [lia | done].
  - rewrite (remove_redundant_jumps_default (CascadingConditionNode a cns e)) by done. simpl.
    rewrite remove_redundant_jumps_default by done. simpl.
    apply andb_true_iff in Hwf as [Hc He].
    f_equal.
    + rewrite map_map. apply map_ext_in. intros [c x] Hx. simpl. f_equal.
      apply list_elem_of_In in Hx.
      assert (Hall : Forall (fun cn => (height (snd cn) <= h)%nat) cns)
        by (apply pairs_height_le; lia).
      rewrite Forall_forall in Hall. specialize (Hall _ Hx).
      apply IH; [done | by apply (forallb_elem_of _ _ Hc (c, x))].
    + destruct e as [x|]; simpl in *; [|done]. f_equal. apply IH; [lia | done].
  - rewrite (remove_redundant_jumps_default (LoopNode s c body a)) by done. simpl.
    rewrite remove_redundant_jumps_default by done. simpl.
    f_equal. apply IH; [lia | done].
  - rewrite (remove_redundant_jumps_default (SwitchCaseNode se cs d a)) by done. simpl.
    rewrite remove_redundant_jumps_default by done. simpl.
    apply andb_true_iff in Hwf as [Hc He].
    f_equal.
    + rewrite map_map. apply map_ext_in. intros [c x] Hx. simpl. f_equal.
      apply list_elem_of_In in Hx.
      assert (Hall : Forall (fun cn => (height (snd cn) <= h)%nat) cs)
        by (apply pairs_height_le; lia).
      rewrite Forall_forall in Hall. specialize (Hall _ Hx).
      apply IH; [done | by apply (forallb_elem_of _ _ Hc (c, x))].
    + destruct d as [x|]; simpl in *; [|done]. f_equal. apply IH; [lia | done].
Qed.

(** C6, as amended: on a sequence whose blocks have no jump or conditional
    jump before their last statement and no last conditional jump with twice
    the same constant target, running the pass twice gives the tree that
    running it once gives. *)
Theorem remove_redundant_jumps_idempotent :
  forall (addr : option Z) (nodes : list node),
    jumps_well_placed (SequenceNode addr nodes) = true ->
    remove_redundant_jumps (remove_redundant_jumps (SequenceNode addr nodes))
    = remove_redundant_jumps (SequenceNode addr nodes).
Proof.
  intros addr nodes Hwf.
  by apply (idempotent_up_to_height (height (SequenceNode addr nodes))).
Qed.

Lemma remove_redundant_jumps_idempotent_witness :
  remove_redundant_jumps
    (remove_redundant_jumps
       (SequenceNode (Some 16)
          [MultiNode [block_with_indexed_targets; Block 32 4 [] None] (Some 16) None;
           goto_block 48 64;
           LoopNode SortWhile None (SequenceNode (Some 64) [goto_block 64 80]) (Some 64)]))
  = remove_redundant_jumps
      (SequenceNode (Some 16)
         [MultiNode [block_with_indexed_targets; Block 32 4 [] None] (Some 16) None;
          goto_block 48 64;
          LoopNode SortWhile None (SequenceNode (Some 64) [goto_block 64 80]) (Some 64)]).
Proof.
  apply remove_redundant_jumps_idempotent. reflexivity.
Defined.

(** C6, as stated, fails: a block whose conditional jump has the next
    sibling as both targets is rewritten by the first run (the true target
    goes) and again by the second (the former false target goes). *)
Lemma remove_redundant_jumps_idempotent_counterexample :
  remove_redundant_jumps
    (remove_redundant_jumps
       (SequenceNode (Some 16)
          [Block 16 16
             [ConditionalJump None (OtherExpr None 1) (Some (Const None 32))
                (Some (Const None 32)) None None 24] None;
           Block 32 4 [] None]))
  <> remove_redundant_jumps
       (SequenceNode (Some 16)
          [Block 16 16
             [ConditionalJump None (OtherExpr None 1) (Some (Const None 32))
                (Some (Const None 32)) None None 24] None;
           Block 32 4 [] None]).
Proof. vm_compute. discriminate. Qed.

(** ** Merging conditional breaks *)

Section MergeConditionalBreaksProperties.

Variable simplify_condition : cond -> cond.

Abbreviation walk := (merge_conditional_breaks_walk simplify_condition).
Abbreviation loop := (merge_breaks_loop simplify_condition walk).

(** The children of a sequence after the handler ran on it. *)
Definition merged_children (nodes : list node) : list node := snd (loop nodes [] false).

(** A node that is a conditional break, possibly inside a code node. *)
Definition is_cond_break (n : node) : bool :=
  match unwrap_code n with
  | ConditionalBreakNode _ _ _ => true
  | _ => false
  end.

Lemma merge_conditional_breaks_Sequence addr nodes :
  merge_conditional_breaks simplify_condition (SequenceNode addr nodes)
  = (fst (loop nodes [] false), SequenceNode addr (merged_children nodes)).
Proof. reflexivity. Qed.

Lemma loop_app xs ys acc m :
  loop (xs ++ ys) acc m = loop ys (snd (loop xs acc m)) (fst (loop xs acc m)).
Proof.
  revert acc m. induction xs as [|x xs IH]; intros acc m; [done|].
  simpl. destruct (unwrap_code x); try apply IH.
  destruct (last acc) as [prev|]; [|apply IH].
  destruct (unwrap_code prev); apply IH.
Qed.

Lemma loop_flag ys acc m :
  loop ys acc m = (m || fst (loop ys acc false), snd (loop ys acc false)).
Proof.
  revert acc m. induction ys as [|y ys IH]; intros acc m.
  - simpl. by rewrite orb_false_r.
  - simpl.
    assert (Hstep : forall acc' b,
      loop ys acc' (m || b)
      = (m || fst (loop ys acc' (false || b)), snd (loop ys acc' (false || b)))).
    { intros acc' b. rewrite (IH acc' (m || b)), (IH acc' (false || b)). simpl.
      by rewrite orb_assoc. }
    assert (Htrue : forall acc',
      loop ys acc' true = (m || fst (loop ys acc' true), snd (loop ys acc' true))).
    { intros acc'. rewrite (IH acc' true). simpl. by rewrite orb_true_r. }
    destruct (unwrap_code y); try apply Hstep.
    destruct (last acc) as [prev|]; [|apply Hstep].
    destruct (unwrap_code prev); try apply IH. apply Htrue.
Qed.

(** Nodes that precede the last node of [new_nodes] play no part. *)
Lemma loop_prefix ys acc acc' m :
  acc' <> [] ->
  loop ys (acc ++ acc') m = (fst (loop ys acc' m), acc ++ snd (loop ys acc' m)).
Proof.
  revert acc' m. induction ys as [|y ys IH]; intros acc' m Hne; [done|].
  simpl. rewrite last_app.
  destruct (last acc') as [prev|] eqn:El.
  2:{ apply last_None in El. contradiction. }
  assert (Hsnoc : forall z m', loop ys ((acc ++ acc') ++ [z]) m'
            = (fst (loop ys (acc' ++ [z]) m'), acc ++ snd (loop ys (acc' ++ [z]) m'))).
  { intros z m'. rewrite <- app_assoc. apply IH. by destruct acc'. }
  destruct (unwrap_code y); try apply Hsnoc.
  destruct (unwrap_code prev); try apply Hsnoc.
  assert (Hrl : removelast (acc ++ acc') = acc ++ removelast acc')
    by (by apply removelast_app).
  rewrite Hrl, <- app_assoc. apply IH. by destruct (removelast acc').
Qed.

(** A first node that is no conditional break does not look at [new_nodes]. *)
Lemma loop_fresh ys acc m :
  from_option is_cond_break false (head ys) = false ->
  loop ys acc m = (m || fst (loop ys [] false), acc ++ merged_children ys).
Proof.
  unfold merged_children. destruct ys as [|y ys]; intros Hy.
  - simpl. by rewrite orb_false_r, app_nil_r.
  - simpl in Hy. unfold is_cond_break in Hy.
    assert (Hgo : forall z b,
      loop ys (acc ++ [z]) (m || b)
      = (m || fst (loop ys ([] ++ [z]) (false || b)),
         acc ++ snd (loop ys ([] ++ [z]) (false || b)))).
    { intros z b. rewrite (loop_prefix ys acc [z]) by done. simpl.
      rewrite (loop_flag ys [z] (m || b)), (loop_flag ys [z] b). simpl.
      by rewrite orb_assoc. }
    simpl. destruct (unwrap_code y); try discriminate Hy; apply Hgo.
Qed.

Lemma walk_keeps_variant n :
  match snd (walk n) with
  | ConditionalBreakNode _ _ _ => true
  | _ => false
  end
  = match n with ConditionalBreakNode _ _ _ => true | _ => false end.
Proof. destruct n; reflexivity. Qed.

Lemma walk_is_cond_break n : is_cond_break (snd (walk n)) = is_cond_break n.
Proof.
  destruct n; try reflexivity.
  unfold is_cond_break. simpl. apply walk_keeps_variant.
Qed.

Lemma rewrap_walked x : rewrap_code x (snd (walk (unwrap_code x))) = snd (walk x).
Proof. destruct x; reflexivity. Qed.

Lemma last_merged_not_cond_break pre :
  from_option is_cond_break false (last pre) = false ->
  from_option is_cond_break false (last (merged_children pre)) = false.
Proof.
  unfold merged_children.
  induction pre as [|x pre _] using rev_ind; [done|].
  rewrite last_snoc. simpl. intros Hx.
  rewrite loop_app. simpl.
  set (acc := snd (loop pre [] false)). set (m := fst (loop pre [] false)).
  assert (Hgo :
    from_option is_cond_break false
      (last (acc ++ [rewrap_code x (snd (walk (unwrap_code x)))])) = false).
  { rewrite last_snoc. simpl. by rewrite rewrap_walked, walk_is_cond_break. }
  unfold is_cond_break in Hx.
  destruct (unwrap_code x); try discriminate Hx; try exact Hgo.
Qed.

(** C7, as amended: two consecutive conditional breaks with conditions [A]
    and [B] and the same target [E], with no further conditional break right
    before or right after them, are replaced by one conditional break on
    [simplify(Or(B, A))] with target [E], at the address of the second; the
    siblings before and after are merged as they would be on their own, and
    a merge is reported. *)
Theorem merge_conditional_breaks_pair :
  forall (addr : option Z) (pre post : list node) (a1 a2 : Z) (A B : cond) (E : Z),
    from_option is_cond_break false (last pre) = false ->
    from_option is_cond_break false (head post) = false ->
    merge_conditional_breaks simplify_condition
      (SequenceNode addr
         (pre ++ [ConditionalBreakNode a1 A E; ConditionalBreakNode a2 B E] ++ post))
    = (true,
       SequenceNode addr
         (merged_children pre
          ++ [ConditionalBreakNode a2 (simplify_condition (claripy_Or B A)) E]
          ++ merged_children post)).
Proof.
  intros addr pre post a1 a2 A B E Hpre Hpost.
  rewrite merge_conditional_breaks_Sequence. unfold merged_children at 1.
  apply last_merged_not_cond_break in Hpre. unfold merged_children in Hpre.
  rewrite loop_app.
  set (acc := snd (loop pre [] false)) in *. set (m := fst (loop pre [] false)).
  assert (Hfirst :
    loop ([ConditionalBreakNode a1 A E; ConditionalBreakNode a2 B E] ++ post) acc m
    = loop post (acc ++ [ConditionalBreakNode a2 (simplify_condition (claripy_Or B A)) E])
        true).
  { simpl. destruct (last acc) as [prev|] eqn:El.
    - simpl in Hpre. unfold is_cond_break in Hpre.
      destruct (unwrap_code prev); try discriminate Hpre;
        by rewrite last_snoc, removelast_last.
    - simpl. by rewrite last_snoc, removelast_last. }
  rewrite Hfirst, (loop_fresh post _ true Hpost). simpl.
  by rewrite <- app_assoc.
Qed.

End MergeConditionalBreaksProperties.
Lemma merge_conditional_breaks_pair_witness :
  merge_conditional_breaks fold_double_negations
    (SequenceNode (Some 16)
       ([goto_block 16 32]
        ++ [ConditionalBreakNode 20 (BoolS 1) 64; ConditionalBreakNode 24 (BoolS 2) 64]
        ++ [goto_block 28 16]))
  = (true,
     SequenceNode (Some 16)
       (merged_children fold_double_negations [goto_block 16 32]
        ++ [ConditionalBreakNode 24
              (fold_double_negations (claripy_Or (BoolS 2) (BoolS 1))) 64]
        ++ merged_children fold_double_negations [goto_block 28 16])).
Proof.
  apply (merge_conditional_breaks_pair fold_double_negations (Some 16)
           [goto_block 16 32] [goto_block 28 16] 20 24 (BoolS 1) (BoolS 2) 64);
    reflexivity.
Defined.

(** C7, as stated, fails: of three consecutive conditional breaks with one
    target the first two are not replaced by one node with the third left
    after it, nor the last two with the first left before them.  Whatever
    the simplifier, the three become one node, on the condition of the third
    or-ed with what the first two gave. *)
Lemma merge_conditional_breaks_pair_counterexample :
  (forall simplify_condition : cond -> cond,
     merge_conditional_breaks simplify_condition
       (SequenceNode (Some 16)
          [ConditionalBreakNode 20 (BoolS 1) 64; ConditionalBreakNode 24 (BoolS 2) 64;
           ConditionalBreakNode 28 (BoolS 3) 64])
     = (true,
        SequenceNode (Some 16)
          [ConditionalBreakNode 28
             (simplify_condition
                (claripy_Or (BoolS 3)
                   (simplify_condition (claripy_Or (BoolS 2) (BoolS 1))))) 64]))
  /\ (forall (simplify_condition : cond -> cond) (merged : node),
        snd (merge_conditional_breaks simplify_condition
               (SequenceNode (Some 16)
                  [ConditionalBreakNode 20 (BoolS 1) 64; ConditionalBreakNode 24 (BoolS 2) 64;
                   ConditionalBreakNode 28 (BoolS 3) 64]))
        <> SequenceNode (Some 16) [merged; ConditionalBreakNode 28 (BoolS 3) 64])
  /\ (forall (simplify_condition : cond -> cond) (merged : node),
        snd (merge_conditional_breaks simplify_condition
               (SequenceNode (Some 16)
                  [ConditionalBreakNode 20 (BoolS 1) 64; ConditionalBreakNode 24 (BoolS 2) 64;
                   ConditionalBreakNode 28 (BoolS 3) 64]))
        <> SequenceNode (Some 16) [ConditionalBreakNode 20 (BoolS 1) 64; merged]).
Proof.
  split; [reflexivity|].
  split; intros simplify_condition merged; simpl; discriminate.
Qed.

(** ** Merging nested conditionals *)

Section MergeNestingConditionalsProperties.

Variable simplify_condition : cond -> cond.
Variable claripy_ast_from_ail_condition : condition -> cond.

Abbreviation nesting_walk :=
  (merge_nesting_conditionals_walk simplify_condition claripy_ast_from_ail_condition).
Abbreviation nesting_at :=
  (merge_nesting_at simplify_condition claripy_ast_from_ail_condition nesting_walk).

(** The children of a sequence after the handler ran on it. *)
Definition unnested_children (nodes : list node) : list node :=
  map (fun n => snd (nesting_at n)) nodes.

Lemma merge_nesting_conditionals_Sequence addr nodes :
  merge_nesting_conditionals simplify_condition claripy_ast_from_ail_condition
    (SequenceNode addr nodes)
  = (existsb fst (map nesting_at nodes), SequenceNode addr (unnested_children nodes)).
Proof. unfold unnested_children. simpl. by rewrite map_map. Qed.

Lemma merged_child_reported nodes (i : nat) n n' :
  nodes !! i = Some n ->
  nesting_at n = (true, n') ->
  existsb fst (map nesting_at nodes) = true /\ unnested_children nodes !! i = Some n'.
Proof.
  intros Hi Hn. split.
  - apply existsb_exists. exists (true, n'). split; [|done].
    rewrite <- Hn. apply in_map. apply list_elem_of_In. by apply list_elem_of_lookup_2 in Hi.
  - unfold unnested_children. rewrite list_lookup_fmap, Hi. simpl. by rewrite Hn.
Qed.

(** C8: a child [Condition(A, Condition(B, S))] without false branches
    becomes [Condition(simplify(And(A, B)), S)]; when the inner true branch
    is a conditional break on [B] to [E], alone or as the only node of a
    sequence, the child becomes a conditional break on [simplify(And(A, B))]
    to [E].  The conditions are taken through
    [claripy_ast_from_ail_condition]; the other children keep their place and
    a merge is reported. *)
Theorem merge_nesting_conditionals_child :
  forall (addr : option Z) (nodes : list node) (i : nat) (this : node),
    nodes !! i = Some this ->
    (forall a rc A a' rc' B S,
        this = ConditionNode a rc A (Some (ConditionNode a' rc' B (Some S) None)) None ->
        exists nodes',
          merge_nesting_conditionals simplify_condition claripy_ast_from_ail_condition
            (SequenceNode addr nodes) = (true, SequenceNode addr nodes')
          /\ length nodes' = length nodes
          /\ nodes' !! i
             = Some (ConditionNode a None
                       (ClaripyCond
                          (simplify_condition
                             (claripy_And (claripy_ast_from_ail_condition A)
                                          (claripy_ast_from_ail_condition B))))
                       (Some S) None))
    /\ (forall a rc A inner a' B E sa,
           this = ConditionNode a rc A (Some inner) None ->
           inner = ConditionalBreakNode a' B E
           \/ inner = SequenceNode sa [ConditionalBreakNode a' B E] ->
           exists nodes',
             merge_nesting_conditionals simplify_condition claripy_ast_from_ail_condition
               (SequenceNode addr nodes) = (true, SequenceNode addr nodes')
             /\ length nodes' = length nodes
             /\ nodes' !! i
                = Some (ConditionalBreakNode a'
                          (simplify_condition
                             (claripy_And (claripy_ast_from_ail_condition A)
                                          (claripy_ast_from_ail_condition (ClaripyCond B))))
                          E)).
Proof.
  intros addr nodes i this Hi. split.
  - intros a rc A a' rc' B S ->.
    exists (unnested_children nodes).
    rewrite merge_nesting_conditionals_Sequence.
    destruct (merged_child_reported nodes i _ _ Hi eq_refl) as [-> Hl].
    repeat split; [apply length_map | exact Hl].
  - intros a rc A inner a' B E sa -> Hinner.
    exists (unnested_children nodes).
    rewrite merge_nesting_conditionals_Sequence.
    assert (Hat : nesting_at (ConditionNode a rc A (Some inner) None)
                  = (true,
                     ConditionalBreakNode a'
                       (simplify_condition
                          (claripy_And (claripy_ast_from_ail_condition A)
                             (claripy_ast_from_ail_condition (ClaripyCond B))))
                       E)).
    { by destruct Hinner as [-> | ->]. }
    destruct (merged_child_reported nodes i _ _ Hi Hat) as [-> Hl].
    repeat split; [apply length_map | exact Hl].
Qed.

End MergeNestingConditionalsProperties.

Lemma merge_nesting_conditionals_child_witness :
  (exists nodes',
      merge_nesting_conditionals fold_double_negations sample_conversion
        (SequenceNode (Some 16)
           [goto_block 16 32;
            ConditionNode (Some 20) None (AilCond (OtherExpr None 1))
              (Some (ConditionNode (Some 24) None (AilCond (OtherExpr None 2))
                       (Some (goto_block 28 64)) None))
              None])
      = (true, SequenceNode (Some 16) nodes')
      /\ length nodes' = 2%nat
      /\ nodes' !! 1%nat
         = Some (ConditionNode (Some 20) None
                   (ClaripyCond (claripy_And (BoolS 1) (BoolS 2)))
                   (Some (goto_block 28 64)) None)).
Proof.
  destruct (merge_nesting_conditionals_child fold_double_negations sample_conversion
              (Some 16)
              [goto_block 16 32;
               ConditionNode (Some 20) None (AilCond (OtherExpr None 1))
                 (Some (ConditionNode (Some 24) None (AilCond (OtherExpr None 2))
                          (Some (goto_block 28 64)) None))
                 None]
              1%nat _ eq_refl) as [H _].
  exact (H _ _ _ _ _ _ _ eq_refl).
Defined.

(** ** Nested loops and switch-cases are left alone *)

(** The subtrees a walk does not enter: the nested loops, in order, and
    with [skip_switch] also the nested switch-cases. *)
Fixpoint skipped_subtrees (skip_switch : bool) (n : node) : list node :=
  match n with
  | LoopNode _ _ _ _ => [n]
  | Block _ _ _ _ | BreakNode _ _ | ConditionalBreakNode _ _ _ | ContinueNode _ _ => []
  | MultiNode ns _ _ => flat_map (skipped_subtrees skip_switch) ns
  | SequenceNode _ ns => flat_map (skipped_subtrees skip_switch) ns
  | CodeNode inner _ => skipped_subtrees skip_switch inner
  | ConditionNode _ _ _ t e =>
      from_option (skipped_subtrees skip_switch) [] t
      ++ from_option (skipped_subtrees skip_switch) [] e
  | CascadingConditionNode _ cns e =>
      flat_map (fun cn => skipped_subtrees skip_switch (snd cn)) cns
      ++ from_option (skipped_subtrees skip_switch) [] e
  | SwitchCaseNode _ cs d _ =>
      if skip_switch then [n]
      else flat_map (fun kc => skipped_subtrees skip_switch (snd kc)) cs
           ++ from_option (skipped_subtrees skip_switch) [] d
  end.

Lemma skipped_in_slot s child now :
  skipped_subtrees s (in_slot child now) = flat_map (skipped_subtrees s) now.
Proof.
  destruct now as [|x [|y now]]; simpl; try done. by rewrite app_nil_r.
Qed.

Lemma flat_map_flat_map {A B C : Type} (f : A -> list B) (g : B -> list C) l :
  flat_map g (flat_map f l) = flat_map (fun x => flat_map g (f x)) l.
Proof.
  induction l as [|x l IH]; simpl; [done|]. by rewrite flat_map_app, IH.
Qed.

Lemma map_ext_Forall_eq {A B : Type} (f g : A -> B) l :
  Forall (fun x => f x = g x) l -> map f l = map g l.
Proof. induction 1 as [|x l Hx _ IH]; simpl; [done|]. by rewrite Hx, IH. Qed.

Lemma flat_map_ext_Forall {A B : Type} (f g : A -> list B) l :
  Forall (fun x => f x = g x) l -> flat_map f l = flat_map g l.
Proof. induction 1 as [|x l Hx _ IH]; simpl; [done|]. by rewrite Hx, IH. Qed.

Lemma option_skipped_in_slot s (w : node -> list node) (t : option node) :
  (forall x, t = Some x -> flat_map (skipped_subtrees s) (w x) = skipped_subtrees s x) ->
  from_option (skipped_subtrees s) [] (option_map (fun x => in_slot x (w x)) t)
  = from_option (skipped_subtrees s) [] t.
Proof.
  destruct t as [x|]; simpl; [|done]. intros H. rewrite skipped_in_slot. by apply H.
Qed.

Lemma pairs_skipped_in_slot {A : Type} s (w : node -> list node) (l : list (A * node)) :
  Forall (fun cn => flat_map (skipped_subtrees s) (w (snd cn))
                    = skipped_subtrees s (snd cn)) l ->
  flat_map (fun cn => skipped_subtrees s (snd cn))
    (map (fun cn => (fst cn, in_slot (snd cn) (w (snd cn)))) l)
  = flat_map (fun cn => skipped_subtrees s (snd cn)) l.
Proof.
  induction 1 as [|x l Hx _ IH]; simpl; [done|].
  by rewrite skipped_in_slot, Hx, IH.
Qed.

(** *** The walk that rewrites jumps to continues *)

Lemma rewrite_jump_to_continue_no_skipped conv cont s n :
  flat_map (skipped_subtrees s) (rewrite_jump_to_continue conv cont n)
  = skipped_subtrees s n.
Proof.
  destruct n as [a sz st i | | | | | | | | | |]; simpl; rewrite ?app_nil_r; try done.
  destruct (last st) as [[? ? ? ? | ? ? t f ? ? ? | ? ?]|]; simpl; try done.
  - by destruct (existsb _ _).
  - destruct (opt_const_is t cont); [by destruct f|].
    destruct (opt_const_is f cont); [by destruct t|]. done.
Qed.

Lemma rewrite_jumps_walk_skipped conv cont n :
  flat_map (skipped_subtrees false) (rewrite_jumps_walk conv cont n)
  = skipped_subtrees false n.
Proof.
  induction n as
    [a sz st i | ns a i IH | a ns IH | inner rc IH | a rc c t e IHt IHe | a cns e IHc IHe
    | s c body a IH | se cs d a IHc IHd | a t | a c t | a t] using node_ind'.
  - apply rewrite_jump_to_continue_no_skipped.
  - simpl. rewrite app_nil_r, flat_map_flat_map. by apply flat_map_ext_Forall.
  - simpl. rewrite app_nil_r, flat_map_flat_map. by apply flat_map_ext_Forall.
  - simpl. by rewrite app_nil_r, skipped_in_slot.
  - simpl. rewrite app_nil_r. by rewrite !option_skipped_in_slot.
  - simpl. rewrite app_nil_r. by rewrite pairs_skipped_in_slot, option_skipped_in_slot.
  - done.
  - simpl. rewrite app_nil_r. by rewrite pairs_skipped_in_slot, option_skipped_in_slot.
  - done.
  - done.
  - done.
Qed.

(** *** Removing the continue nodes at the ends *)

(** The handler of [SequenceNode] and [MultiNode] on the children. *)
Definition at_end (ns : list node) : list node :=
  match last ns with
  | None => []
  | Some x =>
      if is_ContinueNode x then removelast ns
      else removelast ns ++ [remove_continue_node_at_loop_body_ends x]
  end.

Fixpoint at_end_rec (ns : list node) : list node :=
  match ns with
  | [] => []
  | [x] => if is_ContinueNode x then []
           else [remove_continue_node_at_loop_body_ends x]
  | x :: rest => x :: at_end_rec rest
  end.

Lemma at_end_rec_cons x y ns : at_end_rec (x :: y :: ns) = x :: at_end_rec (y :: ns).
Proof. reflexivity. Qed.

Lemma at_end_rec_at_end ns : at_end_rec ns = at_end ns.
Proof.
  induction ns as [|x ns IH]; [done|].
  destruct ns as [|y ns].
  - unfold at_end. cbn [last removelast app at_end_rec].
    destruct (is_ContinueNode x); reflexivity.
  - rewrite at_end_rec_cons, IH. unfold at_end.
    change (last (x :: y :: ns)) with (last (y :: ns)).
    change (removelast (x :: y :: ns)) with (x :: removelast (y :: ns)).
    destruct (last (y :: ns)) as [z|] eqn:El.
    + by destruct (is_ContinueNode z).
    + by apply last_None in El.
Qed.

Lemma remove_continue_Sequence a ns :
  remove_continue_node_at_loop_body_ends (SequenceNode a ns) = SequenceNode a (at_end ns).
Proof. rewrite <- at_end_rec_at_end. reflexivity. Qed.

Lemma remove_continue_MultiNode ns a i :
  remove_continue_node_at_loop_body_ends (MultiNode ns a i) = MultiNode (at_end ns) a i.
Proof. rewrite <- at_end_rec_at_end. reflexivity. Qed.

Lemma skipped_at_end s ns :
  Forall (fun x => skipped_subtrees s (remove_continue_node_at_loop_body_ends x)
                   = skipped_subtrees s x) ns ->
  flat_map (skipped_subtrees s) (at_end ns) = flat_map (skipped_subtrees s) ns.
Proof.
  induction ns as [|x ns _] using rev_ind; [done|].
  intros Hall. apply Forall_app in Hall as [_ Hx]. inversion Hx as [|? ? Hx' _]; subst.
  unfold at_end. rewrite last_snoc, removelast_last, flat_map_app.
  destruct x; simpl in *; try (by rewrite flat_map_app; simpl; rewrite ?Hx').
  by rewrite !app_nil_r.
Qed.

Lemma remove_continue_skipped s n :
  skipped_subtrees s (remove_continue_node_at_loop_body_ends n) = skipped_subtrees s n.
Proof.
  induction n as
    [a sz st i | ns a i IH | a ns IH | inner rc IH | a rc c t e IHt IHe | a cns e IHc IHe
    | sr c body a IH | se cs d a IHc IHd | a t | a c t | a t] using node_ind'; try done.
  - rewrite remove_continue_MultiNode. simpl. by apply skipped_at_end.
  - rewrite remove_continue_Sequence. simpl. by apply skipped_at_end.
  - simpl. f_equal.
    + destruct t as [x|]; simpl; [by apply IHt | done].
    + destruct e as [x|]; simpl; [by apply IHe | done].
  - simpl. f_equal.
    + induction IHc as [|[c x] l Hx _ IHl]; simpl in *; [done|]. by rewrite Hx, IHl.
    + destruct e as [x|]; simpl; [by apply IHe | done].
Qed.

(** *** The walk that rewrites jumps to breaks *)

Section BreaksProperties.

Variable claripy_ast_from_ail_condition : condition -> cond.
Variable successor_addrs : gset Z.

Abbreviation breaks_walk :=
  (rewrite_breaks_walk claripy_ast_from_ail_condition successor_addrs).

Fixpoint sequence_children (ns : list node) : result (list node) :=
  match ns with
  | [] => Ok []
  | x :: rest =>
      r <~ breaks_walk (next_sibling_addr rest) x ;;
      rs <~ sequence_children rest ;;
      Ok (r ++ rs)
  end.

Fixpoint multinode_children (ns : list node) : result (list node) :=
  match ns with
  | [] => Ok []
  | x :: rest =>
      r <~ breaks_walk None x ;;
      rs <~ multinode_children rest ;;
      Ok (r ++ rs)
  end.

Fixpoint cascading_pairs (cns : list (condition * node)) : result (list (condition * node)) :=
  match cns with
  | [] => Ok []
  | (c, x) :: rest =>
      x' <~ slot_result x (breaks_walk None x) ;;
      rest' <~ cascading_pairs rest ;;
      Ok ((c, x') :: rest')
  end.

Lemma breaks_walk_Sequence next a ns :
  breaks_walk next (SequenceNode a ns)
  = (ns' <~ sequence_children ns ;; Ok [SequenceNode a ns']).
Proof. reflexivity. Qed.

Lemma breaks_walk_MultiNode next ns a i :
  breaks_walk next (MultiNode ns a i)
  = (ns' <~ multinode_children ns ;; Ok [MultiNode ns' a i]).
Proof. reflexivity. Qed.

Lemma breaks_walk_Cascading next a cns e :
  breaks_walk next (CascadingConditionNode a cns e)
  = (cns' <~ cascading_pairs cns ;;
     e' <~ opt_slot_result (breaks_walk None) e ;;
     Ok [CascadingConditionNode a cns' e']).
Proof. reflexivity. Qed.

Lemma bind_Ok {A B : Type} (r : result A) (k : A -> result B) (b : B) :
  bind r k = Ok b -> exists a, r = Ok a /\ k a = Ok b.
Proof. destruct r as [a|e]; simpl; [by exists a | done]. Qed.

Lemma loop_create_break_node_skipped stmt b :
  loop_create_break_node claripy_ast_from_ail_condition stmt successor_addrs = Ok (Some b) ->
  skipped_subtrees true b = [].
Proof.
  unfold loop_create_break_node. destruct stmt as [? target ? ? | ? ? t f ? ? ? | ? ?].
  - intros H. apply bind_Ok in H as (v & _ & H). by injection H as <-.
  - intros H. apply bind_Ok in H as (tv & _ & H). apply bind_Ok in H as (fv & _ & H).
    repeat case_match; try discriminate H; by injection H as <-.
  - discriminate.
Qed.

Lemma sub_block_skipped stmts end_ idx :
  flat_map (skipped_subtrees true) (sub_block stmts end_ idx) = [].
Proof. by destruct stmts. Qed.

Lemma scan_statements_skipped statements idx next todo stmt_idx new_nodes k out k' :
  flat_map (skipped_subtrees true) new_nodes = [] ->
  scan_statements claripy_ast_from_ail_condition successor_addrs statements idx next
    todo stmt_idx new_nodes k = Ok (out, k') ->
  flat_map (skipped_subtrees true) out = [].
Proof.
  revert stmt_idx new_nodes k.
  induction todo as [|stmt todo IH]; intros stmt_idx new_nodes k Hnew H.
  - simpl in H. by injection H as <- <-.
  - simpl in H.
    destruct (negb (is_jump_stmt stmt) || jumps_to_next_sibling next stmt);
      [by eapply IH|].
    destruct (existsb _ (extract_jump_targets stmt)); [|by eapply IH].
    apply bind_Ok in H as (b & Hb & H).
    eapply IH; [|exact H].
    rewrite flat_map_app.
    assert (Hb' : flat_map (skipped_subtrees true)
                    match b with Some b0 => [b0] | None => [] end = []).
    { destruct b as [b0|]; [|done]. simpl.
      by rewrite (loop_create_break_node_skipped _ _ Hb). }
    rewrite Hb', app_nil_r.
    destruct (k <? stmt_idx)%nat; [|done].
    by rewrite flat_map_app, Hnew, sub_block_skipped.
Qed.

Lemma rewrite_conditional_jump_to_break_skipped next a sz st i l :
  rewrite_conditional_jump_to_break claripy_ast_from_ail_condition successor_addrs next
    (Block a sz st i) = Ok l ->
  flat_map (skipped_subtrees true) l = [].
Proof.
  unfold rewrite_conditional_jump_to_break. intros H.
  apply bind_Ok in H as ([new_nodes k] & Hscan & H).
  apply scan_statements_skipped in Hscan; [|done].
  destruct new_nodes as [|n0 new_nodes]; [by injection H as <-|].
  destruct (k <? length st - 1)%nat; injection H as <-; simpl in Hscan |- *;
    rewrite ?flat_map_app, ?sub_block_skipped, ?app_nil_r; exact Hscan.
Qed.

Lemma slot_result_skipped child r c' :
  (forall l, r = Ok l -> flat_map (skipped_subtrees true) l = skipped_subtrees true child) ->
  slot_result child r = Ok c' ->
  skipped_subtrees true c' = skipped_subtrees true child.
Proof.
  intros Hr H. unfold slot_result in H. apply bind_Ok in H as (l & Hl & H).
  injection H as <-. rewrite skipped_in_slot. by apply Hr.
Qed.

Lemma opt_slot_result_skipped (t t' : option node) :
  (forall x, t = Some x ->
     forall next l, breaks_walk next x = Ok l ->
       flat_map (skipped_subtrees true) l = skipped_subtrees true x) ->
  opt_slot_result (breaks_walk None) t = Ok t' ->
  from_option (skipped_subtrees true) [] t' = from_option (skipped_subtrees true) [] t.
Proof.
  intros IH H. destruct t as [x|]; simpl in H; [|by injection H as <-].
  apply bind_Ok in H as (c' & Hc & H). injection H as <-. simpl.
  eapply slot_result_skipped; [|exact Hc]. intros l Hl. by eapply IH.
Qed.

Lemma breaks_walk_skipped n :
  forall next l,
    breaks_walk next n = Ok l ->
    flat_map (skipped_subtrees true) l = skipped_subtrees true n.
Proof.
  induction n as
    [a sz st i | ns a i IH | a ns IH | inner rc IH | a rc c t e IHt IHe | a cns e IHc IHe
    | sr c body a IH | se cs d a IHc IHd | a t | a c t | a t] using node_ind';
    intros next l H.
  - by apply rewrite_conditional_jump_to_break_skipped in H.
  - rewrite breaks_walk_MultiNode in H. apply bind_Ok in H as (ns' & Hns & H).
    injection H as <-. simpl. rewrite app_nil_r.
    revert ns' Hns. induction IH as [|x ns Hx _ IHns]; intros ns' Hns; simpl in Hns.
    + by injection Hns as <-.
    + apply bind_Ok in Hns as (r & Hr & Hns). apply bind_Ok in Hns as (rs & Hrs & Hns).
      injection Hns as <-. rewrite flat_map_app. simpl.
      by rewrite (Hx _ _ Hr), (IHns _ Hrs).
  - rewrite breaks_walk_Sequence in H. apply bind_Ok in H as (ns' & Hns & H).
    injection H as <-. simpl. rewrite app_nil_r.
    revert ns' Hns. induction IH as [|x ns Hx _ IHns]; intros ns' Hns; simpl in Hns.
    + by injection Hns as <-.
    + apply bind_Ok in Hns as (r & Hr & Hns). apply bind_Ok in Hns as (rs & Hrs & Hns).
      injection Hns as <-. rewrite flat_map_app. simpl.
      by rewrite (Hx _ _ Hr), (IHns _ Hrs).
  - simpl in H. apply bind_Ok in H as (inner' & Hi & H). injection H as <-.
    simpl. rewrite app_nil_r.
    eapply slot_result_skipped; [|exact Hi]. intros l Hl. by eapply IH.
  - simpl in H. apply bind_Ok in H as (t' & Ht & H). apply bind_Ok in H as (e' & He & H).
    injection H as <-. simpl. rewrite app_nil_r.
    by rewrite (opt_slot_result_skipped t t' IHt Ht), (opt_slot_result_skipped e e' IHe He).
  - rewrite breaks_walk_Cascading in H.
    apply bind_Ok in H as (cns' & Hc & H). apply bind_Ok in H as (e' & He & H).
    injection H as <-. simpl. rewrite app_nil_r.
    rewrite (opt_slot_result_skipped e e' IHe He). f_equal.
    revert cns' Hc. induction IHc as [|[c x] cns Hx _ IHcns]; intros cns' Hc; simpl in Hc.
    + by injection Hc as <-.
    + apply bind_Ok in Hc as (x' & Hx' & Hc). apply bind_Ok in Hc as (rest' & Hrest & Hc).
      injection Hc as <-. simpl. rewrite (IHcns _ Hrest). f_equal.
      eapply slot_result_skipped; [|exact Hx']. intros l Hl. by eapply Hx.
  - simpl in H. by injection H as <-.
  - simpl in H. injection H as <-. simpl. done.
  - simpl in H. by injection H as <-.
  - simpl in H. by injection H as <-.
  - simpl in H. by injection H as <-.
Qed.

End BreaksProperties.

(** C10: the nested loops of a loop body are the same subtrees, in the same
    order, after the jump-to-continue pass, and its nested loops and
    switch-cases are the same subtrees after the jump-to-break pass: no
    statement inside them is touched, whatever it jumps to. *)
Theorem nested_loops_and_switches_untouched :
  forall (conv : condition -> cond),
    (forall addr nodes loop_node,
        skipped_subtrees false (rewrite_jumps_to_continues conv addr nodes loop_node)
        = skipped_subtrees false (SequenceNode addr nodes))
    /\ (forall successor_addrs body body',
           rewrite_conditional_jumps_to_breaks conv successor_addrs body = Ok body' ->
           skipped_subtrees true body' = skipped_subtrees true body).
Proof.
  intros conv. split.
  - intros addr nodes loop_node. unfold rewrite_jumps_to_continues.
    rewrite remove_continue_skipped. unfold rewrite_jumps_to_continues_walk. simpl.
    rewrite flat_map_flat_map. apply flat_map_ext_Forall, Forall_forall.
    intros x _. apply rewrite_jumps_walk_skipped.
  - intros successor_addrs body body' H.
    unfold rewrite_conditional_jumps_to_breaks in H.
    destruct body; try discriminate H;
      (eapply slot_result_skipped; [|exact H]);
      intros l Hl; by eapply breaks_walk_skipped.
Qed.

Definition body_with_inner_loop : node :=
  SequenceNode (Some 16)
    [goto_block 16 256;
     LoopNode SortWhile None (SequenceNode (Some 32) [goto_block 32 256; goto_block 40 16])
       (Some 32);
     SwitchCaseNode (OtherExpr None 5) [(KeyInt 0, goto_block 48 256)] None (Some 44)].

Lemma nested_loops_and_switches_untouched_witness :
  skipped_subtrees false
    (rewrite_jumps_to_continues sample_conversion (Some 16)
       [goto_block 20 16;
        LoopNode SortWhile None
          (SequenceNode (Some 32) [goto_block 32 256; goto_block 40 16]) (Some 32);
        goto_block 60 16] None)
  = skipped_subtrees false
      (SequenceNode (Some 16)
         [goto_block 20 16;
          LoopNode SortWhile None
            (SequenceNode (Some 32) [goto_block 32 256; goto_block 40 16]) (Some 32);
          goto_block 60 16])
  /\ skipped_subtrees true
       (SequenceNode (Some 16)
          [Block 16 4 [] None; Block 16 2 [OtherStmt None 16] None; BreakNode 18 256;
           LoopNode SortWhile None
             (SequenceNode (Some 32) [goto_block 32 256; goto_block 40 16]) (Some 32);
           SwitchCaseNode (OtherExpr None 5) [(KeyInt 0, goto_block 48 256)] None (Some 44)])
     = skipped_subtrees true body_with_inner_loop.
Proof.
  destruct (nested_loops_and_switches_untouched sample_conversion) as [H1 H2].
  split.
  - apply H1.
  - apply (H2 {[ 256 ]} body_with_inner_loop). vm_compute. reflexivity.
Defined.

(** ** Jumps to continues *)








Section ContinuesProperties.

Variable continue_node_addr : option Z.


End ContinuesProperties.

Section ContinueAtEnd.

Variable claripy_ast_from_ail_condition : condition -> cond.
Variable continue_node_addr : option Z.

Abbreviation walk_to_continues :=
  (rewrite_jumps_walk claripy_ast_from_ail_condition continue_node_addr).





End ContinueAtEnd.

(** *** The walk in place *)

(** "Whose trailing jump statement targets the loop's continue address":
    the last statement is a jump to that address, or a conditional jump with
    that address as one of its targets. *)
Definition jumps_to_continue (continue_node_addr : option Z) (x : node) : bool :=
  match x with
  | Block _ _ statements _ =>
      match last statements with
      | Some (Jump _ target _ _) => const_is target continue_node_addr
      | Some (ConditionalJump _ _ true_target false_target _ _ _) =>
          opt_const_is true_target continue_node_addr
          || opt_const_is false_target continue_node_addr
      | _ => false
      end
  | _ => false
  end.

(** Outside nested loops, every block that jumps to the continue address is
    a child of a sequence or of a MultiNode: a block in a slot of another
    parent does not jump there. *)
Fixpoint in_containers (continue_node_addr : option Z) (n : node) : bool :=
  match n with
  | Block _ _ _ _ => negb (jumps_to_continue continue_node_addr n)
  | LoopNode _ _ _ _ | BreakNode _ _ | ConditionalBreakNode _ _ _ | ContinueNode _ _ => true
  | SequenceNode _ ns =>
      forallb (fun x => is_Block x || in_containers continue_node_addr x) ns
  | MultiNode ns _ _ =>
      forallb (fun x => is_Block x || in_containers continue_node_addr x) ns
  | CodeNode inner _ => in_containers continue_node_addr inner
  | ConditionNode _ _ _ t e =>
      from_option (in_containers continue_node_addr) true t
      && from_option (in_containers continue_node_addr) true e
  | CascadingConditionNode _ cns e =>
      forallb (fun cn => in_containers continue_node_addr (snd cn)) cns
      && from_option (in_containers continue_node_addr) true e
  | SwitchCaseNode _ cs d _ =>
      forallb (fun kc => in_containers continue_node_addr (snd kc)) cs
      && from_option (in_containers continue_node_addr) true d
  end.




Section InPlaceProperties.

Variable claripy_ast_from_ail_condition : condition -> cond.
Variable continue_node_addr : option Z.

Abbreviation walk_in_place :=
  (InPlace.rewrite_jumps_walk claripy_ast_from_ail_condition continue_node_addr).
Abbreviation splice :=
  (rewrite_jumps_walk claripy_ast_from_ail_condition continue_node_addr).

(** A sequence with its address, or a MultiNode with its address and index. *)
Section Container.

Variable mk : list node -> node.
Hypothesis insert_node_mk :
  forall l n i label,
    insert_node (mk l) InsertAfter n i label
    = Some (mk (take (S i) l ++ n :: drop (S i) l)).
Hypothesis set_child_mk :
  forall l i child, set_child (mk l) i child = mk (<[i := child]> l).





End Container.










End InPlaceProperties.




(** A block that jumps to the continue address from a branch of a condition
    makes its handler insert into the condition node, which [insert_node]
    as described does not cover: the outcome is left open. *)
Example rewrite_jumps_to_continues_in_a_branch :
  in_containers (Some 16)
    (SequenceNode (Some 16)
       [ConditionNode (Some 20) None (ClaripyCond (BoolS 2)) (Some (goto_block 20 16)) None])
  = false
  /\ InPlace.rewrite_jumps_to_continues sample_conversion (Some 16)
       [ConditionNode (Some 20) None (ClaripyCond (BoolS 2)) (Some (goto_block 20 16)) None]
       None
     = None.
Proof. split; reflexivity. Qed.


(** ** Reordering switch cases *)

Section DiGraphFacts.

Context {K : Type} `{EqDecision K}.

Implicit Types g : DiGraph K.

(** At most one edge out of and one edge into each node, all edges between
    nodes of the graph. *)
Record linear (g : DiGraph K) : Prop := mkLinear {
  edges_in_nodes : forall u v, (u, v) ∈ g_edges g -> u ∈ g_nodes g /\ v ∈ g_nodes g;
  out_at_most_one : forall u, (out_degree g u <= 1)%nat;
  in_at_most_one : forall v, (in_degree g v <= 1)%nat
}.

Definition succ_of g (u : K) : option K := head (successors g u).

Lemma elem_of_successors g u v : v ∈ successors g u <-> (u, v) ∈ g_edges g.
Proof.
  unfold successors. rewrite list_elem_of_fmap. split.
  - intros ([u' v'] & -> & Hin). apply list_elem_of_filter in Hin as [Hu Hin].
    simpl in *. by subst.
  - intros Hin. exists (u, v). split; [done|]. by apply list_elem_of_filter.
Qed.

Lemma elem_of_predecessors g u v : u ∈ predecessors g v <-> (u, v) ∈ g_edges g.
Proof.
  unfold predecessors. rewrite list_elem_of_fmap. split.
  - intros ([u' v'] & -> & Hin). apply list_elem_of_filter in Hin as [Hu Hin].
    simpl in *. by subst.
  - intros Hin. exists (u, v). split; [done|]. by apply list_elem_of_filter.
Qed.

Lemma succ_of_edge g u v : succ_of g u = Some v -> (u, v) ∈ g_edges g.
Proof. intros Hs. apply elem_of_successors. by apply head_Some_elem_of. Qed.

Lemma edge_succ_of g u v : linear g -> (u, v) ∈ g_edges g -> succ_of g u = Some v.
Proof.
  intros Hl Hin. apply elem_of_successors in Hin.
  pose proof (out_at_most_one g Hl u) as Hout. unfold out_degree, succ_of in *.
  destruct (successors g u) as [|x [|y l]]; simpl in *; try lia.
  - by apply elem_of_nil in Hin.
  - apply list_elem_of_singleton in Hin. by subst.
Qed.

Lemma succ_of_inj g u u' v :
  linear g -> succ_of g u = Some v -> succ_of g u' = Some v -> u = u'.
Proof.
  intros Hl H1 H2. apply succ_of_edge, elem_of_predecessors in H1, H2.
  pose proof (in_at_most_one g Hl v) as Hin. unfold in_degree in Hin.
  destruct (predecessors g v) as [|x [|y l]]; simpl in *; try lia.
  - by apply elem_of_nil in H1.
  - apply list_elem_of_singleton in H1, H2. congruence.
Qed.

Lemma in_degree_zero g v : in_degree g v = 0%nat <-> forall u, (u, v) ∉ g_edges g.
Proof.
  unfold in_degree. split.
  - intros H0 u Hin. apply elem_of_predecessors in Hin.
    destruct (predecessors g v); [by apply elem_of_nil in Hin | done].
  - intros Hno. destruct (predecessors g v) as [|u l] eqn:E; [done|].
    exfalso. apply (Hno u). apply elem_of_predecessors. rewrite E. by left.
Qed.

(** [n] steps along the edges. *)
Fixpoint steps g (n : nat) (u : K) : option K :=
  match n with
  | O => Some u
  | S n' => match succ_of g u with Some v => steps g n' v | None => None end
  end.

Lemma steps_add g a b u : steps g (a + b) u = steps g a u ≫= steps g b.
Proof.
  revert u. induction a as [|a IH]; intros u; simpl; [done|].
  destruct (succ_of g u); [apply IH | done].
Qed.

Lemma steps_snoc g n u v w :
  steps g n u = Some v -> succ_of g v = Some w -> steps g (S n) u = Some w.
Proof.
  intros Hn Hs. replace (S n) with (n + 1)%nat by lia.
  rewrite steps_add, Hn. simpl. by rewrite Hs.
Qed.

Lemma steps_in_nodes g n u v :
  linear g -> u ∈ g_nodes g -> steps g n u = Some v -> v ∈ g_nodes g.
Proof.
  intros Hl. revert u. induction n as [|n IH]; intros u Hu Hs; simpl in Hs.
  - by injection Hs as <-.
  - destruct (succ_of g u) as [w|] eqn:E; [|done].
    apply (IH w); [|done]. apply succ_of_edge in E.
    by apply (edges_in_nodes g Hl) in E as [_ ?].
Qed.

(** No walk of one step or more comes back to where it started. *)
Definition acyclic g : Prop := forall u n, steps g (S n) u <> Some u.

Lemma cycle_goes_on g u n :
  steps g (S n) u = Some u -> forall m, steps g m u <> None.
Proof.
  intros Hc.
  assert (Hmul : forall k, steps g (k * S n) u = Some u).
  { induction k as [|k IH]; [done|].
    replace (S k * S n)%nat with (S n + k * S n)%nat by lia.
    rewrite steps_add, Hc. simpl. exact IH. }
  intros m Hm.
  assert (Hlater : steps g (m + (m * S n - m)) u = None).
  { rewrite steps_add, Hm. done. }
  replace (m + (m * S n - m))%nat with (m * S n)%nat in Hlater by nia.
  by rewrite Hmul in Hlater.
Qed.

Lemma length_NoDup_in_nodes g (l : list K) :
  NoDup l -> (forall x, x ∈ l -> x ∈ g_nodes g) -> (length l <= length (g_nodes g))%nat.
Proof.
  intros Hnd Hin. apply submseteq_length. by apply NoDup_submseteq.
Qed.

(** *** [find_cycle] *)

Lemma walk_to_cycle_has_successor g fuel cur active final :
  cur ∈ active ->
  (forall x, x ∈ active -> x = cur \/ successors g x <> []) ->
  walk_to_cycle g fuel cur active = Some final ->
  successors g final <> [].
Proof.
  revert cur active. induction fuel as [|fuel IH]; intros cur active Hcur Hact Hw; [done|].
  simpl in Hw. destruct (successors g cur) as [|hd tl] eqn:Es; [done|].
  destruct (bool_decide (hd ∈ active)) eqn:Eb.
  - injection Hw as <-. apply bool_decide_eq_true_1 in Eb.
    destruct (Hact hd Eb) as [-> | Hne]; [by rewrite Es | done].
  - apply (IH hd (hd :: active)); [by left | | done].
    intros x Hx. apply elem_of_cons in Hx as [-> | Hx]; [by left | right].
    destruct (Hact x Hx) as [-> | Hne]; [by rewrite Es | done].
Qed.

Lemma walk_to_cycle_complete g fuel cur active :
  linear g ->
  NoDup active ->
  (forall x, x ∈ active -> x ∈ g_nodes g) ->
  (forall m, steps g m cur <> None) ->
  (length (g_nodes g) < fuel + length active)%nat ->
  is_Some (walk_to_cycle g fuel cur active).
Proof.
  intros Hl. revert cur active.
  induction fuel as [|fuel IH]; intros cur active Hnd Hin Hon Hlen.
  { pose proof (length_NoDup_in_nodes g active Hnd Hin). simpl in Hlen. lia. }
  simpl. pose proof (Hon 1%nat) as H1. simpl in H1. unfold succ_of in H1.
  destruct (successors g cur) as [|hd tl] eqn:Es; [done|].
  destruct (bool_decide (hd ∈ active)) eqn:Eb; [done|].
  apply bool_decide_eq_false_1 in Eb.
  assert (Hedge : (cur, hd) ∈ g_edges g).
  { apply elem_of_successors. rewrite Es. by left. }
  apply IH.
  - by constructor.
  - intros x Hx. apply elem_of_cons in Hx as [-> | Hx]; [|by apply Hin].
    by apply (edges_in_nodes g Hl) in Hedge as [_ ?].
  - intros m Hm. apply (Hon (S m)). simpl. unfold succ_of. by rewrite Es.
  - simpl. lia.
Qed.

Lemma find_cycle_Some_edge g u v : find_cycle g = Some (u, v) -> (u, v) ∈ g_edges g.
Proof.
  unfold find_cycle. intros H.
  destruct (list_find _ (g_nodes g)) as [[i start]|]; [|done].
  destruct (walk_to_cycle g _ start [start]) as [final|]; [|done].
  destruct (successors g final) as [|hd tl] eqn:Es; [done|].
  injection H as <- <-. apply elem_of_successors. rewrite Es. by left.
Qed.

Lemma find_cycle_None_acyclic g : linear g -> find_cycle g = None -> acyclic g.
Proof.
  intros Hl Hnone u n Hc.
  assert (Hu : u ∈ g_nodes g).
  { simpl in Hc. destruct (succ_of g u) as [w|] eqn:E; [|done].
    apply succ_of_edge in E. by apply (edges_in_nodes g Hl) in E as [? _]. }
  assert (Hwalk : is_Some (walk_to_cycle g (length (g_nodes g)) u [u])).
  { apply walk_to_cycle_complete; try done.
    - apply NoDup_singleton.
    - intros x Hx. apply list_elem_of_singleton in Hx. by subst.
    - by eapply cycle_goes_on.
    - simpl. lia. }
  unfold find_cycle in Hnone.
  destruct (list_find _ (g_nodes g)) as [[i start]|] eqn:Ef.
  - apply list_find_Some in Ef as (_ & [final Hfinal] & _).
    rewrite Hfinal in Hnone.
    assert (Hs : successors g final <> []).
    { eapply (walk_to_cycle_has_successor g _ start [start]); [by left | | exact Hfinal].
      intros x Hx. apply list_elem_of_singleton in Hx. by left. }
    by destruct (successors g final).
  - apply list_find_None in Ef. rewrite Forall_forall in Ef. by apply (Ef u).
Qed.

(** *** Removing an edge *)

Lemma remove_edge_edges g u v e :
  e ∈ g_edges (remove_edge g u v) <-> e ∈ g_edges g /\ e <> (u, v).
Proof. unfold remove_edge. simpl. rewrite list_elem_of_filter. tauto. Qed.

Lemma filter_filter_length {A : Type} (P Q : A -> Prop)
    `{forall x, Decision (P x)} `{forall x, Decision (Q x)} (l : list A) :
  (length (filter P (filter Q l)) <= length (filter P l))%nat.
Proof.
  induction l as [|x l IH]; [done|].
  destruct (decide (Q x)) as [HQ|HQ].
  - rewrite (filter_cons_True Q) by done.
    destruct (decide (P x)).
    + rewrite !(filter_cons_True P) by done. simpl. lia.
    + by rewrite !(filter_cons_False P) by done.
  - rewrite (filter_cons_False Q) by done.
    destruct (decide (P x)).
    + rewrite (filter_cons_True P) by done. simpl. lia.
    + by rewrite (filter_cons_False P) by done.
Qed.

Lemma remove_edge_linear g u v : linear g -> linear (remove_edge g u v).
Proof.
  intros Hl. split.
  - intros a b Hin. apply remove_edge_edges in Hin as [Hin _].
    by apply (edges_in_nodes g Hl).
  - intros a. pose proof (out_at_most_one g Hl a) as Ha.
    unfold out_degree, successors in *. rewrite length_map in *. simpl.
    etrans; [apply filter_filter_length | done].
  - intros a. pose proof (in_at_most_one g Hl a) as Ha.
    unfold in_degree, predecessors in *. rewrite length_map in *. simpl.
    etrans; [apply filter_filter_length | done].
Qed.

Lemma break_loops_spec fuel g :
  linear g ->
  (length (g_edges g) < fuel)%nat ->
  exists g',
    break_loops fuel g = Some g'
    /\ g_nodes g' = g_nodes g
    /\ linear g'
    /\ acyclic g'.
Proof.
  revert g. induction fuel as [|fuel IH]; intros g Hl Hlen; [lia|].
  simpl. destruct (find_cycle g) as [[u v]|] eqn:Ef.
  - destruct (IH (remove_edge g u v)) as (g' & Hb & Hn & Hl' & Ha).
    + by apply remove_edge_linear.
    + apply find_cycle_Some_edge in Ef.
      assert (length (g_edges (remove_edge g u v)) < length (g_edges g))%nat; [|lia].
      unfold remove_edge. simpl. apply (length_filter_lt _ _ (u, v)); [done|].
      intros Hne. by apply Hne.
    + exists g'. by rewrite Hb, Hn.
  - exists g. split; [done|]. split; [done|]. split; [done|].
    by apply find_cycle_None_acyclic.
Qed.

(** *** Chains *)

Lemma follow_successors_spec g fuel cur visited :
  linear g -> acyclic g ->
  NoDup visited ->
  (forall x, x ∈ visited -> x ∈ g_nodes g) ->
  (forall x, x ∈ visited -> exists j, steps g j x = Some cur) ->
  (length (g_nodes g) < fuel + length visited)%nat ->
  exists chain,
    follow_successors g fuel cur visited = Some chain
    /\ (forall k, k ∈ chain <-> exists i, steps g (S i) cur = Some k)
    /\ (forall k, k ∈ chain -> k ∈ g_nodes g).
Proof.
  intros Hl Ha. revert cur visited.
  induction fuel as [|fuel IH]; intros cur visited Hnd Hin Hreach Hlen.
  { pose proof (length_NoDup_in_nodes g visited Hnd Hin). simpl in Hlen. lia. }
  simpl. destruct (successors g cur) as [|hd tl] eqn:Es.
  - exists []. split; [done|]. split; [|intros k Hk; by apply elem_of_nil in Hk].
    intros k. split; [intros Hk; by apply elem_of_nil in Hk|].
    intros [i Hi]. simpl in Hi. unfold succ_of in Hi. by rewrite Es in Hi.
  - assert (Hs : succ_of g cur = Some hd) by (unfold succ_of; by rewrite Es).
    assert (Hhd : hd ∈ g_nodes g).
    { apply succ_of_edge in Hs. by apply (edges_in_nodes g Hl) in Hs as [_ ?]. }
    destruct (bool_decide (hd ∈ visited)) eqn:Eb.
    { apply bool_decide_eq_true_1 in Eb. destruct (Hreach hd Eb) as [j Hj].
      exfalso. apply (Ha hd j). by eapply steps_snoc. }
    apply bool_decide_eq_false_1 in Eb.
    destruct (IH hd (hd :: visited)) as (chain & Hf & Hmem & Hsub).
    + by constructor.
    + intros x Hx. apply elem_of_cons in Hx as [-> | Hx]; [done | by apply Hin].
    + intros x Hx. apply elem_of_cons in Hx as [-> | Hx]; [by exists 0%nat|].
      destruct (Hreach x Hx) as [j Hj]. exists (S j). by eapply steps_snoc.
    + simpl. lia.
    + rewrite Hf. exists (hd :: chain). split; [done|]. split.
      * intros k. rewrite elem_of_cons, Hmem. split.
        -- intros [-> | [i Hi]].
           ++ exists 0%nat. simpl. by rewrite Hs.
           ++ exists (S i). change (steps g (S (S i)) cur)
                with (match succ_of g cur with
                      | Some v => steps g (S i) v
                      | None => None
                      end). by rewrite Hs.
        -- intros [[|i] Hi].
           ++ left. simpl in Hi. rewrite Hs in Hi. by injection Hi as <-.
           ++ right. exists i.
              change (steps g (S (S i)) cur)
                with (match succ_of g cur with
                      | Some v => steps g (S i) v
                      | None => None
                      end) in Hi. by rewrite Hs in Hi.
      * intros k Hk. apply elem_of_cons in Hk as [-> | Hk]; [done | by apply Hsub].
Qed.

Lemma steps_bound g n u k visited :
  linear g -> acyclic g ->
  NoDup visited ->
  (forall x, x ∈ visited -> x ∈ g_nodes g) ->
  (forall x, x ∈ visited -> exists j, steps g (S j) x = Some u) ->
  u ∈ g_nodes g ->
  steps g n u = Some k ->
  (n + length visited < length (g_nodes g))%nat.
Proof.
  intros Hl Ha. revert u visited.
  induction n as [|n IH]; intros u visited Hnd Hin Hreach Hu Hs.
  - assert (Hfresh : u ∉ visited).
    { intros Hx. destruct (Hreach u Hx) as [j Hj]. by apply (Ha u j). }
    assert (length (u :: visited) <= length (g_nodes g))%nat.
    { apply length_NoDup_in_nodes; [by constructor|].
      intros x Hx. apply elem_of_cons in Hx as [-> | Hx]; [done | by apply Hin]. }
    simpl in *. lia.
  - assert (Hfresh : u ∉ visited).
    { intros Hx. destruct (Hreach u Hx) as [j Hj]. by apply (Ha u j). }
    simpl in Hs. destruct (succ_of g u) as [w|] eqn:Ew; [|done].
    assert (Hw : w ∈ g_nodes g).
    { apply succ_of_edge in Ew. by apply (edges_in_nodes g Hl) in Ew as [_ ?]. }
    specialize (IH w (u :: visited)). simpl in IH.
    assert (n + S (length visited) < length (g_nodes g))%nat; [|lia].
    apply IH; try done.
    + by constructor.
    + intros x Hx. apply elem_of_cons in Hx as [-> | Hx]; [done | by apply Hin].
    + intros x Hx. apply elem_of_cons in Hx as [-> | Hx].
      * exists 0%nat. simpl. by rewrite Ew.
      * destruct (Hreach x Hx) as [j Hj]. exists (S j). by eapply steps_snoc.
Qed.

(** Every node is reached from a node without predecessor. *)
Lemma reached_from_start g k :
  linear g -> acyclic g -> k ∈ g_nodes g ->
  exists r i, r ∈ g_nodes g /\ in_degree g r = 0%nat /\ steps g i r = Some k.
Proof.
  intros Hl Ha Hk.
  assert (Hback : forall m n u,
    (n + m = length (g_nodes g))%nat -> u ∈ g_nodes g -> steps g n u = Some k ->
    exists r i, r ∈ g_nodes g /\ in_degree g r = 0%nat /\ steps g i r = Some k).
  { induction m as [|m IH]; intros n u Hnm Hu Hs.
    - pose proof (steps_bound g n u k [] Hl Ha (NoDup_nil_2 (A:=K))) as Hb.
      simpl in Hb. assert (n + 0 < length (g_nodes g))%nat; [|lia].
      apply Hb; try done; intros x Hx; by apply elem_of_nil in Hx.
    - destruct (in_degree g u) as [|d] eqn:Ed; [by exists u, n|].
      unfold in_degree in Ed.
      destruct (predecessors g u) as [|p ps] eqn:Ep; [done|].
      assert (Hedge : (p, u) ∈ g_edges g).
      { apply elem_of_predecessors. rewrite Ep. by left. }
      apply (IH (S n) p); [lia | |].
      + by apply (edges_in_nodes g Hl) in Hedge as [? _].
      + simpl. by rewrite (edge_succ_of g p u Hl Hedge). }
  by apply (Hback (length (g_nodes g)) 0%nat k).
Qed.

(** *** Adding an edge *)

Lemma add_node_elem (k x : K) (ns : list K) : x ∈ add_node k ns <-> x = k \/ x ∈ ns.
Proof.
  unfold add_node. destruct (bool_decide (k ∈ ns)) eqn:E.
  - apply bool_decide_eq_true_1 in E. split; [by right | by intros [-> | ?]].
  - rewrite elem_of_app, list_elem_of_singleton. tauto.
Qed.

Lemma out_degree_zero_not_node g u :
  linear g -> u ∉ g_nodes g -> out_degree g u = 0%nat.
Proof.
  intros Hl Hu. unfold out_degree.
  destruct (successors g u) as [|v l] eqn:Es; [done|]. exfalso. apply Hu.
  assert (Hedge : (u, v) ∈ g_edges g) by (apply elem_of_successors; rewrite Es; by left).
  by apply (edges_in_nodes g Hl) in Hedge as [? _].
Qed.

Lemma in_degree_zero_not_node g v :
  linear g -> v ∉ g_nodes g -> in_degree g v = 0%nat.
Proof.
  intros Hl Hv. unfold in_degree.
  destruct (predecessors g v) as [|u l] eqn:Es; [done|]. exfalso. apply Hv.
  assert (Hedge : (u, v) ∈ g_edges g) by (apply elem_of_predecessors; rewrite Es; by left).
  by apply (edges_in_nodes g Hl) in Hedge as [_ ?].
Qed.

Lemma add_edge_linear g u v :
  linear g -> out_degree g u = 0%nat -> in_degree g v = 0%nat -> linear (add_edge g u v).
Proof.
  intros Hl Hout Hin.
  assert (Hnew : (u, v) ∉ g_edges g).
  { intros Hedge. apply elem_of_successors in Hedge. unfold out_degree in Hout.
    destruct (successors g u); [by apply elem_of_nil in Hedge | done]. }
  assert (He : g_edges (add_edge g u v) = g_edges g ++ [(u, v)]).
  { unfold add_edge. simpl. by rewrite bool_decide_eq_false_2. }
  split.
  - intros a b Hab. rewrite He in Hab. unfold add_edge. simpl.
    rewrite !add_node_elem. apply elem_of_app in Hab as [Hab | Hab].
    + apply (edges_in_nodes g Hl) in Hab as [? ?]. tauto.
    + apply list_elem_of_singleton in Hab. injection Hab as -> ->. tauto.
  - intros a. unfold out_degree, successors in *. rewrite He, filter_app, map_app, length_app.
    destruct (decide (a = u)) as [-> | Hne].
    + rewrite Hout. rewrite filter_cons_True by done. simpl. lia.
    + rewrite filter_cons_False by (simpl; congruence). simpl.
      pose proof (out_at_most_one g Hl a) as Ha. unfold out_degree, successors in Ha. lia.
  - intros b. unfold in_degree, predecessors in *. rewrite He, filter_app, map_app, length_app.
    destruct (decide (b = v)) as [-> | Hne].
    + rewrite Hin. rewrite filter_cons_True by done. simpl. lia.
    + rewrite filter_cons_False by (simpl; congruence). simpl.
      pose proof (in_at_most_one g Hl b) as Hb. unfold in_degree, predecessors in Hb. lia.
Qed.

Lemma empty_graph_linear : linear (@empty_graph K).
Proof.
  split.
  - intros u v Huv. by apply elem_of_nil in Huv.
  - intros u. cbv. lia.
  - intros v. cbv. lia.
Qed.

End DiGraphFacts.

Section DictFacts.

Context {K V : Type} `{EqDecision K}.

Implicit Types d : list (K * V).

Lemma dict_set_keys k v d k' : k' ∈ (dict_set k v d).*1 <-> k' = k \/ k' ∈ d.*1.
Proof.
  induction d as [|[k0 v0] d IH]; simpl.
  - rewrite list_elem_of_singleton. split; [by left | intros [-> | Hin]; [done|]].
    by apply elem_of_nil in Hin.
  - destruct (bool_decide (k0 = k)) eqn:E; simpl; rewrite !elem_of_cons.
    + apply bool_decide_eq_true_1 in E. subst. tauto.
    + rewrite IH. tauto.
Qed.

Lemma dict_set_NoDup k v d : NoDup d.*1 -> NoDup (dict_set k v d).*1.
Proof.
  induction d as [|[k0 v0] d IH]; simpl; intros Hnd.
  - apply NoDup_singleton.
  - apply NoDup_cons in Hnd as [Hk0 Hnd].
    destruct (bool_decide (k0 = k)) eqn:E; simpl.
    + by constructor.
    + apply bool_decide_eq_false_1 in E. constructor; [|by apply IH].
      rewrite dict_set_keys. intros [-> | Hin]; done.
Qed.

Lemma dict_set_elem k v d kv : kv ∈ dict_set k v d -> kv = (k, v) \/ kv ∈ d.
Proof.
  induction d as [|[k0 v0] d IH]; simpl.
  - intros Hin. apply list_elem_of_singleton in Hin. by left.
  - destruct (bool_decide (k0 = k)) eqn:E; rewrite !elem_of_cons.
    + apply bool_decide_eq_true_1 in E. subst. tauto.
    + intros [-> | Hin]; [tauto|]. destruct (IH Hin); tauto.
Qed.

Lemma dict_get_Some_elem k v d : dict_get k d = Some v -> (k, v) ∈ d.
Proof.
  induction d as [|[k0 v0] d IH]; simpl; [done|].
  destruct (bool_decide (k0 = k)) eqn:E.
  - apply bool_decide_eq_true_1 in E. intros [= ->]. subst. by left.
  - intros Hg. right. by apply IH.
Qed.

Lemma dict_get_is_Some k d : k ∈ d.*1 -> is_Some (dict_get k d).
Proof.
  induction d as [|[k0 v0] d IH]; simpl; intros Hin.
  - by apply elem_of_nil in Hin.
  - destruct (bool_decide (k0 = k)) eqn:E; [done|].
    apply bool_decide_eq_false_1 in E.
    apply elem_of_cons in Hin as [-> | Hin]; [done | by apply IH].
Qed.

Lemma dict_set_fresh k v d : k ∉ d.*1 -> dict_set k v d = d ++ [(k, v)].
Proof.
  induction d as [|[k0 v0] d IH]; simpl; intros Hk; [done|].
  rewrite not_elem_of_cons in Hk. destruct Hk as [Hne Hk].
  rewrite bool_decide_eq_false_2 by congruence. by rewrite IH.
Qed.

Lemma filter_dict_set (P : K * V -> Prop) `{forall x, Decision (P x)} k v d :
  (forall v', ~ P (k, v')) ->
  filter P (dict_set k v d) = filter P d.
Proof.
  intros Hk. induction d as [|[k0 v0] d IH]; simpl.
  - by rewrite filter_cons_False.
  - destruct (bool_decide (k0 = k)) eqn:E.
    + apply bool_decide_eq_true_1 in E. subst.
      by rewrite !filter_cons_False.
    + destruct (decide (P (k0, v0))).
      * rewrite !filter_cons_True by done. by rewrite IH.
      * rewrite !filter_cons_False by done. by rewrite IH.
Qed.

Lemma NoDup_keys_pairs d : NoDup d.*1 -> NoDup d.
Proof. apply NoDup_fmap_1. Qed.

Lemma NoDup_keys_same_value d k v v' :
  NoDup d.*1 -> (k, v) ∈ d -> (k, v') ∈ d -> v = v'.
Proof.
  induction d as [|[k0 v0] d IH]; simpl; intros Hnd H1 H2.
  - by apply elem_of_nil in H1.
  - apply NoDup_cons in Hnd as [Hk0 Hnd].
    apply elem_of_cons in H1 as [H1 | H1], H2 as [H2 | H2].
    + congruence.
    + injection H1 as -> ->. exfalso. apply Hk0. apply list_elem_of_fmap. by exists (k0, v').
    + injection H2 as -> ->. exfalso. apply Hk0. apply list_elem_of_fmap. by exists (k0, v).
    + by apply IH.
Qed.

End DictFacts.

Lemma defaultdict_append_get {K : Type} (addr : Z) (idx : K) d addr' ids id :
  dict_get addr' (defaultdict_append addr idx d) = Some ids ->
  id ∈ ids ->
  id = idx \/ exists ids0, dict_get addr' d = Some ids0 /\ id ∈ ids0.
Proof.
  induction d as [|[a ids0] d IH]; simpl.
  - destruct (bool_decide (addr = addr')); [|done].
    intros [= <-] Hid. apply list_elem_of_singleton in Hid. by left.
  - destruct (bool_decide (a = addr)) eqn:E; simpl.
    + destruct (bool_decide (a = addr')); [|by eauto].
      intros [= <-] Hid. apply elem_of_app in Hid as [Hid | Hid].
      * right. by exists ids0.
      * apply list_elem_of_singleton in Hid. by left.
    + destruct (bool_decide (a = addr')); [by eauto | apply IH].
Qed.

Section ReorganizeProperties.

Context {K : Type} `{EqDecision K}.

Variable get_last_statement : node -> option stmt.
Variable get_last_statements : node -> option (list stmt).
Variable remove_last_statement : node -> node.
Variable collect_labels : node -> list (Z * option Z).

Implicit Types cases new_cases : list (K * ref).
Implicit Types g : DiGraph K.

Lemma collect_gotos_spec h cases a0 c0 :
  (forall kr, kr ∈ cases -> node_addr (h (snd kr)) <> None) ->
  exists a c,
    collect_gotos get_last_statement h cases a0 c0 = Ok (a, c)
    /\ (forall k, k ∈ c.*1 -> k ∈ c0.*1 \/ k ∈ cases.*1)
    /\ (forall addr ids id,
           dict_get addr a = Some ids -> id ∈ ids ->
           (exists ids0, dict_get addr a0 = Some ids0 /\ id ∈ ids0) \/ id ∈ cases.*1).
Proof.
  revert a0 c0. induction cases as [|[idx r] cases IH]; intros a0 c0 Haddr.
  - exists a0, c0. split; [done|]. split; [by left|]. intros addr ids id Hg Hid. left. by exists ids.
  - simpl. destruct (node_addr (h r)) as [addr|] eqn:Ea.
    2:{ exfalso. apply (Haddr (idx, r)); [by left | done]. }
    edestruct IH as (a & c & Hc & Hkeys & Hids).
    { intros kr Hkr. apply Haddr. by right. }
    exists a, c. split; [exact Hc|]. split.
    + intros k Hk. destruct (Hkeys k Hk) as [Hk0 | Hk0]; [|right; simpl; by right].
      destruct (get_last_statement (h r)) as [[? [] ? ?| |]|]; try by left.
      apply dict_set_keys in Hk0 as [-> | Hk0]; [right; simpl; by left | by left].
    + intros addr' ids id Hg Hid.
      destruct (Hids addr' ids id Hg Hid) as [(ids1 & Hg1 & Hid1) | Hin];
        [|right; simpl; by right].
      destruct (defaultdict_append_get _ _ _ _ _ _ Hg1 Hid1) as [-> | (ids0 & Hg0 & Hid0)].
      * right. simpl. by left.
      * left. by exists ids0.
Qed.

Lemma link_case_spec a g entry :
  linear g ->
  linear (link_case a g entry)
  /\ forall x, x ∈ g_nodes (link_case a g entry) ->
       x ∈ g_nodes g \/ x = fst entry
       \/ exists ids, dict_get (snd entry) a = Some ids /\ x ∈ ids.
Proof.
  intros Hl. unfold link_case.
  destruct (dict_get (snd entry) a) as [[|s [|s' ids]]|] eqn:Eg; try (split; [done | by left]).
  destruct (_ && _) eqn:Eb; [|split; [done | by left]].
  apply andb_true_iff in Eb as [Hout Hin]. split.
  - apply add_edge_linear; [done | |].
    + apply orb_true_iff in Hout as [Hout | Hout].
      * apply out_degree_zero_not_node; [done|]. apply negb_true_iff in Hout.
        by apply bool_decide_eq_false_1 in Hout.
      * by apply Nat.eqb_eq.
    + apply orb_true_iff in Hin as [Hin | Hin].
      * apply in_degree_zero_not_node; [done|]. apply negb_true_iff in Hin.
        by apply bool_decide_eq_false_1 in Hin.
      * by apply Nat.eqb_eq.
  - intros x Hx. unfold add_edge in Hx. simpl in Hx.
    rewrite !add_node_elem in Hx. destruct Hx as [-> | [-> | Hx]].
    + right. right. exists [s]. split; [done | by left].
    + right. by left.
    + by left.
Qed.

Lemma fold_link_case_spec a c g0 :
  linear g0 ->
  linear (fold_left (link_case a) c g0)
  /\ forall x, x ∈ g_nodes (fold_left (link_case a) c g0) ->
       x ∈ g_nodes g0 \/ x ∈ c.*1
       \/ exists addr ids, dict_get addr a = Some ids /\ x ∈ ids.
Proof.
  revert g0. induction c as [|entry c IH]; intros g0 Hl; simpl.
  - split; [done | by left].
  - destruct (link_case_spec a g0 entry Hl) as [Hl1 Hn1].
    destruct (IH _ Hl1) as [Hl2 Hn2]. split; [done|].
    intros x Hx. destruct (Hn2 x Hx) as [Hx1 | [Hx1 | Hx1]].
    + destruct (Hn1 x Hx1) as [? | [-> | (ids & ? & ?)]].
      * by left.
      * right. left. by left.
      * right. right. by exists (snd entry), ids.
    + right. left. by right.
    + by right; right.
Qed.

(** The graph of inferred edges is linear and its nodes are case ids. *)
Lemma inferred_graph_spec h cases :
  (forall kr, kr ∈ cases -> node_addr (h (snd kr)) <> None) ->
  exists a c,
    collect_gotos get_last_statement h cases [] [] = Ok (a, c)
    /\ inferred_graph get_last_statement h cases = fallthrough_graph a c
    /\ linear (fallthrough_graph a c)
    /\ forall x, x ∈ g_nodes (fallthrough_graph a c) -> x ∈ cases.*1.
Proof.
  intros Haddr.
  destruct (collect_gotos_spec h cases [] [] Haddr) as (a & c & Hc & Hkeys & Hids).
  exists a, c. split; [done|]. split; [unfold inferred_graph; by rewrite Hc|].
  destruct (fold_link_case_spec a c empty_graph empty_graph_linear) as [Hl Hn].
  split; [done|]. intros x Hx.
  destruct (Hn x Hx) as [Hx1 | [Hx1 | (addr & ids & Hg & Hx1)]].
  - by apply elem_of_nil in Hx1.
  - destruct (Hkeys x Hx1) as [Hx2 | Hx2]; [by apply elem_of_nil in Hx2 | done].
  - destruct (Hids addr ids x Hg Hx1) as [(ids0 & Hg0 & _) | Hx2]; [done | done].
Qed.

Lemma unlinked_and_starting_spec g cases acc st :
  NoDup cases.*1 ->
  (forall k, k ∈ acc.*1 -> k ∉ cases.*1) ->
  unlinked_and_starting g cases acc st
  = (acc ++ filter (fun kr => fst kr ∉ g_nodes g) cases,
     st ++ filter (fun k => k ∈ g_nodes g /\ in_degree g k = 0%nat) cases.*1).
Proof.
  revert acc st. induction cases as [|[idx r] cases IH]; intros acc st Hnd Hacc; simpl.
  - by rewrite !app_nil_r.
  - simpl in Hnd. apply NoDup_cons in Hnd as [Hidx Hnd].
    unfold has_node. destruct (decide (idx ∈ g_nodes g)) as [Hin | Hnin].
    + rewrite bool_decide_eq_true_2 by done. simpl.
      rewrite (filter_cons_False (fun kr => fst kr ∉ g_nodes g)) by (simpl; tauto).
      destruct (in_degree g idx =? 0)%nat eqn:Ed.
      * apply Nat.eqb_eq in Ed. rewrite filter_cons_True by done.
        rewrite IH; [by rewrite <- app_assoc | done |].
        intros k Hk Hk'. apply (Hacc k Hk). simpl. by right.
      * apply Nat.eqb_neq in Ed. rewrite filter_cons_False by tauto.
        apply IH; [done|]. intros k Hk Hk'. apply (Hacc k Hk). simpl. by right.
    + rewrite bool_decide_eq_false_2 by done. simpl.
      rewrite (filter_cons_True (fun kr => fst kr ∉ g_nodes g)) by done.
      rewrite filter_cons_False by tauto.
      rewrite dict_set_fresh.
      2:{ intros Hk. apply (Hacc idx Hk). simpl. by left. }
      rewrite IH; [by rewrite <- app_assoc | done |].
      intros k Hk. rewrite fmap_app in Hk. apply elem_of_app in Hk as [Hk | Hk].
      * intros Hk'. apply (Hacc k Hk). simpl. by right.
      * simpl in Hk. apply list_elem_of_singleton in Hk. by subst.
Qed.

Lemma add_chain_spec g cases chain new_cases :
  (forall k, k ∈ chain -> k ∈ g_nodes g /\ k ∈ cases.*1) ->
  exists new',
    add_chain cases chain new_cases = Ok new'
    /\ (forall kv, kv ∈ new' -> kv ∈ new_cases \/ kv ∈ cases)
    /\ (NoDup new_cases.*1 -> NoDup new'.*1)
    /\ (forall k, k ∈ new_cases.*1 \/ k ∈ chain -> k ∈ new'.*1)
    /\ filter (fun kr => fst kr ∉ g_nodes g) new'
       = filter (fun kr => fst kr ∉ g_nodes g) new_cases.
Proof.
  revert new_cases. induction chain as [|k chain IH]; intros new_cases Hchain; simpl.
  - exists new_cases. repeat split; try done; try by left.
    intros k [Hk | Hk]; [done | by apply elem_of_nil in Hk].
  - destruct (Hchain k) as [HkV Hkc]; [by left|].
    destruct (dict_get_is_Some k cases Hkc) as [r Hr]. rewrite Hr.
    destruct (IH (dict_set k r new_cases)) as (new' & Ha & Hsub & Hnd & Hkeys & Hf).
    { intros k' Hk'. apply Hchain. by right. }
    exists new'. split; [done|]. split; [|split; [|split]].
    + intros kv Hkv. destruct (Hsub kv Hkv) as [Hkv' | Hkv']; [|by right].
      apply dict_set_elem in Hkv' as [-> | Hkv']; [|by left].
      right. by apply dict_get_Some_elem.
    + intros Hn. by apply Hnd, dict_set_NoDup.
    + intros k' [Hk' | Hk'].
      * apply Hkeys. left. apply dict_set_keys. by right.
      * apply elem_of_cons in Hk' as [-> | Hk'].
        -- apply Hkeys. left. apply dict_set_keys. by left.
        -- apply Hkeys. by right.
    + rewrite Hf. apply filter_dict_set. simpl. tauto.
Qed.

Lemma emit_chains_spec g cases labels starting new_cases h :
  linear g -> acyclic g ->
  (forall k, k ∈ g_nodes g -> k ∈ cases.*1) ->
  (forall s, s ∈ starting -> s ∈ g_nodes g) ->
  exists new' h',
    emit_chains get_last_statements remove_last_statement g cases labels starting
      new_cases h = Some (Ok (new', h'))
    /\ (forall kv, kv ∈ new' -> kv ∈ new_cases \/ kv ∈ cases)
    /\ (NoDup new_cases.*1 -> NoDup new'.*1)
    /\ (forall k, k ∈ new_cases.*1 -> k ∈ new'.*1)
    /\ (forall s i k, s ∈ starting -> steps g i s = Some k -> k ∈ new'.*1)
    /\ filter (fun kr => fst kr ∉ g_nodes g) new'
       = filter (fun kr => fst kr ∉ g_nodes g) new_cases.
Proof.
  intros Hl Ha Hnodes. revert new_cases h.
  induction starting as [|s starting IH]; intros new_cases h Hstart; simpl.
  - exists new_cases, h. repeat split; try done; try by left.
    intros s i k Hs. by apply elem_of_nil in Hs.
  - assert (HsV : s ∈ g_nodes g) by (apply Hstart; by left).
    destruct (dict_get_is_Some s cases (Hnodes s HsV)) as [r Hr]. rewrite Hr.
    destruct (follow_successors_spec g (length (g_nodes g)) s [s] Hl Ha)
      as (chain & Hf & Hmem & Hsub).
    { apply NoDup_singleton. }
    { intros x Hx. apply list_elem_of_singleton in Hx. by subst. }
    { intros x Hx. apply list_elem_of_singleton in Hx. subst. by exists 0%nat. }
    { simpl. lia. }
    rewrite Hf.
    destruct (add_chain_spec g cases chain (dict_set s r new_cases))
      as (new1 & Hadd & Hsub1 & Hnd1 & Hkeys1 & Hf1).
    { intros k Hk. split; [by apply Hsub | by apply Hnodes, Hsub]. }
    rewrite Hadd.
    edestruct (IH new1) as (new' & h' & He & Hsub' & Hnd' & Hkeys' & Hreach' & Hf').
    { intros s' Hs'. apply Hstart. by right. }
    exists new', h'. split; [exact He|]. split; [|split; [|split; [|split]]].
    + intros kv Hkv. destruct (Hsub' kv Hkv) as [Hkv1 | Hkv1]; [|by right].
      destruct (Hsub1 kv Hkv1) as [Hkv2 | Hkv2]; [|by right].
      apply dict_set_elem in Hkv2 as [-> | Hkv2]; [|by left].
      right. by apply dict_get_Some_elem.
    + intros Hn. by apply Hnd', Hnd1, dict_set_NoDup.
    + intros k Hk. apply Hkeys', Hkeys1. left. apply dict_set_keys. by right.
    + intros s' i k Hs' Hsteps. apply elem_of_cons in Hs' as [-> | Hs'].
      * apply Hkeys', Hkeys1. destruct i as [|i].
        -- simpl in Hsteps. injection Hsteps as <-. left. apply dict_set_keys. by left.
        -- right. apply Hmem. by exists i.
      * by apply (Hreach' s' i k).
    + rewrite Hf', Hf1. apply filter_dict_set. simpl. tauto.
Qed.

End ReorganizeProperties.

Lemma filter_idemp {A} (P : A -> Prop) `{forall x, Decision (P x)} (l : list A) :
  filter P (filter P l) = filter P l.
Proof.
  induction l as [|x l IH]; [done|].
  destruct (decide (P x)).
  - rewrite (filter_cons_True P x l) by done. rewrite filter_cons_True by done.
    by rewrite IH.
  - by rewrite (filter_cons_False P x l) by done.
Qed.

Lemma filter_keys_NoDup {A B} (P : A * B -> Prop) `{forall x, Decision (P x)}
    (d : list (A * B)) :
  NoDup d.*1 -> NoDup (filter P d).*1.
Proof.
  intros Hnd. eapply sublist_NoDup; [exact Hnd|].
  apply fmap_sublist, sublist_filter.
Qed.

(** A switch whose three cases jump to each other in a circle; none of the
    jumps leads to a label, so the bodies stay as they are. *)
Definition block_last_statement (n : node) : option stmt :=
  match n with Block _ _ statements _ => last statements | _ => None end.

Definition block_last_statements (n : node) : option (list stmt) :=
  match block_last_statement n with Some s => Some [s] | None => None end.

Definition block_remove_last_statement (n : node) : node :=
  match n with
  | Block a sz statements i => Block a sz (removelast statements) i
  | _ => n
  end.

Definition circular_heap : heap := fun r =>
  match r with
  | 0%nat => goto_block 10 20
  | 1%nat => goto_block 20 30
  | 2%nat => goto_block 30 10
  | _ => Block 40 0 [] None
  end.

Definition circular_cases : list (Z * ref) :=
  [(1, 0%nat); (7, 3%nat); (2, 1%nat); (3, 2%nat)].

Section ReorganizeSwitchCasesProperties.

Context {K : Type} `{EqDecision K}.

Variable get_last_statement : node -> option stmt.
Variable get_last_statements : node -> option (list stmt).
Variable remove_last_statement : node -> node.
Variable collect_labels : node -> list (Z * option Z).

Abbreviation reorganize :=
  (reorganize_switch_cases get_last_statement get_last_statements
     remove_last_statement collect_labels).

(** C9: when the keys of the mapping are distinct, as in any ordered
    mapping, and every case node has an address, which the function
    asserts, the reordering returns a mapping with exactly the key-to-node
    pairs of its input, also when the inferred fallthrough edges form
    cycles; and the cases outside the inferred graph come in their original
    relative order. *)
Theorem reorganize_switch_cases_same_pairs (h : heap) (cases : list (K * ref)) :
  NoDup cases.*1 ->
  Forall (fun kr => is_Some (node_addr (h (snd kr)))) cases ->
  exists new_cases h',
    reorganize h cases = Some (Ok (new_cases, h'))
    /\ new_cases ≡ₚ cases
    /\ filter (fun kr => fst kr ∉ g_nodes (inferred_graph get_last_statement h cases))
         new_cases
       = filter (fun kr => fst kr ∉ g_nodes (inferred_graph get_last_statement h cases))
           cases.
Proof.
  intros Hnd Haddr.
  destruct (inferred_graph_spec get_last_statement h cases)
    as (a & c & Hc & Hg & Hl & Hnodes).
  { intros kr Hkr. rewrite Forall_forall in Haddr.
    destruct (Haddr kr Hkr) as [x Hx]. by rewrite Hx. }
  rewrite Hg. unfold reorganize_switch_cases. rewrite Hc.
  destruct (g_nodes (fallthrough_graph a c)) as [|n0 nodes0] eqn:En.
  { by exists cases, h. }
  cbv iota. rewrite <- En in Hnodes |- *. clear n0 nodes0 En.
  destruct (break_loops_spec (S (length (g_edges (fallthrough_graph a c))))
              (fallthrough_graph a c) Hl) as (g' & Hb & Hn & Hl' & Ha'); [lia|].
  rewrite Hb, <- Hn.
  rewrite (unlinked_and_starting_spec g' cases [] []); [|done|].
  2:{ intros k Hk. by apply elem_of_nil in Hk. }
  rewrite !app_nil_l.
  destruct (emit_chains_spec get_last_statements remove_last_statement g' cases
              (flat_map (fun kc => collect_labels (h (snd kc))) cases)
              (filter (fun k => k ∈ g_nodes g' /\ in_degree g' k = 0%nat) cases.*1)
              (filter (fun kr => fst kr ∉ g_nodes g') cases) h Hl' Ha')
    as (new' & h' & He & Hsub & Hnd' & Hkeys & Hreach & Hf).
  { intros k Hk. apply Hnodes. by rewrite <- Hn. }
  { intros s Hs. by apply list_elem_of_filter in Hs as [[? _] _]. }
  rewrite He.
  assert (Hfrom : forall kv, kv ∈ new' -> kv ∈ cases).
  { intros kv Hkv. destruct (Hsub kv Hkv) as [Hkv' | Hkv']; [|done].
    by apply list_elem_of_filter in Hkv' as [_ ?]. }
  assert (Hkey : forall k, k ∈ cases.*1 -> k ∈ new'.*1).
  { intros k Hk. destruct (decide (k ∈ g_nodes g')) as [HkV | HkV].
    - destruct (reached_from_start g' k Hl' Ha' HkV) as (r0 & i & Hr0 & Hd0 & Hs0).
      apply (Hreach r0 i k); [|done].
      apply list_elem_of_filter. split; [done|].
      apply Hnodes. by rewrite <- Hn.
    - apply Hkeys. apply list_elem_of_fmap in Hk as ([k' r] & -> & Hkr).
      apply list_elem_of_fmap. exists (k', r). split; [done|].
      by apply list_elem_of_filter. }
  assert (Hperm : new' ≡ₚ cases).
  { apply NoDup_Permutation.
    - apply NoDup_keys_pairs, Hnd'. by apply filter_keys_NoDup.
    - by apply NoDup_keys_pairs.
    - intros [k r]. split; [apply Hfrom|]. intros Hkr.
      assert (Hk : k ∈ new'.*1).
      { apply Hkey. apply list_elem_of_fmap. by exists (k, r). }
      apply list_elem_of_fmap in Hk as ([k' r'] & Heq & Hkr'). simpl in Heq. subst k'.
      by rewrite (NoDup_keys_same_value cases k r r' Hnd Hkr (Hfrom _ Hkr')). }
  exists new', h'.
  rewrite (Permutation_length Hperm), Nat.eqb_refl.
  split; [done|]. split; [done|].
  by rewrite Hf, filter_idemp.
Qed.

End ReorganizeSwitchCasesProperties.

Lemma reorganize_switch_cases_same_pairs_witness :
  exists new_cases h',
    reorganize_switch_cases block_last_statement block_last_statements
      block_remove_last_statement (fun _ => []) circular_heap circular_cases
    = Some (Ok (new_cases, h'))
    /\ new_cases ≡ₚ circular_cases
    /\ filter (fun kr => fst kr ∉ g_nodes (inferred_graph block_last_statement
                                              circular_heap circular_cases))
         new_cases
       = filter (fun kr => fst kr ∉ g_nodes (inferred_graph block_last_statement
                                                circular_heap circular_cases))
           circular_cases.
Proof.
  apply (reorganize_switch_cases_same_pairs block_last_statement block_last_statements
           block_remove_last_statement (fun _ => []) circular_heap circular_cases).
  - apply (bool_decide_unpack _). vm_compute. reflexivity.
  - apply (bool_decide_unpack _). vm_compute. reflexivity.
Defined.

(** On the circular switch the edge from case 1 to case 2 is removed, which
    leaves the chain 2, 3, 1; case 7 is outside the graph and comes first. *)
Example reorganize_circular_cases :
  inferred_graph block_last_statement circular_heap circular_cases
  = mkDiGraph [1; 2; 3] [(1, 2); (2, 3); (3, 1)]
  /\ match reorganize_switch_cases block_last_statement block_last_statements
             block_remove_last_statement (fun _ => []) circular_heap circular_cases with
     | Some (Ok (new_cases, _)) => new_cases
     | _ => []
     end = [(7, 3%nat); (2, 1%nat); (3, 2%nat); (1, 0%nat)].
Proof. split; vm_compute; reflexivity. Qed.

(** * Further properties of the passes *)

(** ** The statements of a tree *)

(** The statements of the blocks that a walk reaches, in the order of the
    walk. *)
Definition block_statements (n : node) : list stmt :=
  match n with Block _ _ statements _ => statements | _ => [] end.

Definition all_statements (n : node) : list stmt :=
  flat_map block_statements (walked_blocks n).

Lemma flat_map_map {A B C : Type} (f : A -> B) (g : B -> list C) l :
  flat_map g (map f l) = flat_map (fun x => g (f x)) l.
Proof. induction l as [|x l IH]; simpl; [done|]. by rewrite IH. Qed.

Lemma map_flat_map {A B C : Type} (f : A -> list B) (g : B -> C) l :
  map g (flat_map f l) = flat_map (fun x => map g (f x)) l.
Proof. induction l as [|x l IH]; simpl; [done|]. by rewrite map_app, IH. Qed.

Lemma filter_flat_map {A B : Type} (P : B -> Prop) `{forall x, Decision (P x)}
    (f : A -> list B) l :
  filter P (flat_map f l) = flat_map (fun x => filter P (f x)) l.
Proof. induction l as [|x l IH]; simpl; [done|]. by rewrite filter_app, IH. Qed.

(** How the blocks of a tree change under a walk [w] that does [h] to
    every block and leaves the rest to the default handlers. *)
Section BlockWalks.

Variable w : node -> node.
Variable h : node -> node.

Lemma walked_blocks_map_children ns :
  Forall (fun x => walked_blocks (w x) = map h (walked_blocks x)) ns ->
  flat_map walked_blocks (map w ns) = map h (flat_map walked_blocks ns).
Proof.
  intros Hall. rewrite flat_map_map, map_flat_map. by apply flat_map_ext_Forall.
Qed.

Lemma walked_blocks_map_option (t : option node) :
  (forall x, t = Some x -> walked_blocks (w x) = map h (walked_blocks x)) ->
  match option_map w t with Some t' => walked_blocks t' | None => [] end
  = map h match t with Some t' => walked_blocks t' | None => [] end.
Proof. destruct t as [x|]; simpl; [intros Hx; by apply Hx | done]. Qed.

Lemma walked_blocks_map_pairs {C : Type} (cns : list (C * node)) :
  Forall (fun cn => walked_blocks (w (snd cn)) = map h (walked_blocks (snd cn))) cns ->
  flat_map (fun cn => walked_blocks (snd cn)) (map (fun cn => (fst cn, w (snd cn))) cns)
  = map h (flat_map (fun cn => walked_blocks (snd cn)) cns).
Proof.
  intros Hall. rewrite flat_map_map, map_flat_map. simpl.
  by apply flat_map_ext_Forall.
Qed.

(** The default handlers, on a node that is no block. *)
Lemma walked_blocks_walk_children n :
  match n with
  | Block _ _ _ _ => True
  | MultiNode ns _ _ | SequenceNode _ ns =>
      Forall (fun x => walked_blocks (w x) = map h (walked_blocks x)) ns
  | CodeNode inner _ | LoopNode _ _ inner _ =>
      walked_blocks (w inner) = map h (walked_blocks inner)
  | ConditionNode _ _ _ t e =>
      (forall x, t = Some x -> walked_blocks (w x) = map h (walked_blocks x))
      /\ (forall x, e = Some x -> walked_blocks (w x) = map h (walked_blocks x))
  | CascadingConditionNode _ cns e =>
      Forall (fun cn => walked_blocks (w (snd cn)) = map h (walked_blocks (snd cn))) cns
      /\ (forall x, e = Some x -> walked_blocks (w x) = map h (walked_blocks x))
  | SwitchCaseNode _ cs d _ =>
      Forall (fun cn => walked_blocks (w (snd cn)) = map h (walked_blocks (snd cn))) cs
      /\ (forall x, d = Some x -> walked_blocks (w x) = map h (walked_blocks x))
  | _ => True
  end ->
  match n with Block _ _ _ _ => True | _ =>
    walked_blocks (walk_children w n) = map h (walked_blocks n) end.
Proof.
  destruct n as
    [a sz st i | ns a i | a ns | inner rc | a rc c t e | a cns e | s c body a
    | se cs d a | a t | a c t | a t]; simpl; try done.
  - apply walked_blocks_map_children.
  - apply walked_blocks_map_children.
  - intros [Ht He]. by rewrite map_app, <- !walked_blocks_map_option.
  - intros [Hc He]. by rewrite map_app, <- walked_blocks_map_option, <- walked_blocks_map_pairs.
  - intros [Hc He]. by rewrite map_app, <- walked_blocks_map_option, <- walked_blocks_map_pairs.
Qed.

End BlockWalks.

(** ** Removing every jump to a constant *)

(** A tree with the statements of its blocks left out: what a walk that
    only changes the statements of blocks leaves as it is. *)
Fixpoint without_statements (n : node) : node :=
  match n with
  | Block a sz _ idx => Block a sz [] idx
  | _ => walk_children without_statements n
  end.

(** A jump to a constant address. *)
Definition is_constant_jump (s : stmt) : bool :=
  match s with
  | Jump _ (Const _ _) _ _ => true
  | _ => false
  end.

Lemma remove_all_jumps_walked_blocks seq :
  walked_blocks (remove_all_jumps seq)
  = map remove_all_jumps_handle_Block (walked_blocks seq).
Proof.
  induction seq as
    [a sz st i | ns a i IH | a ns IH | inner rc IH | a rc c t e IHt IHe | a cns e IHc IHe
    | sr c body a IH | se cs d a IHc IHd | a t | a c t | a t] using node_ind';
    try done;
    try (by apply (walked_blocks_walk_children remove_all_jumps
                     remove_all_jumps_handle_Block
                     ltac:(first [ exact (MultiNode ns a i) | exact (SequenceNode a ns)
                                 | exact (CodeNode inner rc)
                                 | exact (ConditionNode a rc c t e)
                                 | exact (CascadingConditionNode a cns e)
                                 | exact (LoopNode sr c body a)
                                 | exact (SwitchCaseNode se cs d a) ]))).
  simpl. by destruct (last st) as [[? [] ? ?| |]|].
Qed.

Lemma remove_all_jumps_without_statements seq :
  without_statements (remove_all_jumps seq) = without_statements seq.
Proof.
  induction seq as
    [a sz st i | ns a i IH | a ns IH | inner rc IH | a rc c t e IHt IHe | a cns e IHc IHe
    | sr c body a IH | se cs d a IHc IHd | a t | a c t | a t] using node_ind';
    try done.
  - simpl. by destruct (last st) as [[? [] ? ?| |]|].
  - cbn [remove_all_jumps without_statements walk_children]. f_equal.
    rewrite map_map. by apply map_ext_Forall_eq.
  - cbn [remove_all_jumps without_statements walk_children]. f_equal.
    rewrite map_map. by apply map_ext_Forall_eq.
  - cbn [remove_all_jumps without_statements walk_children]. by rewrite IH.
  - cbn [remove_all_jumps without_statements walk_children]. f_equal.
    + destruct t as [x|]; simpl; [|done]. f_equal. by apply IHt.
    + destruct e as [x|]; simpl; [|done]. f_equal. by apply IHe.
  - cbn [remove_all_jumps without_statements walk_children]. f_equal.
    + rewrite map_map. apply map_ext_Forall_eq.
      eapply Forall_impl; [exact IHc|]. intros [k x] Hx. simpl in *. by rewrite Hx.
    + destruct e as [x|]; simpl; [|done]. f_equal. by apply IHe.
  - cbn [remove_all_jumps without_statements walk_children]. by rewrite IH.
  - cbn [remove_all_jumps without_statements walk_children]. f_equal.
    + rewrite map_map. apply map_ext_Forall_eq.
      eapply Forall_impl; [exact IHc|]. intros [k x] Hx. simpl in *. by rewrite Hx.
    + destruct d as [x|]; simpl; [|done]. f_equal. by apply IHd.
Qed.

(** X1: [_remove_all_jumps] changes the statements of blocks and nothing
    else: with the statements of the blocks left out the tree is the same
    before and after.  The blocks, wherever they are, are the blocks before
    in the same order; one whose statements end in a jump to a constant has
    lost exactly this last statement, and any other block is as it was. *)
Theorem remove_all_jumps_blocks seq :
  without_statements (remove_all_jumps seq) = without_statements seq
  /\ Forall2
       (fun b b' =>
          (forall st j,
             block_statements b = st ++ [j] -> is_constant_jump j = true ->
             b' = match b with
                  | Block a sz _ idx => Block a sz st idx
                  | _ => b
                  end)
          /\ ((forall st j, block_statements b = st ++ [j] -> is_constant_jump j = false) ->
              b' = b))
       (walked_blocks seq) (walked_blocks (remove_all_jumps seq)).
Proof.
  split; [apply remove_all_jumps_without_statements|].
  rewrite remove_all_jumps_walked_blocks.
  induction (walked_blocks seq) as [|b l IH]; simpl; [constructor|].
  constructor; [|exact IH]. clear IH. split.
  - intros st j Hb Hj. destruct b; simpl in Hb; try (by destruct st).
    subst statements. simpl. rewrite last_snoc.
    destruct j as [? [] ? ?| |]; try discriminate Hj.
    by rewrite removelast_last.
  - intros Hno. destruct b; try done. simpl.
    destruct (last statements) as [j|] eqn:El; [|done].
    apply last_Some in El as [st Hst]. simpl in Hno.
    specialize (Hno st j Hst).
    by destruct j as [? [] ? ?| |].
Qed.

(** ** Removing conditional jumps *)

Lemma block_statements_remove_conditional_jumps x :
  block_statements (remove_conditional_jumps_from_block x)
  = filter (fun stmt => is_ConditionalJump stmt = false) (block_statements x).
Proof. by destruct x. Qed.

Lemma remove_conditional_jumps_walk_blocks n :
  walked_blocks (remove_conditional_jumps_walk true n)
  = map remove_conditional_jumps_from_block (walked_blocks n).
Proof.
  induction n as
    [a sz st i | ns a i IH | a ns IH | inner rc IH | a rc c t e IHt IHe | a cns e IHc IHe
    | sr c body a IH | se cs d a IHc IHd | a t | a c t | a t] using node_ind';
    try done;
    by apply (walked_blocks_walk_children (remove_conditional_jumps_walk true)
                remove_conditional_jumps_from_block
                ltac:(first [ exact (MultiNode ns a i) | exact (SequenceNode a ns)
                            | exact (CodeNode inner rc)
                            | exact (ConditionNode a rc c t e)
                            | exact (CascadingConditionNode a cns e)
                            | exact (LoopNode sr c body a)
                            | exact (SwitchCaseNode se cs d a) ])).
Qed.

Lemma remove_conditional_jumps_follow seq :
  remove_conditional_jumps seq true = remove_conditional_jumps_walk true seq.
Proof. by destruct seq. Qed.

(** X2: [_remove_conditional_jumps(seq)] with [follow_seq] leaves, in
    every block of the tree, the statements that are no conditional jump,
    in their order, and nothing else. *)
Theorem remove_conditional_jumps_statements seq :
  all_statements (remove_conditional_jumps seq true)
  = filter (fun stmt => is_ConditionalJump stmt = false) (all_statements seq).
Proof.
  unfold all_statements.
  rewrite remove_conditional_jumps_follow, remove_conditional_jumps_walk_blocks.
  rewrite flat_map_map, filter_flat_map.
  apply flat_map_ext. intros x. apply block_statements_remove_conditional_jumps.
Qed.

(** *** Idempotence *)

Lemma map_twice_Forall {A : Type} (f : A -> A) l :
  Forall (fun x => f (f x) = f x) l -> map f (map f l) = map f l.
Proof. induction 1 as [|x l Hx _ IH]; simpl; [done|]. by rewrite Hx, IH. Qed.

Lemma option_map_twice {A : Type} (f : A -> A) (t : option A) :
  (forall x, t = Some x -> f (f x) = f x) ->
  option_map f (option_map f t) = option_map f t.
Proof. destruct t as [x|]; simpl; [intros Hx; by rewrite Hx | done]. Qed.

Lemma map_pairs_twice_Forall {A C : Type} (f : A -> A) (l : list (C * A)) :
  Forall (fun cn => f (f (snd cn)) = f (snd cn)) l ->
  map (fun cn => (fst cn, f (snd cn))) (map (fun cn => (fst cn, f (snd cn))) l)
  = map (fun cn => (fst cn, f (snd cn))) l.
Proof. induction 1 as [|x l Hx _ IH]; simpl; [done|]. by rewrite Hx, IH. Qed.

Lemma remove_conditional_jumps_walk_twice follow_seq n :
  remove_conditional_jumps_walk follow_seq (remove_conditional_jumps_walk follow_seq n)
  = remove_conditional_jumps_walk follow_seq n.
Proof.
  induction n as
    [a sz st i | ns a i IH | a ns IH | inner rc IH | a rc c t e IHt IHe | a cns e IHc IHe
    | sr c body a IH | se cs d a IHc IHd | a t | a c t | a t] using node_ind';
    try done; simpl.
  - by rewrite filter_idemp.
  - by rewrite map_twice_Forall.
  - destruct follow_seq; simpl; [|done]. by rewrite map_twice_Forall.
  - by rewrite IH.
  - by rewrite !option_map_twice.
  - by rewrite option_map_twice, map_pairs_twice_Forall.
  - by rewrite IH.
  - by rewrite option_map_twice, map_pairs_twice_Forall.
Qed.

(** X3: [_remove_conditional_jumps] is idempotent, with and without
    [follow_seq]. *)
Theorem remove_conditional_jumps_idempotent seq follow_seq :
  remove_conditional_jumps (remove_conditional_jumps seq follow_seq) follow_seq
  = remove_conditional_jumps seq follow_seq.
Proof.
  destruct seq as
    [a sz st i | ns a i | a ns | inner rc | a rc c t e | a cns e | s c body a
    | se cs d a | a t | a c t | a t];
    try apply (remove_conditional_jumps_walk_twice follow_seq (Block a sz st i));
    try apply (remove_conditional_jumps_walk_twice follow_seq (MultiNode ns a i));
    try apply (remove_conditional_jumps_walk_twice follow_seq (CodeNode inner rc));
    try apply (remove_conditional_jumps_walk_twice follow_seq (ConditionNode a rc c t e));
    try apply (remove_conditional_jumps_walk_twice follow_seq (CascadingConditionNode a cns e));
    try apply (remove_conditional_jumps_walk_twice follow_seq (LoopNode s c body a));
    try apply (remove_conditional_jumps_walk_twice follow_seq (SwitchCaseNode se cs d a));
    try done.
  simpl. f_equal. apply map_twice_Forall, Forall_forall. intros x _.
  apply remove_conditional_jumps_walk_twice.
Qed.

(** *** Without [follow_seq] *)

(** The sequences a walk meets below its root, outermost first. *)
Fixpoint met_sequences (n : node) : list node :=
  match n with
  | SequenceNode _ _ => [n]
  | Block _ _ _ _ | BreakNode _ _ | ConditionalBreakNode _ _ _ | ContinueNode _ _ => []
  | MultiNode ns _ _ => flat_map met_sequences ns
  | CodeNode inner _ => met_sequences inner
  | ConditionNode _ _ _ t e =>
      from_option met_sequences [] t ++ from_option met_sequences [] e
  | CascadingConditionNode _ cns e =>
      flat_map (fun cn => met_sequences (snd cn)) cns ++ from_option met_sequences [] e
  | LoopNode _ _ body _ => met_sequences body
  | SwitchCaseNode _ cs d _ =>
      flat_map (fun kc => met_sequences (snd kc)) cs ++ from_option met_sequences [] d
  end.

Lemma met_sequences_walk n :
  met_sequences (remove_conditional_jumps_walk false n) = met_sequences n.
Proof.
  induction n as
    [a sz st i | ns a i IH | a ns IH | inner rc IH | a rc c t e IHt IHe | a cns e IHc IHe
    | sr c body a IH | se cs d a IHc IHd | a t | a c t | a t] using node_ind';
    try done; simpl.
  - rewrite flat_map_map. by apply flat_map_ext_Forall.
  - f_equal.
    + destruct t as [x|]; simpl; [by apply IHt | done].
    + destruct e as [x|]; simpl; [by apply IHe | done].
  - f_equal.
    + rewrite flat_map_map. by apply flat_map_ext_Forall.
    + destruct e as [x|]; simpl; [by apply IHe | done].
  - f_equal.
    + rewrite flat_map_map. by apply flat_map_ext_Forall.
    + destruct d as [x|]; simpl; [by apply IHd | done].
Qed.

(** X4: without [follow_seq], [_remove_conditional_jumps] on a sequence
    changes none of the sequences nested in it: the sequences met below
    the root are the same afterwards, conditional jumps included. *)
Theorem remove_conditional_jumps_keeps_nested_sequences a nodes :
  exists nodes',
    remove_conditional_jumps (SequenceNode a nodes) false = SequenceNode a nodes'
    /\ flat_map met_sequences nodes' = flat_map met_sequences nodes.
Proof.
  eexists. split; [reflexivity|].
  rewrite flat_map_map. apply flat_map_ext. intros x. apply met_sequences_walk.
Qed.

(** ** Jump targets and the redundant jumps *)

Fixpoint expr_size (e : expr) : nat :=
  match e with
  | UnaryOp _ _ operand => S (expr_size operand)
  | _ => 1
  end.

Lemma negation_differs i op (e : expr) : UnaryOp i op e <> e.
Proof. intros Heq. apply (f_equal expr_size) in Heq. simpl in Heq. lia. Qed.

Lemma removelast_differs {A : Type} (l : list A) x : last l = Some x -> removelast l <> l.
Proof.
  intros Hl Heq. apply last_Some in Hl as [l' ->].
  rewrite removelast_last in Heq. apply (f_equal length) in Heq.
  rewrite length_app in Heq. simpl in Heq. lia.
Qed.

Lemma snoc_differs {A : Type} (l : list A) x y :
  last l = Some x -> y <> x -> removelast l ++ [y] <> l.
Proof.
  intros Hl Hxy Heq. apply last_Some in Hl as [l' ->].
  rewrite removelast_last in Heq. apply app_inj_tail in Heq as [_ Heq]. done.
Qed.

(** X5: in a sequence, the redundant-jump pass changes the statements of a
    block exactly when the last of them [is_a_jump_target] of the address
    of the next node. *)
Theorem drop_jump_to_next_changes_iff_jump_target (next_addr : Z) (statements : list stmt) :
  drop_jump_to_next_Sequence (Some next_addr) statements <> statements
  <-> exists last_stmt,
        last statements = Some last_stmt /\ is_a_jump_target last_stmt next_addr = true.
Proof.
  unfold drop_jump_to_next_Sequence.
  destruct (last statements) as [[idx t ti ia | idx c t f ti fi ia | idx ia]|] eqn:El.
  - simpl. destruct (const_is t (Some next_addr)) eqn:Et.
    + split; [intros _; by eexists | intros _]. by eapply removelast_differs.
    + split; [done | intros (s & Hs & Hj)]. injection Hs as <-. simpl in Hj. congruence.
  - destruct (opt_const_is t (Some next_addr)) eqn:Et.
    + split.
      * intros _. eexists. split; [done|]. simpl. by rewrite Et.
      * intros _. eapply snoc_differs; [done|]. intros Heq. injection Heq as Heq _.
        by apply negation_differs in Heq.
    + destruct (opt_const_is f (Some next_addr)) eqn:Ef.
      * split.
        -- intros _. eexists. split; [done|]. simpl. by rewrite Et, Ef.
        -- intros _. eapply snoc_differs; [done|]. intros Heq. injection Heq as Heq _.
           subst f. done.
      * split; [done | intros (s & Hs & Hj)]. injection Hs as <-. simpl in Hj.
        rewrite Et, Ef in Hj. done.
  - split; [done | intros (s & Hs & Hj)]. injection Hs as <-. done.
  - split; [done | intros (s & Hs & _)]. done.
Qed.

(** ** Merging two nodes *)

(** The nodes a node brings into a merged sequence. *)
Definition sequence_nodes (n : node) : list node :=
  match n with SequenceNode _ nodes => nodes | _ => [n] end.

Definition first_addr (a b : option Z) : option Z :=
  match a with Some _ => a | None => b end.

Lemma merge_nodes_fix_last_addr next_addr n :
  node_addr (merge_nodes_fix_last next_addr n) = node_addr n.
Proof.
  destruct n as
    [a sz st i | ns a i | a ns | inner rc | a rc c t e | a cns e | s c body a
    | se cs d a | a t | a c t | a t]; try done; simpl.
  - by destruct (last ns) as [[]|].
  - by destruct (last ns) as [[]|].
Qed.

Lemma merge_nodes_flat node_0 node_1 :
  merge_nodes node_0 node_1
  = SequenceNode (first_addr (node_addr node_0) (node_addr node_1))
      (sequence_nodes (merge_nodes_fix_last (node_addr node_1) node_0)
       ++ sequence_nodes node_1).
Proof.
  unfold merge_nodes.
  replace (match node_addr node_0 with Some a => Some a | None => node_addr node_1 end)
    with (first_addr (node_addr node_0) (node_addr node_1))
    by (unfold first_addr; by destruct (node_addr node_0)).
  destruct node_0 as
    [a sz st i | ns a i | a ns | inner rc | a rc c t e | a cns e | s c body a
    | se cs d a | a t | a c t | a t];
    try (by destruct node_1).
  - simpl. destruct (last ns) as [[]|]; by destruct node_1.
  - simpl. destruct (last ns) as [[]|]; by destruct node_1.
Qed.

Lemma merge_nodes_fix_last_snoc_Block next_addr a ns ba sz st i :
  merge_nodes_fix_last next_addr (SequenceNode a (ns ++ [Block ba sz st i]))
  = SequenceNode a (ns ++ [Block ba sz (merge_nodes_fix_statements next_addr st) i]).
Proof. simpl. by rewrite last_snoc, removelast_last. Qed.

(** X6: merging is associative when the node in the middle is a block:
    merging [node_0] with the block and the result with [node_2] gives the
    sequence that merging [node_0] with the merge of the block and
    [node_2] gives. *)
Theorem merge_nodes_assoc_Block node_0 a sz statements idx node_2 :
  merge_nodes (merge_nodes node_0 (Block a sz statements idx)) node_2
  = merge_nodes node_0 (merge_nodes (Block a sz statements idx) node_2).
Proof.
  rewrite (merge_nodes_flat node_0 (Block a sz statements idx)).
  rewrite (merge_nodes_flat (Block a sz statements idx) node_2).
  rewrite !merge_nodes_flat.
  cbn [sequence_nodes node_addr].
  rewrite merge_nodes_fix_last_snoc_Block.
  cbn [sequence_nodes merge_nodes_fix_last app].
  rewrite <- app_assoc. cbn [app].
  f_equal. unfold first_addr. by destruct (node_addr node_0).
Qed.

(** A block that ends in a jump ends in a jump to [addr]. *)
Definition jump_goes_to (statements : list stmt) (addr : Z) : bool :=
  match last statements with
  | Some (Jump _ target _ _) => const_is target (Some addr)
  | _ => true
  end.

(** X7: merging two blocks gives what the redundant-jump pass makes of the
    sequence of the two, unless the first block ends in a jump that goes
    somewhere else than to the second: merging drops that jump as well. *)
Theorem merge_nodes_blocks_as_remove_redundant_jumps a0 sz0 st0 i0 a1 sz1 st1 i1 :
  jump_goes_to st0 a1 = true ->
  merge_nodes (Block a0 sz0 st0 i0) (Block a1 sz1 st1 i1)
  = remove_redundant_jumps
      (SequenceNode (Some a0) [Block a0 sz0 st0 i0; Block a1 sz1 st1 i1]).
Proof.
  intros Hj. rewrite remove_redundant_jumps_Sequence. simpl.
  rewrite !remove_redundant_jumps_Block. unfold merge_nodes. simpl.
  do 3 f_equal.
  unfold merge_nodes_fix_statements, drop_jump_to_next_Sequence, jump_goes_to in *.
  destruct (last st0) as [[idx t ti ia | idx c t f ti fi ia | idx ia]|]; try done.
  by rewrite Hj.
Qed.

Lemma merge_nodes_blocks_as_remove_redundant_jumps_witness :
  merge_nodes
    (Block 16 8 [OtherStmt None 16;
                 ConditionalJump None (OtherExpr None 1) (Some (Const None 24))
                   (Some (Const None 48)) (Some 1) (Some 2) 20] None)
    (Block 24 4 [OtherStmt None 24] None)
  = remove_redundant_jumps
      (SequenceNode (Some 16)
         [Block 16 8 [OtherStmt None 16;
                      ConditionalJump None (OtherExpr None 1) (Some (Const None 24))
                        (Some (Const None 48)) (Some 1) (Some 2) 20] None;
          Block 24 4 [OtherStmt None 24] None]).
Proof.
  apply merge_nodes_blocks_as_remove_redundant_jumps. reflexivity.
Defined.

(** A jump to somewhere else stays in the sequence and goes in the merge. *)
Example merge_nodes_drops_any_jump :
  merge_nodes (Block 16 8 [Jump None (Const None 64) None 16] None) (Block 24 4 [] None)
  = SequenceNode (Some 16) [Block 16 8 [] None; Block 24 4 [] None]
  /\ remove_redundant_jumps
       (SequenceNode (Some 16)
          [Block 16 8 [Jump None (Const None 64) None 16] None; Block 24 4 [] None])
     = SequenceNode (Some 16)
         [Block 16 8 [Jump None (Const None 64) None 16] None; Block 24 4 [] None].
Proof. split; reflexivity. Qed.

(** ** What the merging passes report *)

(** The number of nodes of a tree. *)
Fixpoint tree_size (n : node) : nat :=
  match n with
  | Block _ _ _ _ | BreakNode _ _ | ConditionalBreakNode _ _ _ | ContinueNode _ _ => 1
  | MultiNode ns _ _ => S (fold_right (fun x m => tree_size x + m) 0 ns)%nat
  | SequenceNode _ ns => S (fold_right (fun x m => tree_size x + m) 0 ns)%nat
  | CodeNode inner _ => S (tree_size inner)
  | ConditionNode _ _ _ t e =>
      S (from_option tree_size 0 t + from_option tree_size 0 e)%nat
  | CascadingConditionNode _ cns e =>
      S (fold_right (fun cn m => tree_size (snd cn) + m) 0 cns
         + from_option tree_size 0 e)%nat
  | LoopNode _ _ body _ => S (tree_size body)
  | SwitchCaseNode _ cs d _ =>
      S (fold_right (fun kc m => tree_size (snd kc) + m) 0 cs
         + from_option tree_size 0 d)%nat
  end.

Definition nodes_size (ns : list node) : nat :=
  fold_right (fun x m => tree_size x + m)%nat 0%nat ns.

Definition pairs_size {C : Type} (cns : list (C * node)) : nat :=
  fold_right (fun cn m => tree_size (snd cn) + m)%nat 0%nat cns.

Lemma nodes_size_app xs ys : nodes_size (xs ++ ys) = (nodes_size xs + nodes_size ys)%nat.
Proof. induction xs as [|x xs IH]; simpl; [done|]. rewrite IH. lia. Qed.

Lemma tree_size_pos n : (0 < tree_size n)%nat.
Proof. destruct n; simpl; lia. Qed.

(** A walk step that reports honestly: without a report the tree is the
    same, with a report it has fewer nodes, and it never has more. *)
Definition honest (w : node -> bool * node) (n : node) : Prop :=
  (tree_size (snd (w n)) <= tree_size n)%nat
  /\ (fst (w n) = true -> (tree_size (snd (w n)) < tree_size n)%nat)
  /\ (fst (w n) = false -> snd (w n) = n).

Section HonestWalks.

Variable w : node -> bool * node.

Lemma honest_children ns :
  Forall (honest w) ns ->
  (nodes_size (map snd (map w ns)) <= nodes_size ns)%nat
  /\ (existsb fst (map w ns) = true ->
      (nodes_size (map snd (map w ns)) < nodes_size ns)%nat)
  /\ (existsb fst (map w ns) = false -> map snd (map w ns) = ns).
Proof.
  induction 1 as [|x ns (Hle & Hlt & Heq) _ (IHle & IHlt & IHeq)]; simpl.
  - repeat split; [lia | done].
  - repeat split.
    + lia.
    + intros Hor. apply orb_true_iff in Hor as [Hx | Hns].
      * specialize (Hlt Hx). lia.
      * specialize (IHlt Hns). lia.
    + intros Hor. apply orb_false_iff in Hor as [Hx Hns].
      by rewrite (Heq Hx), (IHeq Hns).
Qed.

Lemma honest_pairs {C : Type} (cns : list (C * node)) :
  Forall (fun cn => honest w (snd cn)) cns ->
  let rs := map (fun cn => (fst cn, w (snd cn))) cns in
  (pairs_size (map (fun r => (fst r, snd (snd r))) rs) <= pairs_size cns)%nat
  /\ (existsb (fun r => fst (snd r)) rs = true ->
      (pairs_size (map (fun r => (fst r, snd (snd r))) rs) < pairs_size cns)%nat)
  /\ (existsb (fun r => fst (snd r)) rs = false ->
      map (fun r => (fst r, snd (snd r))) rs = cns).
Proof.
  induction 1 as [|[c x] cns (Hle & Hlt & Heq) _ (IHle & IHlt & IHeq)]; simpl in *.
  - repeat split; [lia | done].
  - repeat split.
    + lia.
    + intros Hor. apply orb_true_iff in Hor as [Hx | Hns].
      * specialize (Hlt Hx). lia.
      * specialize (IHlt Hns). lia.
    + intros Hor. apply orb_false_iff in Hor as [Hx Hns].
      by rewrite (Heq Hx), (IHeq Hns).
Qed.

Lemma honest_option (t : option node) :
  (forall x, t = Some x -> honest w x) ->
  let r := option_map w t in
  (from_option tree_size 0%nat (option_map snd r) <= from_option tree_size 0%nat t)%nat
  /\ (from_option fst false r = true ->
      (from_option tree_size 0%nat (option_map snd r) < from_option tree_size 0%nat t)%nat)
  /\ (from_option fst false r = false -> option_map snd r = t).
Proof.
  destruct t as [x|]; simpl.
  - intros Hx. destruct (Hx x eq_refl) as (Hle & Hlt & Heq).
    repeat split; [done | done |]. intros Hf. by rewrite (Heq Hf).
  - intros _. repeat split; [lia | done].
Qed.

(** The default handlers report honestly when the walk of the children does. *)
Lemma honest_walk_children_flag n :
  match n with
  | MultiNode ns _ _ | SequenceNode _ ns => Forall (honest w) ns
  | CodeNode inner _ | LoopNode _ _ inner _ => honest w inner
  | ConditionNode _ _ _ t e =>
      (forall x, t = Some x -> honest w x) /\ (forall x, e = Some x -> honest w x)
  | CascadingConditionNode _ cns e =>
      Forall (fun cn => honest w (snd cn)) cns /\ (forall x, e = Some x -> honest w x)
  | SwitchCaseNode _ cs d _ =>
      Forall (fun cn => honest w (snd cn)) cs /\ (forall x, d = Some x -> honest w x)
  | _ => True
  end ->
  honest (walk_children_flag w) n.
Proof.
  unfold honest.
  destruct n as
    [a sz st i | ns a i | a ns | inner rc | a rc c t e | a cns e | s c body a
    | se cs d a | a t | a c t | a t]; simpl; try (intros _; repeat split; done || lia).
  - intros Hall. destruct (honest_children ns Hall) as (Hle & Hlt & Heq).
    fold (nodes_size ns). fold (nodes_size (map snd (map w ns))).
    repeat split; [lia | intros Hf; specialize (Hlt Hf); lia | intros Hf; by rewrite Heq].
  - intros Hall. destruct (honest_children ns Hall) as (Hle & Hlt & Heq).
    fold (nodes_size ns). fold (nodes_size (map snd (map w ns))).
    repeat split; [lia | intros Hf; specialize (Hlt Hf); lia | intros Hf; by rewrite Heq].
  - intros (Hle & Hlt & Heq).
    repeat split; [lia | intros Hf; specialize (Hlt Hf); lia | intros Hf; by rewrite Heq].
  - intros [Ht He].
    destruct (honest_option t Ht) as (Hle1 & Hlt1 & Heq1).
    destruct (honest_option e He) as (Hle2 & Hlt2 & Heq2). simpl in *.
    repeat split.
    + lia.
    + intros Hor. apply orb_true_iff in Hor as [Hf | Hf];
        [specialize (Hlt1 Hf) | specialize (Hlt2 Hf)]; lia.
    + intros Hor. apply orb_false_iff in Hor as [Hf1 Hf2].
      by rewrite (Heq1 Hf1), (Heq2 Hf2).
  - intros [Hc He].
    destruct (honest_pairs cns Hc) as (Hle1 & Hlt1 & Heq1).
    destruct (honest_option e He) as (Hle2 & Hlt2 & Heq2). simpl in *.
    fold (pairs_size cns).
    fold (pairs_size (map (fun r : condition * (bool * node) => (fst r, snd (snd r)))
                        (map (fun cn : condition * node => (fst cn, w (snd cn))) cns))).
    repeat split.
    + lia.
    + intros Hor. apply orb_true_iff in Hor as [Hf | Hf];
        [specialize (Hlt1 Hf) | specialize (Hlt2 Hf)]; lia.
    + intros Hor. apply orb_false_iff in Hor as [Hf1 Hf2].
      by rewrite (Heq1 Hf1), (Heq2 Hf2).
  - intros (Hle & Hlt & Heq).
    repeat split; [lia | intros Hf; specialize (Hlt Hf); lia | intros Hf; by rewrite Heq].
  - intros [Hc He].
    destruct (honest_pairs cs Hc) as (Hle1 & Hlt1 & Heq1).
    destruct (honest_option d He) as (Hle2 & Hlt2 & Heq2). simpl in *.
    fold (pairs_size cs).
    fold (pairs_size (map (fun r : case_key * (bool * node) => (fst r, snd (snd r)))
                        (map (fun cn : case_key * node => (fst cn, w (snd cn))) cs))).
    repeat split.
    + lia.
    + intros Hor. apply orb_true_iff in Hor as [Hf | Hf];
        [specialize (Hlt1 Hf) | specialize (Hlt2 Hf)]; lia.
    + intros Hor. apply orb_false_iff in Hor as [Hf1 Hf2].
      by rewrite (Heq1 Hf1), (Heq2 Hf2).
Qed.

End HonestWalks.

Section MergeConditionalBreaksReport.

Variable simplify_condition : cond -> cond.

Abbreviation breaks_merge_walk := (merge_conditional_breaks_walk simplify_condition).
Abbreviation breaks_merge_loop := (merge_breaks_loop simplify_condition breaks_merge_walk).

(** The loop over the children: [bound] is the size of the nodes it was
    given, [m] the report on entry, [all] the nodes it was given. *)
Definition loop_honest (bound : nat) (m : bool) (all : list node)
    (r : bool * list node) : Prop :=
  (nodes_size (snd r) <= bound)%nat
  /\ (fst r = true -> m = true \/ (nodes_size (snd r) < bound)%nat)
  /\ (fst r = false -> m = false /\ snd r = all).

Lemma unwrapped_walk_flag y :
  fst (breaks_merge_walk (unwrap_code y)) = fst (breaks_merge_walk y).
Proof. by destruct y. Qed.

Lemma nodes_size_removelast acc prev :
  last acc = Some prev ->
  (nodes_size (removelast acc) + tree_size prev = nodes_size acc)%nat.
Proof.
  intros Hl. apply last_Some in Hl as [l' ->].
  rewrite removelast_last, nodes_size_app. simpl. lia.
Qed.

Lemma merge_breaks_loop_honest ys :
  Forall (honest breaks_merge_walk) ys ->
  forall acc m,
    loop_honest (nodes_size acc + nodes_size ys) m (acc ++ ys) (breaks_merge_loop ys acc m).
Proof.
  induction 1 as [|y ys (Hle & Hlt & Heq) _ IH]; intros acc m.
  - simpl. unfold loop_honest. simpl. rewrite app_nil_r.
    split; [lia|]. split; [by left | by intros ->].
  - pose proof (tree_size_pos y) as Hy.
    assert (Hdefault :
      loop_honest (nodes_size acc + nodes_size (y :: ys)) m (acc ++ y :: ys)
        (breaks_merge_loop ys
           (acc ++ [rewrap_code y (snd (breaks_merge_walk (unwrap_code y)))])
           (m || fst (breaks_merge_walk (unwrap_code y))))).
    { rewrite rewrap_walked, unwrapped_walk_flag.
      destruct (IH (acc ++ [snd (breaks_merge_walk y)]) (m || fst (breaks_merge_walk y)))
        as (IHle & IHlt & IHeq).
      rewrite nodes_size_app in *. simpl in *.
      split; [lia|]. split.
      - intros Hf. destruct (IHlt Hf) as [Hm | Hs]; [|right; lia].
        apply orb_true_iff in Hm as [Hm | Hm]; [by left|].
        right. specialize (Hlt Hm). lia.
      - intros Hf. destruct (IHeq Hf) as [Hm ->].
        apply orb_false_iff in Hm as [-> Hm]. rewrite (Heq Hm).
        by rewrite <- app_assoc. }
    assert (Hkeep :
      loop_honest (nodes_size acc + nodes_size (y :: ys)) m (acc ++ y :: ys)
        (breaks_merge_loop ys (acc ++ [y]) m)).
    { destruct (IH (acc ++ [y]) m) as (IHle & IHlt & IHeq).
      rewrite nodes_size_app in *. simpl in *.
      split; [lia|]. split.
      - intros Hf. destruct (IHlt Hf) as [Hm | Hs]; [by left | right; lia].
      - intros Hf. destruct (IHeq Hf) as [-> ->]. by rewrite <- app_assoc. }
    assert (Hmerge : forall prev a c t,
      last acc = Some prev ->
      loop_honest (nodes_size acc + nodes_size (y :: ys)) m (acc ++ y :: ys)
        (breaks_merge_loop ys (removelast acc ++ [ConditionalBreakNode a c t]) true)).
    { intros prev a c t Hl.
      destruct (IH (removelast acc ++ [ConditionalBreakNode a c t]) true)
        as (IHle & IHlt & IHeq).
      pose proof (nodes_size_removelast acc prev Hl) as Hrl.
      pose proof (tree_size_pos prev) as Hprev.
      rewrite nodes_size_app in *. simpl in *.
      split; [lia|]. split.
      - intros _. right. lia.
      - intros Hf. by destruct (IHeq Hf). }
    simpl. destruct (unwrap_code y); try exact Hdefault.
    destruct (last acc) as [prev|] eqn:El; [|exact Hdefault].
    destruct (unwrap_code prev); try exact Hkeep. by eapply Hmerge.
Qed.

Lemma merge_conditional_breaks_walk_honest n : honest breaks_merge_walk n.
Proof.
  induction n as
    [a sz st i | ns a i IH | a ns IH | inner rc IH | a rc c t e IHt IHe | a cns e IHc IHe
    | sr c body a IH | se cs d a IHc IHd | a t | a c t | a t] using node_ind';
    try (by apply (honest_walk_children_flag breaks_merge_walk
                     ltac:(first [ exact (Block a sz st i) | exact (MultiNode ns a i)
                                 | exact (CodeNode inner rc)
                                 | exact (ConditionNode a rc c t e)
                                 | exact (CascadingConditionNode a cns e)
                                 | exact (LoopNode sr c body a)
                                 | exact (SwitchCaseNode se cs d a)
                                 | exact (ConditionalBreakNode a c t)
                                 | exact (BreakNode a t)
                                 | exact (ContinueNode a t) ]))).
  destruct (merge_breaks_loop_honest ns IH [] false) as (Hle & Hlt & Heq).
  unfold honest. simpl in *. fold (nodes_size ns).
  fold (nodes_size (snd (breaks_merge_loop ns [] false))).
  split; [lia|]. split.
  - intros Hf. destruct (Hlt Hf) as [? | ?]; [done | lia].
  - intros Hf. by destruct (Heq Hf) as [_ ->].
Qed.

(** X8: [_merge_conditional_breaks] reports honestly.  When it reports no
    merge the tree is the one it was given; when it reports a merge the
    tree has fewer nodes than before, so that running the pass again and
    again comes to an end. *)
Theorem merge_conditional_breaks_report seq :
  (fst (merge_conditional_breaks simplify_condition seq) = false ->
   snd (merge_conditional_breaks simplify_condition seq) = seq)
  /\ (fst (merge_conditional_breaks simplify_condition seq) = true ->
      (tree_size (snd (merge_conditional_breaks simplify_condition seq))
       < tree_size seq)%nat).
Proof.
  destruct (merge_conditional_breaks_walk_honest seq) as (_ & Hlt & Heq).
  by split.
Qed.

End MergeConditionalBreaksReport.

Section MergeNestingConditionalsReport.

Variable simplify_condition : cond -> cond.
Variable claripy_ast_from_ail_condition : condition -> cond.

Abbreviation nesting_merge_walk :=
  (merge_nesting_conditionals_walk simplify_condition claripy_ast_from_ail_condition).
Abbreviation nesting_merge_at :=
  (merge_nesting_at simplify_condition claripy_ast_from_ail_condition nesting_merge_walk).

Lemma condnode_truenode_only_size n a c t :
  condnode_truenode_only n = Some (a, c, t) -> (S (tree_size t) <= tree_size n)%nat.
Proof.
  unfold condnode_truenode_only.
  destruct n as
    [? ? ? ? | ? ? ? | ? ? | inner ? | ? ? ? [t'|] [e'|] | ? ? ? | ? ? ? ?
    | ? ? ? ? | ? ? | ? ? ? | ? ?]; simpl; try done.
  - destruct inner as
      [? ? ? ? | ? ? ? | ? ? | ? ? | ? ? ? [t'|] [e'|] | ? ? ? | ? ? ? ?
      | ? ? ? ? | ? ? | ? ? ? | ? ?]; simpl; try done.
    intros [= <- <- <-]. lia.
  - intros [= <- <- <-]. lia.
Qed.

Lemma merge_nesting_at_honest n :
  honest nesting_merge_walk n -> honest nesting_merge_at n.
Proof.
  intros Hn. unfold honest in *. unfold merge_nesting_at.
  destruct (condnode_truenode_only n) as [[[a c] t]|] eqn:En; [|exact Hn].
  apply condnode_truenode_only_size in En.
  destruct (condnode_truenode_only t) as [[[ai ci] ti]|] eqn:Et.
  - apply condnode_truenode_only_size in Et.
    simpl. split; [lia|]. split; [intros _; lia | done].
  - destruct (condbreaknode t) as [[[ab cb] tb]|]; [|exact Hn].
    pose proof (tree_size_pos t).
    simpl. split; [lia|]. split; [intros _; lia | done].
Qed.

Lemma merge_nesting_conditionals_walk_honest n : honest nesting_merge_walk n.
Proof.
  induction n as
    [a sz st i | ns a i IH | a ns IH | inner rc IH | a rc c t e IHt IHe | a cns e IHc IHe
    | sr c body a IH | se cs d a IHc IHd | a t | a c t | a t] using node_ind';
    try (by apply (honest_walk_children_flag nesting_merge_walk
                     ltac:(first [ exact (Block a sz st i) | exact (MultiNode ns a i)
                                 | exact (CodeNode inner rc)
                                 | exact (ConditionNode a rc c t e)
                                 | exact (CascadingConditionNode a cns e)
                                 | exact (LoopNode sr c body a)
                                 | exact (SwitchCaseNode se cs d a)
                                 | exact (ConditionalBreakNode a c t)
                                 | exact (BreakNode a t)
                                 | exact (ContinueNode a t) ]))).
  assert (Hall : Forall (honest nesting_merge_at) ns).
  { eapply Forall_impl; [exact IH|]. intros x. apply merge_nesting_at_honest. }
  destruct (honest_children nesting_merge_at ns Hall) as (Hle & Hlt & Heq).
  unfold honest. simpl in *. fold (nodes_size ns).
  fold (nodes_size (map snd (map nesting_merge_at ns))).
  split; [lia|]. split.
  - intros Hf. specialize (Hlt Hf). lia.
  - intros Hf. by rewrite (Heq Hf).
Qed.

(** X9: [_merge_nesting_conditionals] reports honestly.  When it reports
    no merge the tree is the one it was given; when it reports a merge the
    tree has fewer nodes than before. *)
Theorem merge_nesting_conditionals_report seq :
  (fst (merge_nesting_conditionals simplify_condition claripy_ast_from_ail_condition seq)
   = false ->
   snd (merge_nesting_conditionals simplify_condition claripy_ast_from_ail_condition seq)
   = seq)
  /\ (fst (merge_nesting_conditionals simplify_condition claripy_ast_from_ail_condition seq)
      = true ->
      (tree_size
         (snd (merge_nesting_conditionals simplify_condition
                 claripy_ast_from_ail_condition seq))
       < tree_size seq)%nat).
Proof.
  destruct (merge_nesting_conditionals_walk_honest seq) as (_ & Hlt & Heq).
  by split.
Qed.

End MergeNestingConditionalsReport.

(** ** Runs of conditional breaks *)

Section MergeConditionalBreaksRuns.

Variable simplify_condition : cond -> cond.

Abbreviation run_walk := (merge_conditional_breaks_walk simplify_condition).
Abbreviation run_loop := (merge_breaks_loop simplify_condition run_walk).

(** A conditional break as its address, condition and target. *)
Definition cond_break_of (b : Z * cond * Z) : node :=
  ConditionalBreakNode (fst (fst b)) (snd (fst b)) (snd b).

(** What a run of conditional breaks is merged into, one break after the
    other: the address and the target are those of the break met last, the
    condition is the disjunction built so far with the new condition in
    front. *)
Definition merged_run (first : Z * cond * Z) (rest : list (Z * cond * Z)) : Z * cond * Z :=
  fold_left
    (fun prev_node this =>
       (fst (fst this),
        simplify_condition (claripy_Or (snd (fst this)) (snd (fst prev_node))),
        snd this))
    rest first.

Lemma run_loop_rest rest post acc prev m :
  run_loop (map cond_break_of rest ++ post) (acc ++ [cond_break_of prev]) m
  = run_loop post (acc ++ [cond_break_of (merged_run prev rest)])
      (m || negb (bool_decide (rest = []))).
Proof.
  revert prev m. induction rest as [|[[a c] t] rest IH]; intros [[a0 c0] t0] m.
  - simpl. by rewrite orb_false_r.
  - cbn [map app].
    change (cond_break_of (a, c, t)) with (ConditionalBreakNode a c t).
    change (cond_break_of (a0, c0, t0)) with (ConditionalBreakNode a0 c0 t0).
    cbn [merge_breaks_loop unwrap_code]. rewrite last_snoc. cbn [unwrap_code].
    rewrite removelast_last.
    change (ConditionalBreakNode a (simplify_condition (claripy_Or c c0)) t)
      with (cond_break_of (a, simplify_condition (claripy_Or c c0), t)).
    rewrite IH. rewrite (bool_decide_eq_false_2 (_ :: _ = [])) by done.
    by rewrite orb_true_r.
Qed.

(** X10: a run of conditional breaks in a sequence, with no conditional
    break right before or right after it, is merged into one conditional
    break whatever the targets are: the targets are not compared, and the
    break that is left has the address and the target of the last break of
    the run. *)
Theorem merge_conditional_breaks_run addr pre first rest post :
  from_option is_cond_break false (last pre) = false ->
  from_option is_cond_break false (head post) = false ->
  snd (merge_conditional_breaks simplify_condition
         (SequenceNode addr (pre ++ map cond_break_of (first :: rest) ++ post)))
  = SequenceNode addr
      (merged_children simplify_condition pre
       ++ [cond_break_of (merged_run first rest)]
       ++ merged_children simplify_condition post)
  /\ (rest <> [] ->
      fst (merge_conditional_breaks simplify_condition
             (SequenceNode addr (pre ++ map cond_break_of (first :: rest) ++ post)))
      = true).
Proof.
  intros Hpre Hpost.
  rewrite merge_conditional_breaks_Sequence. unfold merged_children at 1 3.
  apply (last_merged_not_cond_break simplify_condition) in Hpre.
  unfold merged_children in Hpre.
  rewrite loop_app.
  set (acc := snd (run_loop pre [] false)) in *. set (m := fst (run_loop pre [] false)).
  destruct first as [[a0 c0] t0].
  assert (Hfirst :
    run_loop (map cond_break_of ((a0, c0, t0) :: rest) ++ post) acc m
    = run_loop (map cond_break_of rest ++ post) (acc ++ [cond_break_of (a0, c0, t0)]) m).
  { cbn [map app].
    change (cond_break_of (a0, c0, t0)) with (ConditionalBreakNode a0 c0 t0).
    cbn [merge_breaks_loop unwrap_code].
    destruct (last acc) as [prev|] eqn:El.
    - simpl in Hpre. unfold is_cond_break in Hpre.
      destruct (unwrap_code prev); try discriminate Hpre; done.
    - simpl. by rewrite orb_false_r. }
  rewrite Hfirst, run_loop_rest, (loop_fresh simplify_condition post _ _ Hpost).
  cbn [fst snd]. split.
  - by rewrite <- app_assoc.
  - intros Hrest. rewrite (bool_decide_eq_false_2 (rest = [])) by done.
    by rewrite orb_true_r.
Qed.

End MergeConditionalBreaksRuns.

(** ** Jumps to breaks: bodies without exits, and blocks with one *)

(** The blocks the jump-to-break walk visits: those outside nested loops
    and switch-cases. *)
Fixpoint blocks_outside (n : node) : list node :=
  match n with
  | Block _ _ _ _ => [n]
  | LoopNode _ _ _ _ | SwitchCaseNode _ _ _ _ => []
  | BreakNode _ _ | ConditionalBreakNode _ _ _ | ContinueNode _ _ => []
  | MultiNode ns _ _ => flat_map blocks_outside ns
  | SequenceNode _ ns => flat_map blocks_outside ns
  | CodeNode inner _ => blocks_outside inner
  | ConditionNode _ _ _ t e =>
      from_option blocks_outside [] t ++ from_option blocks_outside [] e
  | CascadingConditionNode _ cns e =>
      flat_map (fun cn => blocks_outside (snd cn)) cns ++ from_option blocks_outside [] e
  end.

(** No target of the statement is a loop successor. *)
Definition stays_inside (successor_addrs : gset Z) (s : stmt) : bool :=
  negb (existsb (fun target => bool_decide (target ∈ successor_addrs))
          (extract_jump_targets s)).

Definition no_exit (successor_addrs : gset Z) (n : node) : bool :=
  forallb (fun b => forallb (stays_inside successor_addrs) (block_statements b))
    (blocks_outside n).

Section BreaksWithoutExits.

Variable claripy_ast_from_ail_condition : condition -> cond.
Variable successor_addrs : gset Z.

Abbreviation exits_walk :=
  (rewrite_breaks_walk claripy_ast_from_ail_condition successor_addrs).
Abbreviation scan :=
  (scan_statements claripy_ast_from_ail_condition successor_addrs).

Lemma scan_statements_stays_inside statements idx next todo stmt_idx new_nodes k :
  forallb (stays_inside successor_addrs) todo = true ->
  scan statements idx next todo stmt_idx new_nodes k = Ok (new_nodes, k).
Proof.
  revert stmt_idx. induction todo as [|stmt todo IH]; intros stmt_idx Hall; [done|].
  simpl in Hall. apply andb_true_iff in Hall as [Hs Hall]. simpl.
  destruct (negb (is_jump_stmt stmt) || jumps_to_next_sibling next stmt); [by apply IH|].
  unfold stays_inside in Hs. apply negb_true_iff in Hs. rewrite Hs. by apply IH.
Qed.

Lemma no_jump_stays_inside todo :
  forallb (fun s => negb (is_jump_stmt s)) todo = true ->
  forallb (stays_inside successor_addrs) todo = true.
Proof.
  intros Hall. apply forallb_forall. intros s Hs.
  rewrite forallb_forall in Hall. specialize (Hall s Hs).
  unfold stays_inside. by destruct s as [? [] ? ?| |].
Qed.

Lemma no_exit_app_nodes {A : Type} (f : A -> list node) (xs : list A) :
  forallb (fun b => forallb (stays_inside successor_addrs) (block_statements b))
    (flat_map f xs) = true ->
  Forall (fun x =>
    forallb (fun b => forallb (stays_inside successor_addrs) (block_statements b)) (f x)
    = true) xs.
Proof.
  induction xs as [|x xs IH]; simpl; intros Hall; [done|].
  rewrite forallb_app in Hall. apply andb_true_iff in Hall as [Hx Hxs].
  constructor; [done | by apply IH].
Qed.

Lemma exits_walk_no_exit n :
  no_exit successor_addrs n = true ->
  forall next, exits_walk next n = Ok [n].
Proof.
  unfold no_exit.
  induction n as
    [a sz st i | ns a i IH | a ns IH | inner rc IH | a rc c t e IHt IHe | a cns e IHc IHe
    | sr c body a IH | se cs d a IHc IHd | a t | a c t | a t] using node_ind';
    intros Hn next; try done.
  - simpl in *. rewrite andb_true_r in Hn.
    by rewrite (scan_statements_stays_inside st i next st 0 [] 0 Hn).
  - rewrite breaks_walk_MultiNode.
    assert (Hns : multinode_children claripy_ast_from_ail_condition successor_addrs ns
                  = Ok ns).
    { simpl in Hn. apply no_exit_app_nodes in Hn.
      induction IH as [|x ns Hx _ IHns]; [done|].
      inversion Hn as [|? ? Hnx Hnns]; subst. simpl.
      by rewrite (Hx Hnx None), (IHns Hnns). }
    by rewrite Hns.
  - rewrite breaks_walk_Sequence.
    assert (Hns : sequence_children claripy_ast_from_ail_condition successor_addrs ns
                  = Ok ns).
    { simpl in Hn. apply no_exit_app_nodes in Hn.
      induction IH as [|x ns Hx _ IHns]; [done|].
      inversion Hn as [|? ? Hnx Hnns]; subst. simpl.
      by rewrite (Hx Hnx), (IHns Hnns). }
    by rewrite Hns.
  - simpl in *. by rewrite (IH Hn None).
  - simpl in *. rewrite forallb_app in Hn. apply andb_true_iff in Hn as [Ht He].
    destruct t as [t'|], e as [e'|]; simpl in *;
      rewrite ?(IHt t' eq_refl Ht None), ?(IHe e' eq_refl He None); done.
  - rewrite breaks_walk_Cascading.
    simpl in Hn. rewrite forallb_app in Hn. apply andb_true_iff in Hn as [Hc He].
    assert (Hcns : cascading_pairs claripy_ast_from_ail_condition successor_addrs cns
                   = Ok cns).
    { apply (no_exit_app_nodes (fun cn => blocks_outside (snd cn))) in Hc.
      induction IHc as [|[c x] cns Hx _ IHcns]; [done|].
      inversion Hc as [|? ? Hnx Hnns]; subst. simpl in *.
      by rewrite (Hx Hnx None), (IHcns Hnns). }
    rewrite Hcns. destruct e as [e'|]; simpl in *;
      rewrite ?(IHe e' eq_refl He None); done.
Qed.

(** X11: a loop body with no jump to a loop successor outside its nested
    loops and switch-cases is returned as it is by the jump-to-break pass,
    and the pass raises nothing. *)
Theorem rewrite_conditional_jumps_to_breaks_no_exit loop_node :
  match loop_node with Block _ _ _ _ => false | _ => true end = true ->
  no_exit successor_addrs loop_node = true ->
  rewrite_conditional_jumps_to_breaks claripy_ast_from_ail_condition successor_addrs
    loop_node
  = Ok loop_node.
Proof.
  intros Hroot Hn. unfold rewrite_conditional_jumps_to_breaks.
  rewrite (exits_walk_no_exit loop_node Hn None). by destruct loop_node.
Qed.

(** X12: a block of statements that are no jumps, then a jump to a loop
    successor (not to the next sibling), then again statements that are no
    jumps, is emptied and followed by a block of the statements before the
    jump, a break node, and a block of the statements after it; but this
    last block is there only when there are at least two such statements:
    a single statement after the jump is left out. *)
Theorem rewrite_conditional_jump_to_break_around_exit
    next a sz idx before sidx cidx v target_idx ins_addr after :
  forallb (fun s => negb (is_jump_stmt s)) before = true ->
  forallb (fun s => negb (is_jump_stmt s)) after = true ->
  v ∈ successor_addrs ->
  jumps_to_next_sibling next (Jump sidx (Const cidx v) target_idx ins_addr) = false ->
  rewrite_conditional_jump_to_break claripy_ast_from_ail_condition successor_addrs next
    (Block a sz (before ++ [Jump sidx (Const cidx v) target_idx ins_addr] ++ after) idx)
  = Ok (Block a sz [] idx
        :: sub_block before ins_addr idx
        ++ [BreakNode ins_addr v]
        ++ (if (2 <=? length after)%nat then sub_block after (a + sz) idx else [])).
Proof.
  intros Hbefore Hafter Hv Hnext.
  set (j := Jump sidx (Const cidx v) target_idx ins_addr) in *.
  set (statements := before ++ [j] ++ after).
  assert (Hscan :
    scan statements idx next statements 0 [] 0
    = Ok (sub_block before ins_addr idx ++ [BreakNode ins_addr v], S (length before))).
  { assert (Hgen : forall rest todo stmt_idx,
      forallb (fun s => negb (is_jump_stmt s)) todo = true ->
      scan statements idx next (todo ++ rest) stmt_idx [] 0
      = scan statements idx next rest (stmt_idx + length todo) [] 0).
    { intros rest. induction todo as [|s todo IH]; intros stmt_idx Hall.
      - simpl. by rewrite Nat.add_0_r.
      - simpl in Hall. apply andb_true_iff in Hall as [Hs Hall].
        cbn [app scan_statements length]. rewrite Hs. cbn [orb].
        rewrite (IH (S stmt_idx) Hall). f_equal. lia. }
    unfold statements at 2. rewrite (Hgen ([j] ++ after) before 0%nat Hbefore).
    cbn [app scan_statements plus]. unfold j at 1 2 3. cbn [is_jump_stmt is_Jump negb orb].
    fold j. rewrite Hnext.
    assert (Hex : existsb (fun target => bool_decide (target ∈ successor_addrs))
                    (extract_jump_targets j) = true).
    { simpl. by rewrite bool_decide_eq_true_2. }
    rewrite Hex. unfold j at 1. cbn [loop_create_break_node value_of bind stmt_ins_addr].
    rewrite (scan_statements_stays_inside _ _ _ after _ _ _ (no_jump_stays_inside _ Hafter)).
    do 2 f_equal. unfold j. cbn [stmt_ins_addr]. rewrite Nat.sub_0_r. cbn [drop].
    destruct before as [|b0 before']; [done|].
    rewrite (proj2 (Nat.ltb_lt 0 (length (b0 :: before')))) by (simpl; lia).
    unfold statements. by rewrite drop_0, take_app_length. }
  unfold rewrite_conditional_jump_to_break. fold statements. rewrite Hscan.
  cbn [bind]. 
  assert (Hlen : length statements = (length before + S (length after))%nat).
  { unfold statements. rewrite !length_app. simpl. lia. }
  assert (Hdrop : drop (S (length before)) statements = after).
  { unfold statements. rewrite (app_assoc before [j] after).
    replace (S (length before)) with (length (before ++ [j]))
      by (rewrite length_app; simpl; lia).
    by rewrite drop_app_length. }
  rewrite Hlen, Hdrop.
  destruct (sub_block before ins_addr idx ++ [BreakNode ins_addr v]) as [|n0 ns0] eqn:En.
  { by destruct (sub_block before ins_addr idx). }
  rewrite <- En.
  replace (S (length before) <? length before + S (length after) - 1)%nat
    with (2 <=? length after)%nat.
  2:{ destruct (2 <=? length after)%nat eqn:E1;
        [apply Nat.leb_le in E1 | apply Nat.leb_gt in E1]; symmetry;
        [apply Nat.ltb_lt | apply Nat.ltb_ge]; lia. }
  destruct (2 <=? length after)%nat; by rewrite <- ?app_assoc, ?app_nil_r.
Qed.

End BreaksWithoutExits.

(** ** Fallthrough cases come one after the other *)

Section Lines.

Context {K : Type} `{EqDecision K}.

Implicit Types g : DiGraph K.

Lemma steps_last g n u : steps g (S n) u = steps g n u ≫= succ_of g.
Proof.
  replace (S n) with (n + 1)%nat by lia. rewrite steps_add.
  destruct (steps g n u) as [w|]; simpl; [|done]. by destruct (succ_of g w).
Qed.

(** Two walks that start at nodes without predecessor and meet are the
    same walk. *)
Lemma steps_start_inj g r r' i j k :
  linear g ->
  in_degree g r = 0%nat -> in_degree g r' = 0%nat ->
  steps g i r = Some k -> steps g j r' = Some k ->
  r = r' /\ i = j.
Proof.
  intros Hl Hr Hr'. rewrite in_degree_zero in Hr, Hr'.
  revert j k. induction i as [|i IH]; intros [|j] k Hi Hj.
  - simpl in *. split; congruence.
  - simpl in Hi. injection Hi as <-. rewrite steps_last in Hj.
    destruct (steps g j r') as [w|]; simpl in Hj; [|done].
    apply succ_of_edge in Hj. by apply Hr in Hj.
  - simpl in Hj. injection Hj as <-. rewrite steps_last in Hi.
    destruct (steps g i r) as [w|]; simpl in Hi; [|done].
    apply succ_of_edge in Hi. by apply Hr' in Hi.
  - rewrite steps_last in Hi, Hj.
    destruct (steps g i r) as [w|] eqn:Ei; simpl in Hi; [|done].
    destruct (steps g j r') as [w'|] eqn:Ej; simpl in Hj; [|done].
    pose proof (succ_of_inj g w w' k Hl Hi Hj) as <-.
    destruct (IH j w eq_refl Ej) as [-> ->]. done.
Qed.

(** A walk in an acyclic graph does not come to a node twice. *)
Lemma steps_once g s i j k :
  acyclic g -> steps g i s = Some k -> steps g j s = Some k -> i = j.
Proof.
  intros Ha.
  assert (Hlt : forall a b, (a < b)%nat ->
    steps g a s = Some k -> steps g b s = Some k -> False).
  { intros a b Hab Hsa Hsb.
    replace b with (a + S (b - a - 1))%nat in Hsb by lia.
    rewrite steps_add, Hsa in Hsb. simpl in Hsb. by apply (Ha k (b - a - 1)%nat). }
  intros Hi Hj. destruct (Nat.lt_trichotomy i j) as [Hc | [Hc | Hc]]; [|done|].
  - exfalso. by apply (Hlt i j).
  - exfalso. by apply (Hlt j i).
Qed.

(** The chain that [follow_successors] returns is the walk from the node
    after [cur] to the end. *)
Lemma follow_successors_lookup g fuel cur visited :
  linear g -> acyclic g ->
  NoDup visited ->
  (forall x, x ∈ visited -> x ∈ g_nodes g) ->
  (forall x, x ∈ visited -> exists j, steps g j x = Some cur) ->
  (length (g_nodes g) < fuel + length visited)%nat ->
  exists chain,
    follow_successors g fuel cur visited = Some chain
    /\ forall i, chain !! i = steps g (S i) cur.
Proof.
  intros Hl Ha. revert cur visited.
  induction fuel as [|fuel IH]; intros cur visited Hnd Hin Hreach Hlen.
  { pose proof (length_NoDup_in_nodes g visited Hnd Hin). simpl in Hlen. lia. }
  simpl. destruct (successors g cur) as [|hd tl] eqn:Es.
  - exists []. split; [done|]. intros i. simpl. unfold succ_of. by rewrite Es.
  - assert (Hs : succ_of g cur = Some hd) by (unfold succ_of; by rewrite Es).
    assert (Hhd : hd ∈ g_nodes g).
    { apply succ_of_edge in Hs. by apply (edges_in_nodes g Hl) in Hs as [_ ?]. }
    destruct (bool_decide (hd ∈ visited)) eqn:Eb.
    { apply bool_decide_eq_true_1 in Eb. destruct (Hreach hd Eb) as [j Hj].
      exfalso. apply (Ha hd j). by eapply steps_snoc. }
    apply bool_decide_eq_false_1 in Eb.
    destruct (IH hd (hd :: visited)) as (chain & Hf & Hlook).
    + by constructor.
    + intros x Hx. apply elem_of_cons in Hx as [-> | Hx]; [done | by apply Hin].
    + intros x Hx. apply elem_of_cons in Hx as [-> | Hx]; [by exists 0%nat|].
      destruct (Hreach x Hx) as [j Hj]. exists (S j). by eapply steps_snoc.
    + simpl. lia.
    + rewrite Hf. exists (hd :: chain). split; [done|].
      intros [|i].
      * simpl. by rewrite Hs.
      * change (steps g (S (S i)) cur)
          with (match succ_of g cur with
                | Some v => steps g (S i) v
                | None => None
                end). rewrite Hs. apply Hlook.
Qed.

(** The walk from [s] as a list. *)
Definition line_of g (s : K) (line : list K) : Prop :=
  forall i, line !! i = steps g i s.

Lemma line_of_cons g s chain :
  (forall i, chain !! i = steps g (S i) s) -> line_of g s (s :: chain).
Proof. intros Hc [|i]; [done | apply Hc]. Qed.

Lemma line_of_NoDup g s line : acyclic g -> line_of g s line -> NoDup line.
Proof.
  intros Ha Hline. apply NoDup_alt. intros i j k Hi Hj.
  rewrite Hline in Hi, Hj. by eapply steps_once.
Qed.

Lemma line_of_in_nodes g s line k :
  linear g -> s ∈ g_nodes g -> line_of g s line -> k ∈ line -> k ∈ g_nodes g.
Proof.
  intros Hl Hs Hline Hk. apply list_elem_of_lookup in Hk as [i Hi].
  rewrite Hline in Hi. by eapply steps_in_nodes.
Qed.

Lemma add_chain_fresh (cases : list (K * ref)) chain (new_cases : list (K * ref)) :
  (forall k, k ∈ chain -> k ∈ cases.*1) ->
  NoDup chain ->
  (forall k, k ∈ chain -> k ∉ new_cases.*1) ->
  exists new', add_chain cases chain new_cases = Ok new' /\ new'.*1 = new_cases.*1 ++ chain.
Proof.
  revert new_cases. induction chain as [|k chain IH]; intros new_cases Hin Hnd Hfresh.
  - exists new_cases. by rewrite app_nil_r.
  - apply NoDup_cons in Hnd as [Hk Hnd]. simpl.
    destruct (dict_get_is_Some k cases) as [r Hr]; [apply Hin; by left|].
    rewrite Hr, dict_set_fresh by (apply Hfresh; by left).
    destruct (IH (new_cases ++ [(k, r)])) as (new' & Ha & Hkeys); [| done | |].
    + intros k' Hk'. apply Hin. by right.
    + intros k' Hk'. rewrite fmap_app, elem_of_app. simpl.
      rewrite list_elem_of_singleton. intros [Hc | ->]; [|done].
      revert Hc. apply Hfresh. by right.
    + exists new'. split; [done|]. rewrite Hkeys, fmap_app. simpl.
      by rewrite <- app_assoc.
Qed.

End Lines.

Section FallthroughOrder.

Context {K : Type} `{EqDecision K}.

Variable get_last_statement : node -> option stmt.
Variable get_last_statements : node -> option (list stmt).
Variable remove_last_statement : node -> node.
Variable collect_labels : node -> list (Z * option Z).

Implicit Types g : DiGraph K.

(** The second loop adds to [new_cases] the walk from each starting case,
    one walk after the other. *)
Lemma emit_chains_keys g (cases : list (K * ref)) labels starting
    (new_cases : list (K * ref)) h :
  linear g -> acyclic g ->
  (forall k, k ∈ g_nodes g -> k ∈ cases.*1) ->
  (forall s, s ∈ starting -> s ∈ g_nodes g /\ in_degree g s = 0%nat) ->
  NoDup starting ->
  (forall k s i, k ∈ new_cases.*1 -> s ∈ starting -> steps g i s <> Some k) ->
  exists new' h' lines,
    emit_chains get_last_statements remove_last_statement g cases labels starting
      new_cases h = Some (Ok (new', h'))
    /\ new'.*1 = new_cases.*1 ++ concat lines
    /\ Forall2 (line_of g) starting lines.
Proof.
  intros Hl Ha Hnodes. revert new_cases h.
  induction starting as [|s starting IH]; intros new_cases h Hstart Hnd Hfresh.
  - exists new_cases, h, []. simpl. by rewrite app_nil_r.
  - apply NoDup_cons in Hnd as [Hs Hnd].
    destruct (Hstart s) as [HsV Hs0]; [by left|].
    simpl. destruct (dict_get_is_Some s cases (Hnodes s HsV)) as [r Hr]. rewrite Hr.
    destruct (follow_successors_lookup g (length (g_nodes g)) s [s] Hl Ha)
      as (chain & Hf & Hlook).
    { apply NoDup_singleton. }
    { intros x Hx. apply list_elem_of_singleton in Hx. by subst. }
    { intros x Hx. apply list_elem_of_singleton in Hx. subst. by exists 0%nat. }
    { simpl. lia. }
    rewrite Hf.
    pose proof (line_of_cons g s chain Hlook) as Hline.
    pose proof (line_of_NoDup g s _ Ha Hline) as Hlnd.
    apply NoDup_cons in Hlnd as [Hschain Hcnd].
    assert (Hsfresh : s ∉ new_cases.*1).
    { intros Hin. apply (Hfresh s s 0%nat Hin); [by left | done]. }
    rewrite dict_set_fresh by done.
    destruct (add_chain_fresh cases chain (new_cases ++ [(s, r)]))
      as (new1 & Hadd & Hkeys1); [| done | |].
    { intros k Hk. apply Hnodes. apply (line_of_in_nodes g s (s :: chain)); try done.
      by right. }
    { intros k Hk. rewrite fmap_app, elem_of_app. simpl.
      rewrite list_elem_of_singleton. intros [Hc | ->]; [|done].
      apply list_elem_of_lookup in Hk as [i Hi]. rewrite Hlook in Hi.
      apply (Hfresh k s (S i) Hc); [by left | done]. }
    rewrite Hadd.
    edestruct (IH new1) as (new' & h' & lines & He & Hkeys & Hlines); [| done | |].
    { intros s' Hs'. apply Hstart. by right. }
    { intros k s' i Hk Hs' Hi. rewrite Hkeys1, fmap_app, !elem_of_app in Hk. simpl in Hk.
      rewrite list_elem_of_singleton in Hk.
      destruct (Hstart s') as [_ Hs'0]; [by right|].
      assert (Hline_k : k ∈ s :: chain -> False).
      { intros Hin. apply list_elem_of_lookup in Hin as [j Hj]. rewrite Hline in Hj.
        destruct (steps_start_inj g s' s i j k Hl Hs'0 Hs0 Hi Hj) as [-> _]. done. }
      destruct Hk as [[Hk | ->] | Hk].
      - apply (Hfresh k s' i Hk); [by right | done].
      - apply Hline_k. by left.
      - apply Hline_k. by right. }
    exists new', h', ((s :: chain) :: lines). split; [exact He|]. split.
    + rewrite Hkeys, Hkeys1, fmap_app. simpl. by rewrite <- !app_assoc.
    + by constructor.
Qed.

(** Two keys next to each other. *)
Definition next_to_each_other (u v : K) (keys : list K) : Prop :=
  exists i, keys !! i = Some u /\ keys !! S i = Some v.

Lemma next_to_each_other_app u v pre keys post :
  next_to_each_other u v keys -> next_to_each_other u v (pre ++ keys ++ post).
Proof.
  intros (i & Hu & Hv). exists (length pre + i)%nat.
  replace (S (length pre + i)) with (length pre + S i)%nat by lia.
  split.
  - rewrite (lookup_app_r pre) by lia.
    replace (length pre + i - length pre)%nat with i by lia.
    by apply lookup_app_l_Some.
  - rewrite (lookup_app_r pre) by lia.
    replace (length pre + S i - length pre)%nat with (S i) by lia.
    by apply lookup_app_l_Some.
Qed.

Lemma next_to_each_other_concat u v (lines : list (list K)) line :
  line ∈ lines -> next_to_each_other u v line -> next_to_each_other u v (concat lines).
Proof.
  intros Hin Hn. apply list_elem_of_split in Hin as (l1 & l2 & ->).
  rewrite concat_app. simpl. by apply next_to_each_other_app.
Qed.

(** X13: the case that another case falls through to comes right after it.
    Once the loops of the inferred graph are broken, every edge that is
    left, from a case to the case its last goto leads to, joins two keys
    that are next to each other in the new mapping. *)
Theorem reorganize_switch_cases_fallthrough_order (h : heap) (cases : list (K * ref)) :
  NoDup cases.*1 ->
  Forall (fun kr => is_Some (node_addr (h (snd kr)))) cases ->
  exists graph new_cases h',
    break_loops (S (length (g_edges (inferred_graph get_last_statement h cases))))
      (inferred_graph get_last_statement h cases) = Some graph
    /\ reorganize_switch_cases get_last_statement get_last_statements
         remove_last_statement collect_labels h cases = Some (Ok (new_cases, h'))
    /\ forall u v, (u, v) ∈ g_edges graph -> next_to_each_other u v new_cases.*1.
Proof.
  intros Hnd Haddr.
  destruct (inferred_graph_spec get_last_statement h cases)
    as (a & c & Hc & Hg & Hl & Hnodes).
  { intros kr Hkr. rewrite Forall_forall in Haddr.
    destruct (Haddr kr Hkr) as [x Hx]. by rewrite Hx. }
  rewrite Hg. unfold reorganize_switch_cases. rewrite Hc.
  destruct (break_loops_spec (S (length (g_edges (fallthrough_graph a c))))
              (fallthrough_graph a c) Hl) as (g' & Hb & Hn & Hl' & Ha'); [lia|].
  exists g'. rewrite Hb.
  destruct (g_nodes (fallthrough_graph a c)) as [|n0 nodes0] eqn:En.
  { exists cases, h. split; [done|]. split; [done|].
    intros u v Huv. apply (edges_in_nodes g' Hl') in Huv as [Hu _].
    rewrite Hn in Hu. by apply elem_of_nil in Hu. }
  cbv iota. rewrite <- En in Hnodes, Hn. clear n0 nodes0 En.
  rewrite (unlinked_and_starting_spec g' cases [] []); [|done|].
  2:{ intros k Hk. by apply elem_of_nil in Hk. }
  rewrite !app_nil_l.
  set (starting := filter (fun k => k ∈ g_nodes g' /\ in_degree g' k = 0%nat) cases.*1).
  set (unlinked := filter (fun kr : K * ref => fst kr ∉ g_nodes g') cases).
  destruct (emit_chains_keys g' cases
              (flat_map (fun kc => collect_labels (h (snd kc))) cases)
              starting unlinked h Hl' Ha')
    as (new' & h' & lines & He & Hkeys & Hlines).
  { intros k Hk. apply Hnodes. by rewrite <- Hn. }
  { intros s Hs. by apply list_elem_of_filter in Hs as [? _]. }
  { by apply NoDup_filter. }
  { intros k s i Hk Hs Hi.
    apply list_elem_of_fmap in Hk as ([k' r] & -> & Hkr).
    apply list_elem_of_filter in Hkr as [Hout _]. simpl in Hout.
    apply list_elem_of_filter in Hs as [[HsV _] _].
    apply Hout. by eapply steps_in_nodes. }
  rewrite He.
  assert (Hlen : length new' = length cases).
  { destruct (emit_chains_spec get_last_statements remove_last_statement g' cases
                (flat_map (fun kc => collect_labels (h (snd kc))) cases)
                starting unlinked h Hl' Ha')
      as (new2 & h2 & He2 & Hsub & Hnd' & Hkeys2 & Hreach & Hf).
    { intros k Hk. apply Hnodes. by rewrite <- Hn. }
    { intros s Hs. by apply list_elem_of_filter in Hs as [[? _] _]. }
    rewrite He in He2. injection He2 as <- <-.
    assert (Hfrom : forall kv, kv ∈ new' -> kv ∈ cases).
    { intros kv Hkv. destruct (Hsub kv Hkv) as [Hkv' | Hkv']; [|done].
      by apply list_elem_of_filter in Hkv' as [_ ?]. }
    apply Permutation_length, NoDup_Permutation.
    - apply NoDup_keys_pairs, Hnd'. by apply filter_keys_NoDup.
    - by apply NoDup_keys_pairs.
    - intros [k r]. split; [apply Hfrom|]. intros Hkr.
      assert (Hk : k ∈ new'.*1).
      { destruct (decide (k ∈ g_nodes g')) as [HkV | HkV].
        - destruct (reached_from_start g' k Hl' Ha' HkV) as (r0 & i & Hr0 & Hd0 & Hs0).
          apply (Hreach r0 i k); [|done].
          apply list_elem_of_filter. split; [done|]. apply Hnodes. by rewrite <- Hn.
        - apply Hkeys2. apply list_elem_of_fmap. exists (k, r). split; [done|].
          by apply list_elem_of_filter. }
      apply list_elem_of_fmap in Hk as ([k' r'] & Heq & Hkr'). simpl in Heq. subst k'.
      by rewrite (NoDup_keys_same_value cases k r r' Hnd Hkr (Hfrom _ Hkr')). }
  rewrite Hlen, Nat.eqb_refl.
  exists new', h'. split; [done|]. split; [done|].
  intros u v Huv.
  pose proof (edges_in_nodes g' Hl' u v Huv) as [Hu Hv].
  destruct (reached_from_start g' u Hl' Ha' Hu) as (r0 & i & Hr0 & Hd0 & Hs0).
  assert (Hstart : r0 ∈ starting).
  { apply list_elem_of_filter. split; [done|]. apply Hnodes. by rewrite <- Hn. }
  apply list_elem_of_lookup in Hstart as [n Hn0].
  destruct (Forall2_lookup_l _ _ _ _ _ Hlines Hn0) as (line & Hline_at & Hline).
  rewrite Hkeys. rewrite <- (app_nil_r (concat lines)).
  apply next_to_each_other_app.
  apply (next_to_each_other_concat u v lines line).
  { by eapply list_elem_of_lookup_2. }
  exists i. rewrite !Hline. split; [done|].
  eapply steps_snoc; [done|]. by apply edge_succ_of.
Qed.

End FallthroughOrder.

(** ** Bookkeeping of sequences *)

Section NewSequencesProperties.

Context {S : Type} `{EqDecision S}.

(** X14: after [_update_new_sequences] the list holds the sequences that
    were neither removed nor replaced and the sequences that replace one
    that was not removed, and no others; a sequence that is both removed
    and replaced is dropped, and so is one replaced by something that is
    no sequence. *)
Theorem update_new_sequences_elem (new_sequences removed : list S)
    (replaced : list (S * replacement S)) (x : S) :
  x ∈ update_new_sequences new_sequences removed replaced
  <-> (x ∈ new_sequences /\ x ∉ removed /\ dict_get x replaced = None)
      \/ exists y, y ∈ new_sequences /\ y ∉ removed
                   /\ dict_get y replaced = Some (ReplacedBySequence x).
Proof.
  unfold update_new_sequences.
  assert (Hgen : forall acc,
    x ∈ fold_left
          (fun new_sequences' new_seq_ =>
             if bool_decide (new_seq_ ∈ removed) then new_sequences'
             else
               match dict_get new_seq_ replaced with
               | Some (ReplacedBySequence r) => new_sequences' ++ [r]
               | Some ReplacedByOther => new_sequences'
               | None => new_sequences' ++ [new_seq_]
               end)
          new_sequences acc
    <-> x ∈ acc
        \/ (x ∈ new_sequences /\ x ∉ removed /\ dict_get x replaced = None)
        \/ exists y, y ∈ new_sequences /\ y ∉ removed
                     /\ dict_get y replaced = Some (ReplacedBySequence x)).
  { induction new_sequences as [|s l IH]; intros acc.
    - simpl. split; [by left|]. intros [? | [[Hx _] | (y & Hy & _)]]; [done | |].
      + by apply elem_of_nil in Hx.
      + by apply elem_of_nil in Hy.
    - simpl. rewrite IH. clear IH.
      destruct (bool_decide (s ∈ removed)) eqn:Er.
      + apply bool_decide_eq_true_1 in Er. split.
        * intros [? | [(Hx & Hnr & Hg) | (y & Hy & Hnr & Hg)]]; [by left | |].
          -- right. left. split; [by right | done].
          -- right. right. exists y. split; [by right | done].
        * intros [? | [(Hx & Hnr & Hg) | (y & Hy & Hnr & Hg)]]; [by left | |].
          -- apply elem_of_cons in Hx as [-> | Hx]; [done|]. right. by left.
          -- apply elem_of_cons in Hy as [-> | Hy]; [done|]. right. right. by exists y.
      + apply bool_decide_eq_false_1 in Er.
        destruct (dict_get s replaced) as [[r|]|] eqn:Eg.
        * rewrite elem_of_app, list_elem_of_singleton. split.
          -- intros [[? | ->] | [(Hx & Hnr & Hg) | (y & Hy & Hnr & Hg)]].
             ++ by left.
             ++ right. right. exists s. split; [by left | done].
             ++ right. left. split; [by right | done].
             ++ right. right. exists y. split; [by right | done].
          -- intros [? | [(Hx & Hnr & Hg) | (y & Hy & Hnr & Hg)]].
             ++ left. by left.
             ++ apply elem_of_cons in Hx as [-> | Hx]; [congruence|]. right. by left.
             ++ apply elem_of_cons in Hy as [-> | Hy].
                ** left. right. congruence.
                ** right. right. by exists y.
        * split.
          -- intros [? | [(Hx & Hnr & Hg) | (y & Hy & Hnr & Hg)]]; [by left | |].
             ++ right. left. split; [by right | done].
             ++ right. right. exists y. split; [by right | done].
          -- intros [? | [(Hx & Hnr & Hg) | (y & Hy & Hnr & Hg)]]; [by left | |].
             ++ apply elem_of_cons in Hx as [-> | Hx]; [congruence|]. right. by left.
             ++ apply elem_of_cons in Hy as [-> | Hy]; [congruence|].
                right. right. by exists y.
        * rewrite elem_of_app, list_elem_of_singleton. split.
          -- intros [[? | ->] | [(Hx & Hnr & Hg) | (y & Hy & Hnr & Hg)]].
             ++ by left.
             ++ right. left. split; [by left | done].
             ++ right. left. split; [by right | done].
             ++ right. right. exists y. split; [by right | done].
          -- intros [? | [(Hx & Hnr & Hg) | (y & Hy & Hnr & Hg)]].
             ++ left. by left.
             ++ apply elem_of_cons in Hx as [-> | Hx]; [left; by right|]. right. by left.
             ++ apply elem_of_cons in Hy as [-> | Hy]; [congruence|].
                right. right. by exists y. }
  rewrite Hgen. split; [intros [Hnil | ?]; [by apply elem_of_nil in Hnil | done] | by right].
Qed.

End NewSequencesProperties.

(** ** Replacing a child *)

(** The children that [replace_node_in_node] looks at. *)
Definition looked_at (parent_node : parent_refs) : list ref :=
  match parent_node with
  | SequenceParent nodes => nodes
  | ConditionParent true_node false_node =>
      from_option (fun x => [x]) [] true_node ++ from_option (fun x => [x]) [] false_node
  | CascadingConditionParent condition_and_nodes => map snd condition_and_nodes
  | OtherParent => []
  end.

Lemma replace_first_back old_node new_node nodes :
  new_node ∉ nodes ->
  replace_first new_node old_node (replace_first old_node new_node nodes) = nodes.
Proof.
  induction nodes as [|x nodes IH]; [done|]. intros Hnew.
  apply not_elem_of_cons in Hnew as [Hne Hnew]. simpl.
  destruct (bool_decide (x = old_node)) eqn:Ex.
  - apply bool_decide_eq_true_1 in Ex. subst. simpl.
    by rewrite bool_decide_eq_true_2.
  - simpl. rewrite bool_decide_eq_false_2 by congruence. by rewrite IH.
Qed.

Lemma replace_first_branch_back old_node new_node cns :
  new_node ∉ map snd cns ->
  replace_first_branch new_node old_node (replace_first_branch old_node new_node cns) = cns.
Proof.
  induction cns as [|[c x] cns IH]; [done|]. simpl. intros Hnew.
  apply not_elem_of_cons in Hnew as [Hne Hnew].
  destruct (bool_decide (x = old_node)) eqn:Ex.
  - apply bool_decide_eq_true_1 in Ex. subst. simpl.
    by rewrite bool_decide_eq_true_2.
  - simpl. rewrite bool_decide_eq_false_2 by congruence. by rewrite IH.
Qed.

(** X15: replacing [old_node] by a node that is not yet a child, and then
    that node by [old_node], gives back the parent: only the first place
    where [old_node] stands is touched, and nothing is when it stands
    nowhere. *)
Theorem replace_node_in_node_round_trip parent_node old_node new_node parent_node' :
  new_node ∉ looked_at parent_node ->
  replace_node_in_node parent_node old_node new_node = Ok parent_node' ->
  replace_node_in_node parent_node' new_node old_node = Ok parent_node.
Proof.
  intros Hnew Hr.
  destruct parent_node as [nodes | t e | cns |]; simpl in *.
  - injection Hr as <-. simpl. by rewrite replace_first_back.
  - rewrite elem_of_app in Hnew.
    destruct (bool_decide (t = Some old_node)) eqn:Et.
    + injection Hr as <-. apply bool_decide_eq_true_1 in Et. subst t. simpl.
      by rewrite bool_decide_eq_true_2.
    + apply bool_decide_eq_false_1 in Et.
      assert (Htn : t <> Some new_node).
      { intros ->. apply Hnew. left. simpl. by left. }
      destruct (bool_decide (e = Some old_node)) eqn:Ee.
      * injection Hr as <-. apply bool_decide_eq_true_1 in Ee. subst e. simpl.
        rewrite (bool_decide_eq_false_2 (t = Some new_node)) by done.
        by rewrite bool_decide_eq_true_2.
      * injection Hr as <-. simpl.
        rewrite (bool_decide_eq_false_2 (t = Some new_node)) by done.
        rewrite (bool_decide_eq_false_2 (e = Some new_node)); [done|].
        intros ->. apply Hnew. right. simpl. by left.
  - injection Hr as <-. simpl. by rewrite replace_first_branch_back.
  - done.
Qed.

Lemma replace_node_in_node_round_trip_witness :
  replace_node_in_node (SequenceParent [4; 5; 1]%nat) 4%nat 1%nat
  = Ok (SequenceParent [1; 5; 1]%nat).
Proof.
  apply (replace_node_in_node_round_trip
           (SequenceParent [1; 5; 1]%nat) 1%nat 4%nat (SequenceParent [4; 5; 1]%nat)).
  - apply (bool_decide_unpack _). vm_compute. exact I.
  - reflexivity.
Defined.

(** ** Break nodes for a conditional jump with one target *)

(** X16: a conditional jump that has only a true target, a constant in
    the loop-successor set, becomes a conditional break on its condition;
    one that has only a false target, a constant in the set, becomes a
    conditional break on the negated condition. *)
Theorem loop_create_break_node_single_target (conv : condition -> cond) (succs : gset Z)
    idx c i v ti1 ti2 ins_addr :
  v ∈ succs ->
  loop_create_break_node conv
    (ConditionalJump idx c (Some (Const i v)) None ti1 ti2 ins_addr) succs
  = Ok (Some (ConditionalBreakNode ins_addr (conv (AilCond c)) v))
  /\ loop_create_break_node conv
       (ConditionalJump idx c None (Some (Const i v)) ti1 ti2 ins_addr) succs
     = Ok (Some (ConditionalBreakNode ins_addr
                   (conv (AilCond (UnaryOp (expr_idx c) "Not" c))) v)).
Proof.
  intros Hv. unfold loop_create_break_node. cbn [bind opt_value_of value_of].
  by rewrite !(some_in_true _ _ Hv).
Qed.

Lemma loop_create_break_node_single_target_witness :
  loop_create_break_node sample_conversion
    (ConditionalJump None (OtherExpr None 7) (Some (Const None 200)) None None None 64)
    {[ 200 ]}
  = Ok (Some (ConditionalBreakNode 64 (sample_conversion (AilCond (OtherExpr None 7))) 200))
  /\ loop_create_break_node sample_conversion
       (ConditionalJump None (OtherExpr None 7) None (Some (Const None 200)) None None 64)
       {[ 200 ]}
     = Ok (Some (ConditionalBreakNode 64
                   (sample_conversion
                      (AilCond (UnaryOp (expr_idx (OtherExpr None 7)) "Not"
                                  (OtherExpr None 7)))) 200)).
Proof.
  apply (loop_create_break_node_single_target sample_conversion {[ 200 ]}
           None (OtherExpr None 7) None 200 None None 64).
  apply (bool_decide_unpack _). vm_compute. exact I.
Defined.

(** ** What the redundant-jump pass keeps *)

(** The statements of a tree that are no jumps. *)
Definition other_statements (n : node) : list stmt :=
  filter (fun s => is_jump_stmt s = false) (all_statements n).

Lemma all_statements_nodes (ns : list node) :
  flat_map block_statements (flat_map walked_blocks ns) = flat_map all_statements ns.
Proof. apply flat_map_flat_map. Qed.

Lemma all_statements_pairs {C : Type} (cns : list (C * node)) :
  flat_map block_statements (flat_map (fun cn => walked_blocks (snd cn)) cns)
  = flat_map (fun cn => all_statements (snd cn)) cns.
Proof. apply flat_map_flat_map. Qed.

Lemma other_statements_nodes (f : node -> node) ns :
  (forall x, other_statements (f x) = other_statements x) ->
  filter (fun s => is_jump_stmt s = false) (flat_map all_statements (map f ns))
  = filter (fun s => is_jump_stmt s = false) (flat_map all_statements ns).
Proof.
  intros Hf. rewrite flat_map_map, !filter_flat_map. apply flat_map_ext, Hf.
Qed.

Lemma other_statements_pairs {C : Type} (f : node -> node) (cns : list (C * node)) :
  (forall x, other_statements (f x) = other_statements x) ->
  filter (fun s => is_jump_stmt s = false)
    (flat_map (fun cn => all_statements (snd cn)) (map (fun cn => (fst cn, f (snd cn))) cns))
  = filter (fun s => is_jump_stmt s = false)
      (flat_map (fun cn => all_statements (snd cn)) cns).
Proof.
  intros Hf. rewrite flat_map_map, !filter_flat_map. apply flat_map_ext.
  intros [c x]. apply Hf.
Qed.

Lemma other_statements_option (f : node -> node) (t : option node) :
  (forall x, other_statements (f x) = other_statements x) ->
  filter (fun s => is_jump_stmt s = false)
    (flat_map block_statements
       match option_map f t with Some t' => walked_blocks t' | None => [] end)
  = filter (fun s => is_jump_stmt s = false)
      (flat_map block_statements
         match t with Some t' => walked_blocks t' | None => [] end).
Proof. intros Hf. destruct t as [x|]; simpl; [apply Hf | done]. Qed.

(** The default handlers keep the statements that the walk of the
    children keeps. *)
Lemma other_statements_walk_children (f : node -> node) n :
  (forall x, other_statements (f x) = other_statements x) ->
  other_statements (walk_children f n) = other_statements n.
Proof.
  intros Hf. unfold other_statements, all_statements.
  destruct n as
    [a sz st i | ns a i | a ns | inner rc | a rc c t e | a cns e | s c body a
    | se cs d a | a t | a c t | a t]; simpl; try done.
  - rewrite !all_statements_nodes. by apply other_statements_nodes.
  - rewrite !all_statements_nodes. by apply other_statements_nodes.
  - apply Hf.
  - rewrite !flat_map_app, !filter_app. by rewrite !other_statements_option.
  - rewrite !flat_map_app, !filter_app, !all_statements_pairs.
    by rewrite other_statements_option, other_statements_pairs.
  - apply Hf.
  - rewrite !flat_map_app, !filter_app, !all_statements_pairs.
    by rewrite other_statements_option, other_statements_pairs.
Qed.

Lemma filter_removelast_jump statements s :
  last statements = Some s -> is_jump_stmt s = true ->
  filter (fun s => is_jump_stmt s = false) (removelast statements)
  = filter (fun s => is_jump_stmt s = false) statements.
Proof.
  intros Hl Hs. apply last_Some in Hl as [l' ->].
  rewrite removelast_last, filter_app.
  rewrite (filter_cons_False _ s) by congruence. by rewrite app_nil_r.
Qed.

Lemma filter_snoc_jump (l : list stmt) s :
  is_jump_stmt s = true ->
  filter (fun s => is_jump_stmt s = false) (l ++ [s])
  = filter (fun s => is_jump_stmt s = false) l.
Proof.
  intros Hs. rewrite filter_app.
  rewrite (filter_cons_False _ s) by congruence. by rewrite app_nil_r.
Qed.

Lemma drop_jump_to_next_Sequence_others next_addr statements :
  filter (fun s => is_jump_stmt s = false) (drop_jump_to_next_Sequence next_addr statements)
  = filter (fun s => is_jump_stmt s = false) statements.
Proof.
  unfold drop_jump_to_next_Sequence.
  destruct (last statements) as [[idx t ti ia | idx c t f ti fi ia | idx ia]|] eqn:El;
    try done.
  - destruct (const_is t next_addr); [|done]. by eapply filter_removelast_jump.
  - destruct (opt_const_is t next_addr);
      [|destruct (opt_const_is f next_addr); [|done]];
      rewrite filter_snoc_jump by done; by eapply filter_removelast_jump.
Qed.

Lemma drop_jump_to_next_MultiNode_others next_addr statements :
  filter (fun s => is_jump_stmt s = false) (drop_jump_to_next_MultiNode next_addr statements)
  = filter (fun s => is_jump_stmt s = false) statements.
Proof.
  unfold drop_jump_to_next_MultiNode.
  destruct (last statements) as [[idx t ti ia | idx c t f ti fi ia | idx ia]|] eqn:El;
    try done.
  - destruct (const_is t next_addr); [|done]. by eapply filter_removelast_jump.
  - destruct (opt_const_is t next_addr);
      [|destruct (opt_const_is f next_addr); [|done]];
      rewrite filter_snoc_jump by done; by eapply filter_removelast_jump.
Qed.

Lemma on_jump_block_others (g : list stmt -> list stmt) x :
  (forall st, filter (fun s => is_jump_stmt s = false) (g st)
              = filter (fun s => is_jump_stmt s = false) st) ->
  other_statements (on_jump_block g x) = other_statements x.
Proof.
  intros Hg. unfold other_statements, all_statements.
  destruct x as [a sz st i | ns a i | | | | | | | | |]; simpl; try done.
  - by rewrite !app_nil_r.
  - destruct (last ns) as [[ba sz st bi| | | | | | | | | |]|] eqn:El; try done.
    apply last_Some in El as [l' ->]. rewrite removelast_last. simpl.
    rewrite !flat_map_app, !filter_app. simpl. by rewrite !app_nil_r, Hg.
Qed.

Lemma each_but_last_others (g : option Z -> list stmt -> list stmt) ns :
  (forall a st, filter (fun s => is_jump_stmt s = false) (g a st)
                = filter (fun s => is_jump_stmt s = false) st) ->
  filter (fun s => is_jump_stmt s = false) (flat_map all_statements (each_but_last g ns))
  = filter (fun s => is_jump_stmt s = false) (flat_map all_statements ns).
Proof.
  intros Hg. induction ns as [|x [|y ns] IH]; try done.
  change (each_but_last g (x :: y :: ns))
    with (on_jump_block (g (node_addr y)) x :: each_but_last g (y :: ns)).
  cbn [flat_map]. rewrite !filter_app, IH. cbn [flat_map]. rewrite filter_app. f_equal.
  apply (on_jump_block_others (g (node_addr y)) x). intros st. apply Hg.
Qed.

Lemma remove_redundant_jumps_walk_others fuel n :
  other_statements (remove_redundant_jumps_walk fuel n) = other_statements n.
Proof.
  revert n. induction fuel as [|fuel IH]; intros n; [done|].
  destruct n as
    [a sz st i | ns a i | a ns | inner rc | a rc c t e | a cns e | s c body a
    | se cs d a | a t | a c t | a t];
    try (by apply (other_statements_walk_children (remove_redundant_jumps_walk fuel))).
  - cbn [remove_redundant_jumps_walk]. unfold other_statements, all_statements.
    cbn [walked_blocks]. rewrite !all_statements_nodes.
    rewrite (other_statements_nodes _ _ IH).
    apply each_but_last_others, drop_jump_to_next_MultiNode_others.
  - cbn [remove_redundant_jumps_walk]. unfold other_statements, all_statements.
    cbn [walked_blocks]. rewrite !all_statements_nodes.
    rewrite (other_statements_nodes _ _ IH).
    apply each_but_last_others, drop_jump_to_next_Sequence_others.
Qed.

(** X17: [_remove_redundant_jumps] touches jumps only: the statements of
    the tree that are no jumps and no conditional jumps are the same
    afterwards, in the same order. *)
Theorem remove_redundant_jumps_keeps_other_statements seq :
  other_statements (remove_redundant_jumps seq) = other_statements seq.
Proof. apply remove_redundant_jumps_walk_others. Qed.

(** ** What the removal of trailing continue nodes keeps *)

Lemma walked_blocks_at_end ns :
  Forall (fun x => walked_blocks (remove_continue_node_at_loop_body_ends x)
                   = walked_blocks x) ns ->
  flat_map walked_blocks (at_end ns) = flat_map walked_blocks ns.
Proof.
  induction ns as [|x ns _] using rev_ind; [done|].
  intros Hall. apply Forall_app in Hall as [_ Hx]. inversion Hx as [|? ? Hx' _]; subst.
  unfold at_end. rewrite last_snoc, removelast_last, flat_map_app.
  destruct x; simpl in *; try (by rewrite flat_map_app; simpl; rewrite ?Hx').
  by rewrite !app_nil_r.
Qed.

Lemma remove_continue_node_blocks_same n :
  walked_blocks (remove_continue_node_at_loop_body_ends n) = walked_blocks n.
Proof.
  induction n as
    [a sz st i | ns a i IH | a ns IH | inner rc IH | a rc c t e IHt IHe | a cns e IHc IHe
    | sr c body a IH | se cs d a IHc IHd | a t | a c t | a t] using node_ind'; try done.
  - rewrite remove_continue_MultiNode. simpl. by apply walked_blocks_at_end.
  - rewrite remove_continue_Sequence. simpl. by apply walked_blocks_at_end.
  - simpl. f_equal.
    + destruct t as [x|]; simpl; [by apply IHt | done].
    + destruct e as [x|]; simpl; [by apply IHe | done].
  - simpl. f_equal.
    + induction IHc as [|[c x] l Hx _ IHl]; simpl in *; [done|]. by rewrite Hx, IHl.
    + destruct e as [x|]; simpl; [by apply IHe | done].
Qed.












(** ** What the jump-to-continue pass keeps *)

Section ContinuesKeep.

Variable claripy_ast_from_ail_condition : condition -> cond.

Definition others_of (ns : list node) : list stmt :=
  filter (fun s => is_jump_stmt s = false) (flat_map all_statements ns).

Lemma others_of_single n : others_of [n] = other_statements n.
Proof. unfold others_of. simpl. by rewrite app_nil_r. Qed.

Lemma others_of_app xs ys : others_of (xs ++ ys) = others_of xs ++ others_of ys.
Proof. unfold others_of. by rewrite flat_map_app, filter_app. Qed.

Lemma other_statements_in_slot child now :
  other_statements (in_slot child now) = others_of now.
Proof.
  unfold other_statements, others_of, all_statements.
  destruct now as [|x [|y now]]; simpl; try done.
  - by rewrite !app_nil_r.
  - by rewrite !flat_map_app, all_statements_nodes.
Qed.

Lemma rewrite_jump_to_continue_others continue_node_addr this :
  others_of (rewrite_jump_to_continue claripy_ast_from_ail_condition continue_node_addr this)
  = other_statements this.
Proof.
  destruct this as [a sz st i | | | | | | | | | |]; try apply others_of_single.
  unfold rewrite_jump_to_continue.
  destruct (last st) as [[idx t ti ia | idx c t f ti fi ia | idx ia]|] eqn:El;
    try apply others_of_single.
  - destruct (existsb _ _); [|apply others_of_single].
    unfold others_of, other_statements, all_statements. simpl.
    rewrite !app_nil_r. by eapply filter_removelast_jump.
  - destruct (opt_const_is t continue_node_addr).
    + destruct f as [target|];
        unfold others_of, other_statements, all_statements; simpl;
        rewrite ?app_nil_r; try (by eapply filter_removelast_jump).
      rewrite filter_snoc_jump by done. by eapply filter_removelast_jump.
    + destruct (opt_const_is f continue_node_addr); [|apply others_of_single].
      destruct t as [target|];
        unfold others_of, other_statements, all_statements; simpl;
        rewrite ?app_nil_r; try (by eapply filter_removelast_jump).
      rewrite filter_snoc_jump by done. by eapply filter_removelast_jump.
Qed.

Lemma others_of_flat_map (w : node -> list node) ns :
  Forall (fun x => others_of (w x) = other_statements x) ns ->
  others_of (flat_map w ns) = others_of ns.
Proof.
  induction 1 as [|x ns Hx _ IH]; [done|]. simpl.
  rewrite others_of_app, Hx, IH.
  change (x :: ns) with ([x] ++ ns). by rewrite others_of_app, others_of_single.
Qed.

Lemma others_of_pairs {C : Type} (w : node -> list node) (cns : list (C * node)) :
  Forall (fun cn => others_of (w (snd cn)) = other_statements (snd cn)) cns ->
  filter (fun s => is_jump_stmt s = false)
    (flat_map (fun cn => all_statements (snd cn))
       (map (fun cn => (fst cn, in_slot (snd cn) (w (snd cn)))) cns))
  = filter (fun s => is_jump_stmt s = false)
      (flat_map (fun cn => all_statements (snd cn)) cns).
Proof.
  induction 1 as [|[c x] cns Hx _ IH]; [done|]. simpl in *.
  rewrite !filter_app, IH. f_equal.
  change (filter (fun s => is_jump_stmt s = false) (all_statements (in_slot x (w x))))
    with (other_statements (in_slot x (w x))).
  by rewrite other_statements_in_slot.
Qed.

Lemma others_of_option (w : node -> list node) (t : option node) :
  (forall x, t = Some x -> others_of (w x) = other_statements x) ->
  filter (fun s => is_jump_stmt s = false)
    (flat_map block_statements
       match option_map (fun x => in_slot x (w x)) t with
       | Some t' => walked_blocks t'
       | None => []
       end)
  = filter (fun s => is_jump_stmt s = false)
      (flat_map block_statements
         match t with Some t' => walked_blocks t' | None => [] end).
Proof.
  destruct t as [x|]; simpl; [|done]. intros Hx.
  change (other_statements (in_slot x (w x)) = other_statements x).
  rewrite other_statements_in_slot. by apply Hx.
Qed.

Lemma rewrite_jumps_walk_others continue_node_addr n :
  others_of (rewrite_jumps_walk claripy_ast_from_ail_condition continue_node_addr n)
  = other_statements n.
Proof.
  induction n as
    [a sz st i | ns a i IH | a ns IH | inner rc IH | a rc c t e IHt IHe | a cns e IHc IHe
    | sr c body a IH | se cs d a IHc IHd | a t | a c t | a t] using node_ind';
    try apply others_of_single.
  - apply rewrite_jump_to_continue_others.
  - cbn [rewrite_jumps_walk]. rewrite others_of_single.
    unfold other_statements, all_statements. cbn [walked_blocks].
    rewrite !all_statements_nodes. by apply others_of_flat_map.
  - cbn [rewrite_jumps_walk]. rewrite others_of_single.
    unfold other_statements, all_statements. cbn [walked_blocks].
    rewrite !all_statements_nodes. by apply others_of_flat_map.
  - cbn [rewrite_jumps_walk]. rewrite others_of_single.
    change (other_statements (in_slot inner
              (rewrite_jumps_walk claripy_ast_from_ail_condition continue_node_addr inner))
            = other_statements inner).
    by rewrite other_statements_in_slot.
  - cbn [rewrite_jumps_walk]. rewrite others_of_single.
    unfold other_statements, all_statements. cbn [walked_blocks].
    rewrite !flat_map_app, !filter_app. by rewrite !others_of_option.
  - cbn [rewrite_jumps_walk]. rewrite others_of_single.
    unfold other_statements, all_statements. cbn [walked_blocks].
    rewrite !flat_map_app, !filter_app, !all_statements_pairs.
    by rewrite others_of_option, others_of_pairs.
  - cbn [rewrite_jumps_walk]. rewrite others_of_single.
    unfold other_statements, all_statements. cbn [walked_blocks].
    rewrite !flat_map_app, !filter_app, !all_statements_pairs.
    by rewrite others_of_option, others_of_pairs.
Qed.

(** X19: [_rewrite_jumps_to_continues] loses no statement that is not a
    jump: the statements of the body that are no jumps and no conditional
    jumps are the same afterwards, in the same order, the blocks inside
    nested loops included. *)
Theorem rewrite_jumps_to_continues_keeps_other_statements addr nodes loop_node :
  other_statements
    (rewrite_jumps_to_continues claripy_ast_from_ail_condition addr nodes loop_node)
  = other_statements (SequenceNode addr nodes).
Proof.
  unfold rewrite_jumps_to_continues, other_statements, all_statements.
  rewrite remove_continue_node_blocks_same.
  unfold rewrite_jumps_to_continues_walk. cbn [walked_blocks].
  rewrite !all_statements_nodes.
  apply others_of_flat_map, Forall_forall. intros x _. apply rewrite_jumps_walk_others.
Qed.

End ContinuesKeep.

(** ** Which case nodes the reordering changes *)

Section ReorganizeHeap.

Context {K : Type} `{EqDecision K}.

Variable get_last_statement : node -> option stmt.
Variable get_last_statements : node -> option (list stmt).
Variable remove_last_statement : node -> node.
Variable collect_labels : node -> list (Z * option Z).

Lemma break_loops_nodes fuel (g g' : DiGraph K) :
  break_loops fuel g = Some g' -> g_nodes g' = g_nodes g.
Proof.
  revert g. induction fuel as [|fuel IH]; intros g Eb; [done|]. simpl in Eb.
  destruct (find_cycle g) as [[u v]|]; [|by injection Eb as <-].
  by rewrite (IH _ Eb).
Qed.

Lemma emit_chains_heap (g : DiGraph K) (cases : list (K * ref)) labels starting
    (new_cases : list (K * ref)) h new' h' (r : ref) :
  emit_chains get_last_statements remove_last_statement g cases labels starting
    new_cases h = Some (Ok (new', h')) ->
  (forall s, s ∈ starting -> dict_get s cases <> Some r) ->
  h' r = h r.
Proof.
  revert new_cases h. induction starting as [|s starting IH]; intros new_cases h He Hr.
  - simpl in He. by injection He as _ <-.
  - simpl in He.
    destruct (dict_get s cases) as [r0|] eqn:Eg; [|done].
    destruct (follow_successors g _ s [s]) as [chain|]; [|done].
    destruct (add_chain cases chain _) as [new1|]; [|done].
    rewrite (IH _ _ He).
    + unfold heap_set. rewrite bool_decide_eq_false_2; [done|].
      intros ->. apply (Hr s); [by left | done].
    + intros s' Hs'. apply Hr. by right.
Qed.

(** X20: the reordering changes a case node only if it stands, under one
    of its keys, in the graph of inferred fallthrough edges: a node all of
    whose keys are outside the graph is left as it is. *)
Theorem reorganize_switch_cases_keeps_unlinked_nodes (h : heap) (cases : list (K * ref))
    new_cases h' (r : ref) :
  NoDup cases.*1 ->
  reorganize_switch_cases get_last_statement get_last_statements
    remove_last_statement collect_labels h cases = Some (Ok (new_cases, h')) ->
  Forall (fun kr => snd kr = r ->
                    fst kr ∉ g_nodes (inferred_graph get_last_statement h cases)) cases ->
  h' r = h r.
Proof.
  intros Hnd Hre Hout. unfold reorganize_switch_cases, inferred_graph in *.
  destruct (collect_gotos get_last_statement h cases [] []) as [[a c]|]; [|done].
  set (G := fallthrough_graph a c) in *.
  destruct (g_nodes G) as [|n0 nodes0] eqn:En.
  { by injection Hre as _ <-. }
  rewrite <- En in Hout. clear n0 nodes0 En.
  destruct (break_loops _ G) as [g'|] eqn:Eb; [|done].
  pose proof (break_loops_nodes _ _ _ Eb) as Hn.
  rewrite (unlinked_and_starting_spec g' cases [] []) in Hre; [|done|].
  2:{ intros k Hk. by apply elem_of_nil in Hk. }
  rewrite !app_nil_l in Hre.
  destruct (emit_chains _ _ g' cases _ _ _ h) as [[[new1 h1]|]|] eqn:Ee; try done.
  assert (Hh : h1 r = h r).
  { eapply emit_chains_heap; [exact Ee|].
    intros s Hs Hg. apply list_elem_of_filter in Hs as [[HsV _] _].
    apply dict_get_Some_elem in Hg. rewrite Forall_forall in Hout.
    apply (Hout (s, r) Hg eq_refl). simpl. by rewrite <- Hn. }
  destruct (length new1 =? length cases)%nat; [|done].
  by injection Hre as _ <-.
Qed.

End ReorganizeHeap.

(** ** The circular switch once more *)

(** What [_reorganize_switch_cases] returns on the circular switch. *)
Definition reorganized_circular_cases : list (Z * ref) * heap :=
  match reorganize_switch_cases block_last_statement block_last_statements
          block_remove_last_statement (fun _ => []) circular_heap circular_cases with
  | Some (Ok r) => r
  | _ => ([], circular_heap)
  end.

Lemma reorganize_switch_cases_keeps_unlinked_nodes_witness :
  snd reorganized_circular_cases 3%nat = circular_heap 3%nat.
Proof.
  apply (reorganize_switch_cases_keeps_unlinked_nodes block_last_statement
           block_last_statements block_remove_last_statement (fun _ => [])
           circular_heap circular_cases
           (fst reorganized_circular_cases) (snd reorganized_circular_cases) 3%nat).
  - apply (bool_decide_unpack _). vm_compute. exact I.
  - vm_compute. reflexivity.
  - apply (bool_decide_unpack _). vm_compute. exact I.
Defined.

Lemma reorganize_switch_cases_fallthrough_order_witness :
  exists graph new_cases h',
    break_loops
      (S (length (g_edges (inferred_graph block_last_statement circular_heap
                             circular_cases))))
      (inferred_graph block_last_statement circular_heap circular_cases) = Some graph
    /\ reorganize_switch_cases block_last_statement block_last_statements
         block_remove_last_statement (fun _ => []) circular_heap circular_cases
       = Some (Ok (new_cases, h'))
    /\ forall u v, (u, v) ∈ g_edges graph -> next_to_each_other u v new_cases.*1.
Proof.
  apply (reorganize_switch_cases_fallthrough_order block_last_statement
           block_last_statements block_remove_last_statement (fun _ => [])
           circular_heap circular_cases).
  - apply (bool_decide_unpack _). vm_compute. exact I.
  - apply (bool_decide_unpack _). vm_compute. exact I.
Defined.

(** ** Samples for the passes over loops *)

Lemma merge_conditional_breaks_run_witness :
  snd (merge_conditional_breaks fold_double_negations
         (SequenceNode (Some 16)
            ([goto_block 16 32]
             ++ map cond_break_of
                  ((20, BoolS 1, 64) :: [(24, BoolS 2, 72); (28, BoolS 3, 80)])
             ++ [])))
  = SequenceNode (Some 16)
      (merged_children fold_double_negations [goto_block 16 32]
       ++ [cond_break_of
             (merged_run fold_double_negations (20, BoolS 1, 64)
                [(24, BoolS 2, 72); (28, BoolS 3, 80)])]
       ++ merged_children fold_double_negations [])
  /\ ([(24, BoolS 2, 72); (28, BoolS 3, 80)] <> [] ->
      fst (merge_conditional_breaks fold_double_negations
             (SequenceNode (Some 16)
                ([goto_block 16 32]
                 ++ map cond_break_of
                      ((20, BoolS 1, 64) :: [(24, BoolS 2, 72); (28, BoolS 3, 80)])
                 ++ [])))
      = true).
Proof.
  apply (merge_conditional_breaks_run fold_double_negations (Some 16)
           [goto_block 16 32] (20, BoolS 1, 64) [(24, BoolS 2, 72); (28, BoolS 3, 80)] []);
    reflexivity.
Defined.

(** Three breaks with three targets leave one break, to the last target. *)
Example merge_conditional_breaks_three_targets :
  merge_conditional_breaks fold_double_negations
    (SequenceNode (Some 16)
       [ConditionalBreakNode 20 (BoolS 1) 64; ConditionalBreakNode 24 (BoolS 2) 72;
        ConditionalBreakNode 28 (BoolS 3) 80])
  = (true,
     SequenceNode (Some 16)
       [ConditionalBreakNode 28
          (claripy_Or (BoolS 3) (claripy_Or (BoolS 2) (BoolS 1))) 80]).
Proof. reflexivity. Qed.

Lemma rewrite_conditional_jumps_to_breaks_no_exit_witness :
  rewrite_conditional_jumps_to_breaks sample_conversion {[ 200 ]}
    (SequenceNode (Some 16)
       [goto_block 16 32;
        LoopNode SortWhile None (SequenceNode (Some 32) [goto_block 32 200]) (Some 32)])
  = Ok (SequenceNode (Some 16)
          [goto_block 16 32;
           LoopNode SortWhile None (SequenceNode (Some 32) [goto_block 32 200]) (Some 32)]).
Proof.
  apply rewrite_conditional_jumps_to_breaks_no_exit; vm_compute; reflexivity.
Defined.

Lemma rewrite_conditional_jump_to_break_around_exit_witness :
  rewrite_conditional_jump_to_break sample_conversion {[ 200 ]} None
    (Block 16 12
       ([OtherStmt None 16]
        ++ [Jump None (Const None 200) None 20]
        ++ [OtherStmt None 24])
       None)
  = Ok (Block 16 12 [] None
        :: sub_block [OtherStmt None 16] 20 None
        ++ [BreakNode 20 200]
        ++ (if (2 <=? length [OtherStmt None 24])%nat
            then sub_block [OtherStmt None 24] (16 + 12) None
            else [])).
Proof.
  apply (rewrite_conditional_jump_to_break_around_exit sample_conversion {[ 200 ]} None
           16 12 None [OtherStmt None 16] None None 200 None 20 [OtherStmt None 24]).
  - reflexivity.
  - reflexivity.
  - apply (bool_decide_unpack _). vm_compute. exact I.
  - reflexivity.
Defined.

(** The statement after the jump is in none of the nodes that are left. *)
Example statement_after_exit_is_left_out :
  rewrite_conditional_jump_to_break sample_conversion {[ 200 ]} None
    (Block 16 12
       [OtherStmt None 16; Jump None (Const None 200) None 20; OtherStmt None 24] None)
  = Ok [Block 16 12 [] None; Block 16 4 [OtherStmt None 16] None; BreakNode 20 200].
Proof. vm_compute. reflexivity. Qed.

(** ** Replacing nodes of a region graph *)

Section ReplaceNodesProperties.

Context {K : Type} `{EqDecision K}.
Variable D : Type.
Variable empty_data : D.
Variable update_data : D -> D -> D.

Implicit Types g : DataGraph K D.

(** [graph.has_edge(u, v)] *)
Definition dg_has_edge g (u v : K) : Prop := exists d, (u, v, d) ∈ dg_edges g.

Lemma add_or_update_has_edge u v data (edges : list (K * K * D)) a b :
  (exists d, (a, b, d) ∈ add_or_update D empty_data update_data u v data edges)
  <-> (exists d, (a, b, d) ∈ edges) \/ (a = u /\ b = v).
Proof.
  induction edges as [|[[u' v'] d0] edges IH]; simpl.
  - split.
    + intros [d Hd]. apply list_elem_of_singleton in Hd. injection Hd as -> -> _. by right.
    + intros [[d Hd] | [-> ->]]; [by apply elem_of_nil in Hd|].
      eexists. by left.
  - destruct (bool_decide (u' = u /\ v' = v)) eqn:Eb.
    + apply bool_decide_eq_true_1 in Eb as [-> ->]. split.
      * intros [d Hd]. apply elem_of_cons in Hd as [Hd | Hd].
        -- injection Hd as -> -> _. by right.
        -- left. exists d. by right.
      * intros [[d Hd] | [-> ->]].
        -- apply elem_of_cons in Hd as [Hd | Hd].
           ++ injection Hd as -> -> _. eexists. by left.
           ++ exists d. by right.
        -- eexists. by left.
    + split.
      * intros [d Hd]. apply elem_of_cons in Hd as [Hd | Hd].
        -- injection Hd as -> -> ->. left. exists d0. by left.
        -- destruct (proj1 IH (ex_intro _ d Hd)) as [[d' Hd'] | ?]; [|by right].
           left. exists d'. by right.
      * intros [[d Hd] | Hab].
        -- apply elem_of_cons in Hd as [Hd | Hd].
           ++ injection Hd as -> -> ->. exists d0. by left.
           ++ destruct (proj2 IH (or_introl (ex_intro _ d Hd))) as [d' Hd'].
              exists d'. by right.
        -- destruct (proj2 IH (or_intror Hab)) as [d' Hd']. exists d'. by right.
Qed.

Lemma dg_add_edge_has_edge g u v data a b :
  dg_has_edge (dg_add_edge D empty_data update_data g u v data) a b
  <-> dg_has_edge g a b \/ (a = u /\ b = v).
Proof. apply add_or_update_has_edge. Qed.

Lemma dg_remove_node_has_edge g n a b :
  dg_has_edge (dg_remove_node D g n) a b <-> dg_has_edge g a b /\ a <> n /\ b <> n.
Proof.
  unfold dg_has_edge, dg_remove_node. simpl. split.
  - intros [d Hd]. apply list_elem_of_filter in Hd as [[? ?] Hd]. split; [by exists d | done].
  - intros [[d Hd] [? ?]]. exists d. by apply list_elem_of_filter.
Qed.

Section Relinking.

Variable old_node_0 new_node : K.
Variable old_node_1 : option K.
Variable self_loop : bool.

Abbreviation neither x := (is_neither x old_node_0 old_node_1 = true).

(** The edge that a turn of one of the two loops adds, if any. *)
Definition relinked_in (e : K * K * D) : option (K * K) :=
  if is_neither (fst (fst e)) old_node_0 old_node_1 then Some (fst (fst e), new_node)
  else if bool_decide (Some (fst (fst e)) = old_node_1)
          && bool_decide (snd (fst e) = old_node_0) && self_loop
  then Some (new_node, new_node)
  else None.

Definition relinked_out (e : K * K * D) : option (K * K) :=
  if is_neither (snd (fst e)) old_node_0 old_node_1 then Some (new_node, snd (fst e))
  else if bool_decide (Some (fst (fst e)) = old_node_1)
          && bool_decide (snd (fst e) = old_node_0) && self_loop
  then Some (new_node, new_node)
  else None.

Lemma relink_in_has_edge edges g a b :
  dg_has_edge
    (fold_left (relink_in_edge D empty_data update_data old_node_0 new_node old_node_1
                  self_loop) edges g) a b
  <-> dg_has_edge g a b \/ exists e, e ∈ edges /\ relinked_in e = Some (a, b).
Proof.
  revert g. induction edges as [|[[src dst] data] edges IH]; intros g.
  - simpl. split; [by left|]. intros [? | (e & He & _)]; [done|]. by apply elem_of_nil in He.
  - simpl. rewrite IH. clear IH.
    assert (Hstep :
      dg_has_edge
        (relink_in_edge D empty_data update_data old_node_0 new_node old_node_1 self_loop
           g (src, dst, data)) a b
      <-> dg_has_edge g a b \/ relinked_in (src, dst, data) = Some (a, b)).
    { unfold relink_in_edge, relinked_in. simpl.
      destruct (is_neither src old_node_0 old_node_1).
      - rewrite dg_add_edge_has_edge. split; (intros [? | Hx]; [by left | right]).
        + by destruct Hx as [-> ->].
        + by injection Hx as -> ->.
      - destruct (_ && _ && _).
        + rewrite dg_add_edge_has_edge. split; (intros [? | Hx]; [by left | right]).
          * by destruct Hx as [-> ->].
          * by injection Hx as -> ->.
        + split; [by left | intros [? | ?]; done]. }
    rewrite Hstep. split.
    + intros [[? | Hr] | (e & He & Hr)]; [by left | |].
      * right. exists (src, dst, data). split; [by left | done].
      * right. exists e. split; [by right | done].
    + intros [? | (e & He & Hr)]; [by left; left|].
      apply elem_of_cons in He as [-> | He]; [left; by right|].
      right. by exists e.
Qed.

Lemma relink_out_has_edge edges g a b :
  dg_has_edge
    (fold_left (relink_out_edge D empty_data update_data old_node_0 new_node old_node_1
                  self_loop) edges g) a b
  <-> dg_has_edge g a b \/ exists e, e ∈ edges /\ relinked_out e = Some (a, b).
Proof.
  revert g. induction edges as [|[[src dst] data] edges IH]; intros g.
  - simpl. split; [by left|]. intros [? | (e & He & _)]; [done|]. by apply elem_of_nil in He.
  - simpl. rewrite IH. clear IH.
    assert (Hstep :
      dg_has_edge
        (relink_out_edge D empty_data update_data old_node_0 new_node old_node_1 self_loop
           g (src, dst, data)) a b
      <-> dg_has_edge g a b \/ relinked_out (src, dst, data) = Some (a, b)).
    { unfold relink_out_edge, relinked_out. simpl.
      destruct (is_neither dst old_node_0 old_node_1).
      - rewrite dg_add_edge_has_edge. split; (intros [? | Hx]; [by left | right]).
        + by destruct Hx as [-> ->].
        + by injection Hx as -> ->.
      - destruct (_ && _ && _).
        + rewrite dg_add_edge_has_edge. split; (intros [? | Hx]; [by left | right]).
          * by destruct Hx as [-> ->].
          * by injection Hx as -> ->.
        + split; [by left | intros [? | ?]; done]. }
    rewrite Hstep. split.
    + intros [[? | Hr] | (e & He & Hr)]; [by left | |].
      * right. exists (src, dst, data). split; [by left | done].
      * right. exists e. split; [by right | done].
    + intros [? | (e & He & Hr)]; [by left; left|].
      apply elem_of_cons in He as [-> | He]; [left; by right|].
      right. by exists e.
Qed.

End Relinking.

Lemma is_neither_spec (x old_node_0 : K) (old_node_1 : option K) :
  is_neither x old_node_0 old_node_1 = true <-> x <> old_node_0 /\ Some x <> old_node_1.
Proof.
  unfold is_neither. rewrite andb_true_iff. split.
  - intros [H1 H2]. by apply bool_decide_eq_true_1 in H1, H2.
  - intros [H1 H2]. by rewrite !bool_decide_eq_true_2.
Qed.

Lemma dg_add_node_has_edge g n a b :
  dg_has_edge (dg_add_node D g n) a b <-> dg_has_edge g a b.
Proof. reflexivity. Qed.

Lemma removed_has_edge g old_node_0 new_node (old_node_1 : option K) a b :
  dg_has_edge
    (dg_add_node D
       match old_node_1 with
       | Some n1 => dg_remove_node D (dg_remove_node D g old_node_0) n1
       | None => dg_remove_node D g old_node_0
       end new_node) a b
  <-> is_neither a old_node_0 old_node_1 = true
      /\ is_neither b old_node_0 old_node_1 = true
      /\ dg_has_edge g a b.
Proof.
  rewrite !is_neither_spec, dg_add_node_has_edge.
  destruct old_node_1 as [n1|].
  - rewrite !dg_remove_node_has_edge. split.
    + intros [[Hg [? ?]] [? ?]]. repeat split; congruence.
    + intros [[? ?] [[? ?] Hg]]. repeat split; congruence.
  - rewrite dg_remove_node_has_edge. split.
    + intros [Hg [? ?]]. repeat split; congruence.
    + intros [[? ?] [[? ?] Hg]]. done.
Qed.

(** X21: the edges after [replace_nodes].  An edge between two nodes that
    are neither of the old nodes stays; an edge from such a node into
    [old_node_0] now goes into [new_node]; an edge from [old_node_0] or
    [old_node_1] to such a node now leaves [new_node]; and [new_node] gets
    a loop when [self_loop] is set and there was an edge from [old_node_1]
    back to [old_node_0].  There are no other edges: an edge into
    [old_node_1] from outside and a loop at [old_node_0] are lost. *)
Theorem replace_nodes_edges g old_node_0 new_node (old_node_1 : option K) self_loop g' u v :
  replace_nodes D empty_data update_data g old_node_0 new_node old_node_1 self_loop
  = Some g' ->
  dg_has_edge g' u v
  <-> (is_neither u old_node_0 old_node_1 = true
       /\ is_neither v old_node_0 old_node_1 = true
       /\ dg_has_edge g u v)
      \/ (v = new_node /\ is_neither u old_node_0 old_node_1 = true
          /\ dg_has_edge g u old_node_0)
      \/ (u = new_node /\ is_neither v old_node_0 old_node_1 = true
          /\ (dg_has_edge g old_node_0 v
              \/ exists n1, old_node_1 = Some n1 /\ dg_has_edge g n1 v))
      \/ (u = new_node /\ v = new_node /\ self_loop = true
          /\ exists n1, old_node_1 = Some n1 /\ dg_has_edge g n1 old_node_0).
Proof.
  intros Hr.
  set (out_edges :=
         dg_out_edges D g old_node_0
         ++ match old_node_1 with Some n1 => dg_out_edges D g n1 | None => [] end).
  assert (Hg' :
    g' = fold_left
           (relink_out_edge D empty_data update_data old_node_0 new_node old_node_1
              self_loop)
           out_edges
           (fold_left
              (relink_in_edge D empty_data update_data old_node_0 new_node old_node_1
                 self_loop)
              (dg_in_edges D g old_node_0)
              (dg_add_node D
                 match old_node_1 with
                 | Some n1 => dg_remove_node D (dg_remove_node D g old_node_0) n1
                 | None => dg_remove_node D g old_node_0
                 end new_node))).
  { unfold replace_nodes in Hr. unfold out_edges.
    destruct (bool_decide (old_node_0 ∈ dg_nodes g)); [|done].
    destruct old_node_1 as [n1|].
    - destruct (bool_decide (n1 ∈ dg_nodes g)); [|done].
      destruct (bool_decide (n1 ∈ dg_nodes (dg_remove_node D g old_node_0))); [|done].
      by injection Hr as <-.
    - rewrite app_nil_r. by injection Hr as <-. }
  rewrite Hg', relink_out_has_edge, relink_in_has_edge, removed_has_edge. clear Hg' Hr.
  assert (Hin : forall e, e ∈ dg_in_edges D g old_node_0
                          <-> e ∈ dg_edges g /\ snd (fst e) = old_node_0).
  { intros e. unfold dg_in_edges. rewrite list_elem_of_filter. tauto. }
  assert (Hout : forall e, e ∈ out_edges
                           <-> e ∈ dg_edges g
                               /\ (fst (fst e) = old_node_0
                                   \/ Some (fst (fst e)) = old_node_1)).
  { intros e. unfold out_edges, dg_out_edges. rewrite elem_of_app, list_elem_of_filter.
    destruct old_node_1 as [n1|].
    - rewrite list_elem_of_filter. split.
      + intros [[? ?] | [? ?]]; split; try done; [by left | right; congruence].
      + intros [? [? | Hn]]; [left | right]; split; try done. congruence.
    - split.
      + intros [[? ?] | Hnil]; [split; [done | by left] | by apply elem_of_nil in Hnil].
      + intros [? [? | ?]]; [by left | done]. }
  split.
  - intros [[Hstay | ([[src dst] d] & He & Hrel)] | ([[src dst] d] & He & Hrel)].
    + by left.
    + apply Hin in He as [He Hdst]. simpl in Hdst. subst dst.
      unfold relinked_in in Hrel. simpl in Hrel.
      destruct (is_neither src old_node_0 old_node_1) eqn:En.
      * injection Hrel as <- <-. right. left. split; [done|]. split; [done|]. by exists d.
      * destruct (_ && _ && _) eqn:Ec; [|done]. injection Hrel as <- <-.
        apply andb_true_iff in Ec as [Ec Hs]. apply andb_true_iff in Ec as [E1 _].
        apply bool_decide_eq_true_1 in E1.
        right. right. right. repeat (split; [done|]). exists src. split; [done | by exists d].
    + apply Hout in He as [He Hsrc]. simpl in Hsrc.
      unfold relinked_out in Hrel. simpl in Hrel.
      destruct (is_neither dst old_node_0 old_node_1) eqn:En.
      * injection Hrel as <- <-. right. right. left. split; [done|]. split; [done|].
        destruct Hsrc as [-> | Hsrc]; [left; by exists d | right].
        exists src. split; [done | by exists d].
      * destruct (_ && _ && _) eqn:Ec; [|done]. injection Hrel as <- <-.
        apply andb_true_iff in Ec as [Ec Hs]. apply andb_true_iff in Ec as [E1 E2].
        apply bool_decide_eq_true_1 in E1, E2. subst dst.
        right. right. right. repeat (split; [done|]). exists src. split; [done | by exists d].
  - intros [Hstay | [(-> & Hu & [d Hd]) | [(-> & Hv & Hfrom) | (-> & -> & -> & n1 & -> & [d Hd])]]].
    + by left; left.
    + left. right. exists (u, old_node_0, d). split; [by apply Hin|].
      unfold relinked_in. simpl. by rewrite Hu.
    + right.
      destruct Hfrom as [[d Hd] | (n1 & -> & [d Hd])].
      * exists (old_node_0, v, d). split; [apply Hout; split; [done | by left]|].
        unfold relinked_out. simpl. by rewrite Hv.
      * exists (n1, v, d). split; [apply Hout; split; [done | by right]|].
        unfold relinked_out. simpl. by rewrite Hv.
    + left. right. exists (n1, old_node_0, d). split; [by apply Hin|].
      unfold relinked_in. simpl.
      assert (En : is_neither n1 old_node_0 (Some n1) = false).
      { unfold is_neither. rewrite (bool_decide_eq_false_2 (Some n1 <> Some n1)) by tauto.
        by rewrite andb_false_r. }
      rewrite En. by rewrite !bool_decide_eq_true_2.
Qed.

Lemma dg_add_edge_nodes g u v data x :
  x ∈ dg_nodes (dg_add_edge D empty_data update_data g u v data)
  <-> x ∈ dg_nodes g \/ x = u \/ x = v.
Proof. unfold dg_add_edge. simpl. rewrite !add_node_elem. tauto. Qed.

Lemma relink_in_nodes old_node_0 new_node (old_node_1 : option K) self_loop edges g x :
  new_node ∈ dg_nodes g ->
  x ∈ dg_nodes
        (fold_left (relink_in_edge D empty_data update_data old_node_0 new_node old_node_1
                      self_loop) edges g)
  <-> x ∈ dg_nodes g
      \/ exists e, e ∈ edges /\ x = fst (fst e)
                   /\ is_neither x old_node_0 old_node_1 = true.
Proof.
  revert g. induction edges as [|[[src dst] data] edges IH]; intros g Hnew.
  - simpl. split; [by left|]. intros [? | (e & He & _)]; [done|]. by apply elem_of_nil in He.
  - simpl.
    assert (Hstep : forall y,
      y ∈ dg_nodes (relink_in_edge D empty_data update_data old_node_0 new_node old_node_1
                      self_loop g (src, dst, data))
      <-> y ∈ dg_nodes g
          \/ (y = src /\ is_neither y old_node_0 old_node_1 = true)).
    { intros y. unfold relink_in_edge.
      destruct (is_neither src old_node_0 old_node_1) eqn:En.
      - rewrite dg_add_edge_nodes. split.
        + intros [? | [-> | ->]]; [by left | by right | by left].
        + intros [? | [-> _]]; [by left | right; by left].
      - destruct (_ && _ && _).
        + rewrite dg_add_edge_nodes. split.
          * intros [? | [-> | ->]]; by left.
          * intros [? | [-> Hn]]; [by left | congruence].
        + split; [by left|]. intros [? | [-> Hn]]; [done | congruence]. }
    rewrite IH by (apply Hstep; by left). rewrite Hstep. split.
    + intros [[? | [-> Hn]] | (e & He & Hx & Hn)]; [by left | |].
      * right. exists (src, dst, data). split; [by left | done].
      * right. exists e. split; [by right | done].
    + intros [? | (e & He & Hx & Hn)]; [by left; left|].
      apply elem_of_cons in He as [-> | He]; [left; right; done|].
      right. by exists e.
Qed.

Lemma relink_out_nodes old_node_0 new_node (old_node_1 : option K) self_loop edges g x :
  new_node ∈ dg_nodes g ->
  x ∈ dg_nodes
        (fold_left (relink_out_edge D empty_data update_data old_node_0 new_node old_node_1
                      self_loop) edges g)
  <-> x ∈ dg_nodes g
      \/ exists e, e ∈ edges /\ x = snd (fst e)
                   /\ is_neither x old_node_0 old_node_1 = true.
Proof.
  revert g. induction edges as [|[[src dst] data] edges IH]; intros g Hnew.
  - simpl. split; [by left|]. intros [? | (e & He & _)]; [done|]. by apply elem_of_nil in He.
  - simpl.
    assert (Hstep : forall y,
      y ∈ dg_nodes (relink_out_edge D empty_data update_data old_node_0 new_node old_node_1
                      self_loop g (src, dst, data))
      <-> y ∈ dg_nodes g
          \/ (y = dst /\ is_neither y old_node_0 old_node_1 = true)).
    { intros y. unfold relink_out_edge.
      destruct (is_neither dst old_node_0 old_node_1) eqn:En.
      - rewrite dg_add_edge_nodes. split.
        + intros [? | [-> | ->]]; [by left | by left | by right].
        + intros [? | [-> _]]; [by left | right; by right].
      - destruct (_ && _ && _).
        + rewrite dg_add_edge_nodes. split.
          * intros [? | [-> | ->]]; by left.
          * intros [? | [-> Hn]]; [by left | congruence].
        + split; [by left|]. intros [? | [-> Hn]]; [done | congruence]. }
    rewrite IH by (apply Hstep; by left). rewrite Hstep. split.
    + intros [[? | [-> Hn]] | (e & He & Hx & Hn)]; [by left | |].
      * right. exists (src, dst, data). split; [by left | done].
      * right. exists e. split; [by right | done].
    + intros [? | (e & He & Hx & Hn)]; [by left; left|].
      apply elem_of_cons in He as [-> | He]; [left; right; done|].
      right. by exists e.
Qed.

(** X22: the nodes after [replace_nodes], in a graph whose edges join
    nodes of the graph: [new_node], and the nodes from before that are
    neither of the old nodes. *)
Theorem replace_nodes_nodes g old_node_0 new_node (old_node_1 : option K) self_loop g' x :
  Forall (fun e => fst (fst e) ∈ dg_nodes g /\ snd (fst e) ∈ dg_nodes g) (dg_edges g) ->
  replace_nodes D empty_data update_data g old_node_0 new_node old_node_1 self_loop
  = Some g' ->
  x ∈ dg_nodes g'
  <-> x = new_node \/ (is_neither x old_node_0 old_node_1 = true /\ x ∈ dg_nodes g).
Proof.
  intros Hwf Hr.
  set (out_edges :=
         dg_out_edges D g old_node_0
         ++ match old_node_1 with Some n1 => dg_out_edges D g n1 | None => [] end).
  set (g0 := dg_add_node D
               match old_node_1 with
               | Some n1 => dg_remove_node D (dg_remove_node D g old_node_0) n1
               | None => dg_remove_node D g old_node_0
               end new_node).
  assert (Hg' :
    g' = fold_left
           (relink_out_edge D empty_data update_data old_node_0 new_node old_node_1
              self_loop)
           out_edges
           (fold_left
              (relink_in_edge D empty_data update_data old_node_0 new_node old_node_1
                 self_loop)
              (dg_in_edges D g old_node_0) g0)).
  { unfold replace_nodes in Hr. unfold out_edges, g0.
    destruct (bool_decide (old_node_0 ∈ dg_nodes g)); [|done].
    destruct old_node_1 as [n1|].
    - destruct (bool_decide (n1 ∈ dg_nodes g)); [|done].
      destruct (bool_decide (n1 ∈ dg_nodes (dg_remove_node D g old_node_0))); [|done].
      by injection Hr as <-.
    - rewrite app_nil_r. by injection Hr as <-. }
  assert (Hg0 : forall y, y ∈ dg_nodes g0
                          <-> y = new_node
                              \/ (is_neither y old_node_0 old_node_1 = true
                                  /\ y ∈ dg_nodes g)).
  { intros y. unfold g0, dg_add_node. simpl. rewrite add_node_elem, is_neither_spec.
    destruct old_node_1 as [n1|]; simpl; rewrite !list_elem_of_filter.
    - split.
      + intros [? | [? [? ?]]]; [by left | right]. repeat split; congruence.
      + intros [? | [[? ?] ?]]; [by left | right]. repeat split; congruence.
    - split.
      + intros [? | [? ?]]; [by left | right]. repeat split; congruence.
      + intros [? | [[? ?] ?]]; [by left | by right]. }
  assert (Hnew0 : new_node ∈ dg_nodes g0) by (apply Hg0; by left).
  rewrite Forall_forall in Hwf.
  rewrite Hg', relink_out_nodes, relink_in_nodes, Hg0; [|done|].
  2:{ apply relink_in_nodes; [done | by left]. }
  clear Hg' Hr. split.
  - intros [[? | (e & He & -> & Hn)] | (e & He & -> & Hn)]; [done | |].
    + right. split; [done|]. apply list_elem_of_filter in He as [_ He].
      by apply (Hwf e He).
    + right. split; [done|].
      assert (He' : e ∈ dg_edges g).
      { unfold out_edges in He. apply elem_of_app in He as [He | He].
        - by apply list_elem_of_filter in He as [_ ?].
        - destruct old_node_1 as [n1|]; [|by apply elem_of_nil in He].
          by apply list_elem_of_filter in He as [_ ?]. }
      by apply (Hwf e He').
  - intros ?. by left; left.
Qed.

End ReplaceNodesProperties.

(** A region graph in which 3 jumps back to 2 and 4 jumps into 3; the edge
    data are numbers and an update keeps the newer one. *)
Definition sample_region_graph : DataGraph Z nat :=
  mkDataGraph [1; 2; 3; 4]
    [(1, 2, 0%nat); (2, 3, 1%nat); (3, 2, 2%nat); (4, 3, 3%nat); (3, 4, 4%nat)].

Definition sample_region_graph_after : DataGraph Z nat :=
  mkDataGraph [1; 4; 9] [(1, 9, 0%nat); (9, 9, 2%nat); (9, 4, 4%nat)].

(** Replacing 2 and 3 by 9: the edge from 4 into 3 is not there any more. *)
Example replace_nodes_sample :
  replace_nodes nat 0%nat (fun _ attr => attr) sample_region_graph 2 9 (Some 3) true
  = Some sample_region_graph_after.
Proof. vm_compute. reflexivity. Qed.

Lemma replace_nodes_edges_witness :
  dg_has_edge nat sample_region_graph_after 4 9
  <-> (is_neither 4 2 (Some 3) = true /\ is_neither 9 2 (Some 3) = true
       /\ dg_has_edge nat sample_region_graph 4 9)
      \/ (9 = 9 /\ is_neither 4 2 (Some 3) = true /\ dg_has_edge nat sample_region_graph 4 2)
      \/ (4 = 9 /\ is_neither 9 2 (Some 3) = true
          /\ (dg_has_edge nat sample_region_graph 2 9
              \/ exists n1, Some 3 = Some n1 /\ dg_has_edge nat sample_region_graph n1 9))
      \/ (4 = 9 /\ 9 = 9 /\ true = true
          /\ exists n1, Some 3 = Some n1 /\ dg_has_edge nat sample_region_graph n1 2).
Proof.
  apply (replace_nodes_edges nat 0%nat (fun _ attr => attr) sample_region_graph 2 9
           (Some 3) true sample_region_graph_after 4 9).
  vm_compute. reflexivity.
Defined.

Lemma replace_nodes_nodes_witness :
  3 ∈ dg_nodes sample_region_graph_after
  <-> 3 = 9 \/ (is_neither 3 2 (Some 3) = true /\ 3 ∈ dg_nodes sample_region_graph).
Proof.
  apply (replace_nodes_nodes nat 0%nat (fun _ attr => attr) sample_region_graph 2 9
           (Some 3) true sample_region_graph_after 3).
  - apply (bool_decide_unpack _). vm_compute. exact I.
  - vm_compute. reflexivity.
Defined.

(** ** The jump-to-break pass and the structuring error *)

(** A result that is not the structuring error. *)
Definition no_structuring_error {A : Type} (r : result A) : Prop :=
  forall msg, r <> Raise (AngrDecompilationError msg).

Lemma no_structuring_error_Ok {A : Type} (a : A) : no_structuring_error (Ok a).
Proof. intros msg. discriminate. Qed.

Lemma no_structuring_error_bind {A B : Type} (r : result A) (k : A -> result B) :
  no_structuring_error r ->
  (forall a, r = Ok a -> no_structuring_error (k a)) ->
  no_structuring_error (bind r k).
Proof.
  intros Hr Hk msg. destruct r as [a|e]; simpl.
  - by apply Hk.
  - intros [= ->]. by apply (Hr msg).
Qed.

Section BreaksNeverStructuringError.

Variable claripy_ast_from_ail_condition : condition -> cond.
Variable successor_addrs : gset Z.

Abbreviation create_break :=
  (loop_create_break_node claripy_ast_from_ail_condition).
Abbreviation error_walk :=
  (rewrite_breaks_walk claripy_ast_from_ail_condition successor_addrs).

(** The handler asks for a break node only for a statement with a target
    among the loop successors, and for such a statement
    [_loop_create_break_node] finds a branch. *)
Lemma loop_create_break_node_with_exit stmt :
  existsb (fun target => bool_decide (target ∈ successor_addrs))
    (extract_jump_targets stmt) = true ->
  no_structuring_error (create_break stmt successor_addrs).
Proof.
  intros Hex msg. unfold loop_create_break_node.
  destruct stmt as [idx t ti ia | idx c t f ti fi ia | idx ia]; [| |done].
  - by destruct t.
  - destruct t as [[i1 v1| | |]|], f as [[i2 v2| | |]|];
      cbn [bind opt_value_of value_of]; try done;
      simpl in Hex; rewrite ?orb_false_r in Hex;
      cbn [some_in] in *;
      repeat match goal with
             | |- context [bool_decide (?v ∈ successor_addrs)] =>
                 destruct (bool_decide (v ∈ successor_addrs))
             end; simpl in *; done.
Qed.

Lemma scan_statements_no_structuring_error statements idx next todo stmt_idx new_nodes k :
  no_structuring_error
    (scan_statements claripy_ast_from_ail_condition successor_addrs statements idx next
       todo stmt_idx new_nodes k).
Proof.
  revert stmt_idx new_nodes k.
  induction todo as [|stmt todo IH]; intros stmt_idx new_nodes k.
  - apply no_structuring_error_Ok.
  - simpl.
    destruct (negb (is_jump_stmt stmt) || jumps_to_next_sibling next stmt); [apply IH|].
    destruct (existsb _ (extract_jump_targets stmt)) eqn:Hex; [|apply IH].
    apply no_structuring_error_bind; [by apply loop_create_break_node_with_exit|].
    intros b _. apply IH.
Qed.

Lemma slot_result_no_structuring_error child r :
  no_structuring_error r -> no_structuring_error (slot_result child r).
Proof.
  intros Hr. apply no_structuring_error_bind; [done|].
  intros a _. apply no_structuring_error_Ok.
Qed.

Lemma opt_slot_result_no_structuring_error (t : option node) :
  (forall x, t = Some x -> forall next, no_structuring_error (error_walk next x)) ->
  no_structuring_error (opt_slot_result (error_walk None) t).
Proof.
  destruct t as [x|]; simpl; [|intros _; apply no_structuring_error_Ok].
  intros Hx. apply no_structuring_error_bind.
  - apply slot_result_no_structuring_error. by apply Hx.
  - intros a _. apply no_structuring_error_Ok.
Qed.

Lemma rewrite_breaks_walk_no_structuring_error n :
  forall next, no_structuring_error (error_walk next n).
Proof.
  induction n as
    [a sz st i | ns a i IH | a ns IH | inner rc IH | a rc c t e IHt IHe | a cns e IHc IHe
    | sr c body a IH | se cs d a IHc IHd | a t | a c t | a t] using node_ind';
    intros next; try apply no_structuring_error_Ok.
  - simpl. apply no_structuring_error_bind.
    + apply scan_statements_no_structuring_error.
    + intros [new_nodes k] _. destruct new_nodes; apply no_structuring_error_Ok.
  - rewrite breaks_walk_MultiNode. apply no_structuring_error_bind.
    + induction IH as [|x ns Hx _ IHns]; simpl; [apply no_structuring_error_Ok|].
      apply no_structuring_error_bind; [apply Hx|]. intros r _.
      apply no_structuring_error_bind; [apply IHns|]. intros rs _.
      apply no_structuring_error_Ok.
    + intros ns' _. apply no_structuring_error_Ok.
  - rewrite breaks_walk_Sequence. apply no_structuring_error_bind.
    + induction IH as [|x ns Hx _ IHns]; simpl; [apply no_structuring_error_Ok|].
      apply no_structuring_error_bind; [apply Hx|]. intros r _.
      apply no_structuring_error_bind; [apply IHns|]. intros rs _.
      apply no_structuring_error_Ok.
    + intros ns' _. apply no_structuring_error_Ok.
  - simpl. apply no_structuring_error_bind.
    + apply slot_result_no_structuring_error, IH.
    + intros inner' _. apply no_structuring_error_Ok.
  - simpl. apply no_structuring_error_bind.
    + by apply opt_slot_result_no_structuring_error.
    + intros t' _. apply no_structuring_error_bind.
      * by apply opt_slot_result_no_structuring_error.
      * intros e' _. apply no_structuring_error_Ok.
  - rewrite breaks_walk_Cascading. apply no_structuring_error_bind.
    + induction IHc as [|[c x] cns Hx _ IHcns]; simpl; [apply no_structuring_error_Ok|].
      apply no_structuring_error_bind.
      * apply slot_result_no_structuring_error, Hx.
      * intros x' _. apply no_structuring_error_bind; [apply IHcns|]. intros rest' _.
        apply no_structuring_error_Ok.
    + intros cns' _. apply no_structuring_error_bind.
      * by apply opt_slot_result_no_structuring_error.
      * intros e' _. apply no_structuring_error_Ok.
Qed.

(** X23: [_rewrite_conditional_jumps_to_breaks] never raises the
    structuring error of [_loop_create_break_node]: it asks for a break
    node only when a target of the statement is a loop successor, and then
    one of the branches that build a node is taken. *)
Theorem rewrite_conditional_jumps_to_breaks_no_structuring_error loop_node :
  no_structuring_error
    (rewrite_conditional_jumps_to_breaks claripy_ast_from_ail_condition successor_addrs
       loop_node).
Proof.
  unfold rewrite_conditional_jumps_to_breaks. intros msg.
  destruct loop_node; try done;
    apply slot_result_no_structuring_error, rewrite_breaks_walk_no_structuring_error.
Qed.

End BreaksNeverStructuringError.

(** ** Nothing to shuffle *)

Section NothingToShuffle.

Context {K : Type} `{EqDecision K}.

Variable get_last_statement : node -> option stmt.
Variable get_last_statements : node -> option (list stmt).
Variable remove_last_statement : node -> node.
Variable collect_labels : node -> list (Z * option Z).

(** The last statement of the node is no jump to a constant. *)
Definition no_constant_goto (n : node) : bool :=
  match get_last_statement n with
  | Some (Jump _ (Const _ _) _ _) => false
  | _ => true
  end.

Lemma collect_gotos_no_goto (h : heap) (cases : list (K * ref)) a0 c0 :
  Forall (fun kr => is_Some (node_addr (h (snd kr)))
                    /\ no_constant_goto (h (snd kr)) = true) cases ->
  exists a, collect_gotos get_last_statement h cases a0 c0 = Ok (a, c0).
Proof.
  revert a0. induction cases as [|[k r] cases IH]; intros a0 Hall.
  - by exists a0.
  - apply Forall_cons in Hall as [[[addr Ha] Hg] Hall]. simpl in *. rewrite Ha.
    unfold no_constant_goto in Hg.
    destruct (get_last_statement (h r)) as [[? [] ? ?| |]|]; try done; by apply IH.
Qed.

(** X24: when no case node ends in a jump to a constant, there is nothing
    to shuffle: [_reorganize_switch_cases] returns the mapping it was
    given, in the same order, and changes no node. *)
Theorem reorganize_switch_cases_nothing_to_shuffle (h : heap) (cases : list (K * ref)) :
  Forall (fun kr => is_Some (node_addr (h (snd kr)))
                    /\ no_constant_goto (h (snd kr)) = true) cases ->
  reorganize_switch_cases get_last_statement get_last_statements
    remove_last_statement collect_labels h cases = Some (Ok (cases, h)).
Proof.
  intros Hall. unfold reorganize_switch_cases.
  destruct (collect_gotos_no_goto h cases [] [] Hall) as [a Ha]. by rewrite Ha.
Qed.

End NothingToShuffle.

Lemma reorganize_switch_cases_nothing_to_shuffle_witness :
  reorganize_switch_cases block_last_statement block_last_statements
    block_remove_last_statement (fun _ => [])
    (fun _ => Block 40 0 [OtherStmt None 40] None) [(1, 0%nat); (2, 1%nat)]
  = Some (Ok ([(1, 0%nat); (2, 1%nat)], fun _ => Block 40 0 [OtherStmt None 40] None)).
Proof.
  apply (reorganize_switch_cases_nothing_to_shuffle block_last_statement
           block_last_statements block_remove_last_statement (fun _ => [])
           (fun _ => Block 40 0 [OtherStmt None 40] None) [(1, 0%nat); (2, 1%nat)]).
  apply (bool_decide_unpack _). vm_compute. exact I.
Defined.

(** ** Copies without the last jump *)

Fixpoint with_last_block (ns : list node) : result (list node) :=
  match ns with
  | [] => Ok []
  | [x] =>
      last_block <~ copy_and_remove_last_statement_if_jump x ;;
      Ok [last_block]
  | x :: rest =>
      rest' <~ with_last_block rest ;;
      Ok (x :: rest')
  end.

Lemma copy_and_remove_MultiNode ns a i :
  copy_and_remove_last_statement_if_jump (MultiNode ns a i)
  = (nodes <~ with_last_block ns ;; Ok (MultiNode nodes a i)).
Proof. reflexivity. Qed.

Lemma with_last_block_snoc ns x nodes :
  with_last_block (ns ++ [x]) = Ok nodes ->
  exists x', copy_and_remove_last_statement_if_jump x = Ok x' /\ nodes = ns ++ [x'].
Proof.
  revert nodes. induction ns as [|y ns IH]; intros nodes Hw.
  - simpl in Hw. apply bind_Ok in Hw as (x' & Hx & Hw). injection Hw as <-. by exists x'.
  - change (with_last_block ((y :: ns) ++ [x]))
      with (match ns ++ [x] with
            | [] => last_block <~ copy_and_remove_last_statement_if_jump y ;; Ok [last_block]
            | _ :: _ => rest' <~ with_last_block (ns ++ [x]) ;; Ok (y :: rest')
            end) in Hw.
    destruct (ns ++ [x]) as [|z l] eqn:E; [by destruct ns|].
    apply bind_Ok in Hw as (rest' & Hr & Hw). injection Hw as <-.
    destruct (IH rest' Hr) as (x' & Hx & ->). by exists x'.
Qed.

(** X25: the copy that [_copy_and_remove_last_statement_if_jump] returns
    has the address of the node and, as its statements, a prefix of the
    statements of the node: nothing is added, changed or put elsewhere. *)
Theorem copy_and_remove_last_statement_if_jump_prefix n n' :
  copy_and_remove_last_statement_if_jump n = Ok n' ->
  node_addr n' = node_addr n /\ all_statements n' `prefix_of` all_statements n.
Proof.
  revert n'. induction n as
    [a sz st i | ns a i IH | a ns IH | inner rc IH | a rc c t e IHt IHe | a cns e IHc IHe
    | sr c body a IH | se cs d a IHc IHd | a t | a c t | a t] using node_ind';
    intros n' Hc; try done.
  - simpl in Hc. unfold all_statements.
    destruct (last st) as [s|] eqn:El; [|by injection Hc as <-].
    destruct (is_jump_stmt s); injection Hc as <-; [|done].
    split; [done|]. simpl. rewrite !app_nil_r.
    apply last_Some in El as [l' ->]. rewrite removelast_last. by exists [s].
  - rewrite copy_and_remove_MultiNode in Hc. apply bind_Ok in Hc as (nodes & Hw & Hc).
    injection Hc as <-. split; [done|].
    destruct ns as [|x0 ns0] using rev_ind; [by injection Hw as <-|].
    apply with_last_block_snoc in Hw as (x' & Hx & ->).
    apply Forall_app in IH as [_ IHx]. apply Forall_cons in IHx as [IHx _].
    destruct (IHx x' Hx) as [_ [k Hk]].
    unfold all_statements in *. simpl. rewrite !flat_map_app. simpl.
    rewrite !app_nil_r. exists k. by rewrite Hk, <- app_assoc.
  - simpl in Hc. unfold all_statements.
    destruct (last ns) as [[]|] eqn:El; injection Hc as <-; try done.
    split; [done|]. apply last_Some in El as [l' ->]. rewrite removelast_last.
    simpl. rewrite !flat_map_app. by eexists.
Qed.

Lemma copy_and_remove_last_statement_if_jump_prefix_witness :
  node_addr (MultiNode [goto_block 16 32; Block 32 4 [OtherStmt None 32] None] (Some 16) None)
  = node_addr (MultiNode [goto_block 16 32; goto_block 32 48] (Some 16) None)
  /\ all_statements
       (MultiNode [goto_block 16 32; Block 32 4 [OtherStmt None 32] None] (Some 16) None)
     `prefix_of`
     all_statements (MultiNode [goto_block 16 32; goto_block 32 48] (Some 16) None).
Proof.
  apply copy_and_remove_last_statement_if_jump_prefix. reflexivity.
Defined.
